(** * Alg-Trust: rewrite-graph engine, learner policies and graph walker

    A shallow embedding of the Python sources
    ([tokenizer.py], [graph_builder2.py], [policies.py], [learner.py],
    [learner_integration.py]) together with the properties stated about
    them.

    Conventions.
    - A token is a Python [str], modelled as [string]; a token sequence is a
      [list string].
    - Python exceptions are explicit: a function that can raise returns
      [outcome A].  A bare [except:] is modelled by a match on the result.
    - [while] loops run on fuel; every loop is given the fuel its own
      termination argument supplies and the sufficiency lemmas are proved
      where a property depends on them.
    - Python dictionaries are [gmap]s. *)

From stdpp Require Import base list strings gmap.
From Stdlib Require Import ZArith Ascii DecimalString DecimalZ.

Open Scope string_scope.
Open Scope list_scope.
Open Scope nat_scope.

(** ** Python runtime: exceptions, indexing, slicing *)

Inductive exn :=
| ValueError (msg : string)
| IndexError
| TypeError
| ZeroDivisionError
| OverflowError.

Inductive outcome (A : Type) :=
| Ok (a : A)
| Raise (e : exn).
Arguments Ok {A} a.
Arguments Raise {A} e.

#[global] Instance result_ret : MRet outcome := fun A a => Ok a.
#[global] Instance result_bind : MBind outcome := fun A B f r =>
  match r with
  | Ok a => f a
  | Raise e => Raise e
  end.

#[global] Instance outcome_fmap : FMap outcome := fun A B f r =>
  match r with
  | Ok a => Ok (f a)
  | Raise e => Raise e
  end.

Definition is_ok {A} (r : outcome A) : bool :=
  match r with Ok _ => true | Raise _ => false end.

(** [tok in lst] for a list of strings. *)
Definition tok_in (t : string) (l : list string) : bool :=
  existsb (String.eqb t) l.

(** [l[i]]: a negative index counts from the end, anything outside the list
    raises [IndexError]. *)
Definition py_index {A} (l : list A) (i : Z) : outcome A :=
  let k := if (i <? 0)%Z then (i + Z.of_nat (length l))%Z else i in
  if (k <? 0)%Z then Raise IndexError
  else match l !! Z.to_nat k with
       | Some x => Ok x
       | None => Raise IndexError
       end.

(** Slice bounds: a negative bound counts from the end and every bound is
    clamped to the list. *)
Definition py_clamp (len : nat) (i : Z) : nat :=
  let k := if (i <? 0)%Z then (i + Z.of_nat len)%Z else i in
  Z.to_nat (Z.max 0 k) `min` len.

(** [l[:j]], [l[i:]] and [l[i:j]]. *)
Definition py_slice_to {A} (l : list A) (j : Z) : list A :=
  take (py_clamp (length l) j) l.
Definition py_slice_from {A} (l : list A) (i : Z) : list A :=
  drop (py_clamp (length l) i) l.
Definition py_slice {A} (l : list A) (i j : Z) : list A :=
  drop (py_clamp (length l) i) (take (py_clamp (length l) j) l).

(** The longest prefix whose elements satisfy [p], and what follows it. *)
Fixpoint span {A} (p : A → bool) (l : list A) : list A * list A :=
  match l with
  | x :: l' =>
      if p x then let '(pre, rest) := span p l' in (x :: pre, rest)
      else ([], l)
  | [] => ([], [])
  end.

(** [''.join(tokens)] *)
Definition join (tokens : list string) : string := String.concat "" tokens.

(** [repr] of a list of strings that hold no quote, as an f-string
    renders it: [['a', 'b']]. *)
Definition py_repr_str (s : string) : string := "'" +:+ s +:+ "'".

Definition py_repr_list (l : list string) : string :=
  "[" +:+ String.concat ", " (map py_repr_str l) +:+ "]".

(** ** Bracket tables

    [tokenizer.py] as shipped does not define the three names that every
    other module imports from it. *)

(** Modelled from the spec: [OPEN_BRACKETS], the opening delimiters of the
    "three paired families" of brackets (round, square, curly); a list,
    since the sources concatenate it with other lists. *)
Definition OPEN_BRACKETS : list string := ["("; "["; "{"].

(** Modelled from the spec: [CLOSE_BRACKETS], the closing delimiters of the
    three bracket families, in the order of [OPEN_BRACKETS]. *)
Definition CLOSE_BRACKETS : list string := [")"; "]"; "}"].

(** Modelled from the spec: [BRACKET_PAIRS], the dictionary sending each
    opening delimiter to the closing delimiter of its family. *)
Definition BRACKET_PAIRS : gmap string string :=
  <["(" := ")"]> (<["[" := "]"]> (<["{" := "}"]> ∅)).

Definition operators : list string := ["+"; "-"; "*"; "/"; "^"].
Definition all_brackets : list string := OPEN_BRACKETS ++ CLOSE_BRACKETS.

(** ** [graph_builder2.simplify_brackets] *)

(** The test of the inner loop at index [i]: an opening bracket, one token
    that is neither a bracket nor an operator, and the closing bracket of
    the same family. *)
Definition collapsible (tokens : list string) (i : nat) : bool :=
  match tokens !! i, tokens !! (i + 1), tokens !! (i + 2) with
  | Some a, Some b, Some c =>
      tok_in a OPEN_BRACKETS
      && negb (tok_in b (all_brackets ++ operators))
      && match BRACKET_PAIRS !! a with
         | Some p => String.eqb c p
         | None => false
         end
  | _, _, _ => false
  end.

(** [tokens[:i] + [tokens[i + 1]] + tokens[i + 3:]] *)
Definition collapse_at (tokens : list string) (i : nat) : list string :=
  take i tokens ++ match tokens !! (i + 1) with
                   | Some b => [b]
                   | None => []
                   end ++ drop (i + 3) tokens.

(** The inner [while i < len(tokens) - 2] loop, from index [i]. *)
Fixpoint simplify_scan (fuel : nat) (tokens : list string) (i : nat)
    (changed : bool) : list string * bool :=
  match fuel with
  | 0 => (tokens, changed)
  | S fuel' =>
      if i + 2 <? length tokens then
        if collapsible tokens i
        then simplify_scan fuel' (collapse_at tokens i) i true
        else simplify_scan fuel' tokens (i + 1) changed
      else (tokens, changed)
  end.

(** The outer [while changed] loop. *)
Fixpoint simplify_loop (fuel : nat) (tokens : list string) : list string :=
  match fuel with
  | 0 => tokens
  | S fuel' =>
      let '(tokens', changed) :=
        simplify_scan (length tokens) tokens 0 false in
      if changed then simplify_loop fuel' tokens' else tokens'
  end.

Definition simplify_brackets (tokens : list string) : list string :=
  simplify_loop (S (length tokens)) tokens.

(** A sequence holds no bracket pair whose sole content is one operand. *)
Definition no_collapsible (tokens : list string) : Prop :=
  ∀ i, collapsible tokens i = false.

(** ** Python floats

    The sources compute with Python [float]s (IEEE binary64) through a
    handful of operations.  The embedding is parameterised by them, so that
    every general statement below holds for any implementation of the
    arithmetic.

    - [float_of_str s] is [float(s)]; it raises [ValueError] on a string
      that is not a number.
    - [fadd], [fsub], [fmul], [fdiv] are [+], [-], [*] and [/] on floats;
      [/] is only ever applied after the explicit test for a zero divisor.
    - [fpow x y] is [x ** y], which can raise ([ZeroDivisionError],
      [OverflowError]).  For a negative base and a fractional exponent
      Python returns a [complex]; both callers then fail in [int(result)]
      with [TypeError], so this case is modelled as raising at once.
    - [feq0 x] is [x == 0].
    - [float_to_int x] is [int(x)], which raises on infinities and NaN;
      [float_eq_int x n] is [x == n]; [str_of_float x] is [str(x)]. *)
Class FloatModel := {
  pyfloat : Type;
  float_of_str : string → outcome pyfloat;
  fadd : pyfloat → pyfloat → pyfloat;
  fsub : pyfloat → pyfloat → pyfloat;
  fmul : pyfloat → pyfloat → pyfloat;
  fdiv : pyfloat → pyfloat → pyfloat;
  fpow : pyfloat → pyfloat → outcome pyfloat;
  feq0 : pyfloat → bool;
  float_to_int : pyfloat → outcome Z;
  float_eq_int : pyfloat → Z → bool;
  str_of_float : pyfloat → string;
}.

(** [str(n)] for a Python [int]. *)
Definition str_of_int (n : Z) : string := NilZero.string_of_int (Z.to_int n).

(** [str(n)] for a non-negative index. *)
Definition str_of_nat (n : nat) : string := str_of_int (Z.of_nat n).

(** The "format result nicely" block shared by [perform_operation] and
    [compute_same_operator_result]:
    [str(int(result)) if result == int(result) else str(result)]. *)
Definition format_result `{FloatModel} (x : pyfloat) : outcome string :=
  n ← float_to_int x;
  if float_eq_int x n then Ok (str_of_int n) else Ok (str_of_float x).

(** *** A concrete arithmetic: the integer-valued fragment

    Used to run the program on examples.  [Fin z] is the double whose value
    is the integer [z]; on integers of magnitude below [2^53] the operations
    below are exactly those of binary64.  [Unmodelled] stands for any double
    outside the fragment (a non-integral quotient or power, a literal with a
    fractional part); it is absorbing, and the examples of this file never
    reach it. *)
Inductive zfloat :=
| Fin (z : Z)
| Unmodelled.

Definition zlift (f : Z → Z → Z) (x y : zfloat) : zfloat :=
  match x, y with
  | Fin a, Fin b => Fin (f a b)
  | _, _ => Unmodelled
  end.

Definition zdiv (x y : zfloat) : zfloat :=
  match x, y with
  | Fin a, Fin b =>
      if (b =? 0)%Z then Unmodelled
      else if (a mod b =? 0)%Z then Fin (a / b) else Unmodelled
  | _, _ => Unmodelled
  end.

Definition zpow (x y : zfloat) : outcome zfloat :=
  match x, y with
  | Fin a, Fin b =>
      if (0 <=? b)%Z then Ok (Fin (a ^ b))
      else if (a =? 0)%Z then Raise ZeroDivisionError
      else if (a =? 1)%Z then Ok (Fin 1)
      else Ok Unmodelled
  | _, _ => Ok Unmodelled
  end.

Definition is_digit (c : ascii) : bool :=
  (48 <=? nat_of_ascii c) && (nat_of_ascii c <=? 57).

(** A literal [-?digits.digits] with at least one digit. *)
Definition is_point_literal (s : string) : bool :=
  let cs := String.list_ascii_of_string s in
  let cs := match cs with
            | c :: cs' => if Ascii.eqb c "-" then cs' else cs
            | [] => cs
            end in
  let '(ip, rest) := span is_digit cs in
  match rest with
  | c :: fp =>
      Ascii.eqb c "." && forallb is_digit fp && (0 <? length ip + length fp)
  | [] => false
  end.

Definition zfloat_of_str (s : string) : outcome zfloat :=
  match NilZero.int_of_string s with
  | Some d => Ok (Fin (Z.of_int d))
  | None =>
      if is_point_literal s then Ok Unmodelled
      else Raise (ValueError ("could not convert string to float: '" +:+ s
                              +:+ "'"))
  end.

#[global] Instance IntFragment : FloatModel := {|
  pyfloat := zfloat;
  float_of_str := zfloat_of_str;
  fadd := zlift Z.add;
  fsub := zlift Z.sub;
  fmul := zlift Z.mul;
  fdiv := zdiv;
  fpow := zpow;
  feq0 := λ x, match x with Fin z => (z =? 0)%Z | Unmodelled => false end;
  float_to_int := λ x, match x with
                       | Fin z => Ok z
                       | Unmodelled => Raise (ValueError "outside the integer fragment")
                       end;
  float_eq_int := λ x n, match x with Fin z => (z =? n)%Z | Unmodelled => false end;
  str_of_float := λ x, match x with Fin z => str_of_int z | Unmodelled => "" end;
|}.

(** ** [tokenizer.py] *)

Definition str_of_char (c : ascii) : string := String c EmptyString.

(** [c.isdigit() or c == '.'] on the characters of a byte string. *)
Definition is_number_char (c : ascii) : bool := is_digit c || Ascii.eqb c ".".

(** The [while j < len(expression) and ...: j += 1] scan: the longest prefix
    of number characters and what follows it. *)
Definition span_number (cs : list ascii) : list ascii * list ascii :=
  span is_number_char cs.

(** The main loop of [tokenize]; [rest] is [expression[i:]]. *)
Fixpoint tokenize_loop (fuel : nat) (rest : list ascii) (i : nat)
    (tokens : list string) : outcome (list string) :=
  match fuel with
  | 0 => Ok tokens
  | S fuel' =>
      match rest with
      | [] => Ok tokens
      | c :: rest' =>
          if tok_in (str_of_char c) ["("; ")"] then
            tokenize_loop fuel' rest' (i + 1) (tokens ++ [str_of_char c])
          else if tok_in (str_of_char c) ["+"; "*"; "/"; "^"] then
            tokenize_loop fuel' rest' (i + 1) (tokens ++ [str_of_char c])
          else if Ascii.eqb c "-" then
            if (i =? 0)
               || match last tokens with
                  | Some t => tok_in t ["+"; "-"; "*"; "/"; "^"; "("]
                  | None => false
                  end
            then
              let '(num, rest'') := span_number rest' in
              tokenize_loop fuel' rest'' (i + 1 + length num)
                (tokens ++ [String.string_of_list_ascii (c :: num)])
            else tokenize_loop fuel' rest' (i + 1) (tokens ++ ["-"])
          else if is_number_char c then
            let '(num, rest'') := span_number rest in
            tokenize_loop fuel' rest'' (i + length num)
              (tokens ++ [String.string_of_list_ascii num])
          else
            Raise (ValueError
                     ("Invalid character in expression: " +:+ str_of_char c))
      end
  end.

(** [tokenize(expression)]: spaces are removed first. *)
Definition tokenize (expression : string) : outcome (list string) :=
  let cs := filter (λ c, c ≠ " "%char) (String.list_ascii_of_string expression) in
  tokenize_loop (length cs) cs 0 [].

(** The [for i, token in enumerate(tokens)] loop of [validate_tokens];
    [rest] is [tokens[i:]]. *)
Fixpoint validate_loop (tokens rest : list string) (i : nat)
    (paren_depth : Z) : outcome Z :=
  match rest with
  | [] => Ok paren_depth
  | token :: rest' =>
      paren_depth ←
        (if String.eqb token "(" then Ok (paren_depth + 1)%Z
         else if String.eqb token ")" then
           if (paren_depth - 1 <? 0)%Z
           then Raise (ValueError ("Unmatched closing parenthesis at position "
                                     +:+ str_of_nat i))
           else Ok (paren_depth - 1)%Z
         else Ok paren_depth);
      _ ← (if String.eqb token ")" && (0 <? i)
              && match tokens !! (i - 1) with
                 | Some p => String.eqb p "("
                 | None => false
                 end
           then Raise (ValueError ("Empty parentheses at position "
                                     +:+ str_of_nat i))
           else Ok ());
      _ ← (if tok_in token operators then
             if i =? 0 then
               Raise (ValueError ("Expression cannot start with operator: "
                                    +:+ token))
             else if i =? length tokens - 1 then
               Raise (ValueError ("Expression cannot end with operator: "
                                    +:+ token))
             else
               prev ← py_index tokens (Z.of_nat i - 1);
               if tok_in prev operators || String.eqb prev "(" then
                 Raise (ValueError ("Operator " +:+ token +:+ " at position "
                                      +:+ str_of_nat i
                                      +:+ " follows invalid token: " +:+ prev))
               else
                 next_token ← py_index tokens (Z.of_nat i + 1);
                 if tok_in next_token operators || String.eqb next_token ")" then
                   Raise (ValueError ("Operator " +:+ token +:+ " at position "
                                        +:+ str_of_nat i
                                        +:+ " precedes invalid token: "
                                        +:+ next_token))
                 else Ok ()
           else Ok ());
      validate_loop tokens rest' (i + 1) paren_depth
  end.

Definition validate_tokens (tokens : list string) : outcome bool :=
  match tokens with
  | [] => Raise (ValueError "Empty token list")
  | _ =>
      paren_depth ← validate_loop tokens tokens 0 0%Z;
      if negb (paren_depth =? 0)%Z then
        Raise (ValueError ("Unmatched opening parenthesis ("
                             +:+ str_of_int paren_depth +:+ " unclosed)"))
      else Ok true
  end.

(** ** [graph_builder2.py]: bracket and term analysis *)

(** The matching scan
    [while j < len(tokens) and depth > 0: ...; j += 1],
    which appears in [find_bracket_groups], [distribute_bracket] and
    [find_distributable_brackets]; returns the final [j]. *)
Fixpoint scan_forward (fuel : nat) (tokens : list string) (j : nat)
    (depth : Z) : nat :=
  match fuel with
  | 0 => j
  | S fuel' =>
      match tokens !! j with
      | Some t =>
          if (0 <? depth)%Z then
            scan_forward fuel' tokens (j + 1)
              (if tok_in t OPEN_BRACKETS then depth + 1
               else if tok_in t CLOSE_BRACKETS then depth - 1
               else depth)%Z
          else j
      | None => j
      end
  end.

(** The backward scan
    [while j >= 0 and depth > 0: ...; j -= 1]; returns the final [j], which
    can be [-1]. *)
Fixpoint scan_backward (fuel : nat) (tokens : list string) (j : Z)
    (depth : Z) : Z :=
  match fuel with
  | 0 => j
  | S fuel' =>
      if (0 <=? j)%Z && (0 <? depth)%Z then
        match tokens !! Z.to_nat j with
        | Some t =>
            scan_backward fuel' tokens (j - 1)
              (if tok_in t CLOSE_BRACKETS then depth + 1
               else if tok_in t OPEN_BRACKETS then depth - 1
               else depth)%Z
        | None => j
        end
      else j
  end.

(** [find_bracket_groups], branch [outermost_only]:
    the [while i < len(tokens)] loop. *)
Fixpoint find_outermost_groups (fuel : nat) (tokens : list string) (i : nat)
    (groups : list (nat * nat)) : list (nat * nat) :=
  match fuel with
  | 0 => groups
  | S fuel' =>
      match tokens !! i with
      | Some t =>
          if tok_in t OPEN_BRACKETS then
            let start := i in
            let j := scan_forward (length tokens) tokens (i + 1) 1 in
            let end_ := j - 1 in
            find_outermost_groups fuel' tokens (end_ + 1)
              (groups ++ [(start, end_)])
          else find_outermost_groups fuel' tokens (i + 1) groups
      | None => groups
      end
  end.

(** [find_bracket_groups], other branch: the stack loop over
    [enumerate(tokens)].  The stack is kept with its top at the head. *)
Fixpoint find_nested_groups (rest : list string) (i : nat)
    (stack : list (string * nat)) (groups : list (nat * nat))
    : list (nat * nat) :=
  match rest with
  | [] => groups
  | token :: rest' =>
      if tok_in token OPEN_BRACKETS then
        find_nested_groups rest' (i + 1) ((token, i) :: stack) groups
      else if tok_in token CLOSE_BRACKETS then
        match stack with
        | (open_bracket, start) :: stack' =>
            find_nested_groups rest' (i + 1) stack'
              (if bool_decide (BRACKET_PAIRS !! open_bracket = Some token)
               then groups ++ [(start, i)] else groups)
        | [] => find_nested_groups rest' (i + 1) stack groups
        end
      else find_nested_groups rest' (i + 1) stack groups
  end.

(** The sort key [(x[0], -(x[1] - x[0]))] and its lexicographic order. *)
Definition group_key (g : nat * nat) : Z * Z :=
  (Z.of_nat g.1, - (Z.of_nat g.2 - Z.of_nat g.1))%Z.

Definition key_le (a b : Z * Z) : bool :=
  (a.1 <? b.1)%Z || ((a.1 =? b.1)%Z && (a.2 <=? b.2)%Z).

(** [groups.sort(key=...)]: a stable sort, here by insertion. *)
Fixpoint insert_group (g : nat * nat) (l : list (nat * nat))
    : list (nat * nat) :=
  match l with
  | [] => [g]
  | h :: t =>
      if key_le (group_key h) (group_key g) then h :: insert_group g t
      else g :: h :: t
  end.

Definition sort_groups (l : list (nat * nat)) : list (nat * nat) :=
  fold_left (λ acc g, insert_group g acc) l [].

Definition find_bracket_groups (tokens : list string) (outermost_only : bool)
    : list (nat * nat) :=
  if outermost_only then find_outermost_groups (length tokens) tokens 0 []
  else sort_groups (find_nested_groups tokens 0 [] []).

(** [tokens[start + 1:end]] *)
Definition get_bracket_content (tokens : list string) (start end_ : nat)
    : list string :=
  drop (start + 1) (take end_ tokens).

(** State of the loop of [parse_bracket_terms]. *)
Record parse_state := {
  ps_terms : list (string * list string);
  ps_current_sign : string;
  ps_current_term : list string;
  ps_depth : Z;
}.

Definition parse_step (split_all_operators : bool) (st : parse_state)
    (token : string) : parse_state :=
  let split_ops :=
    if split_all_operators then ["+"; "-"; "*"; "/"; "^"] else ["+"; "-"] in
  if tok_in token OPEN_BRACKETS then
    {| ps_terms := ps_terms st; ps_current_sign := ps_current_sign st;
       ps_current_term := ps_current_term st ++ [token];
       ps_depth := (ps_depth st + 1)%Z |}
  else if tok_in token CLOSE_BRACKETS then
    {| ps_terms := ps_terms st; ps_current_sign := ps_current_sign st;
       ps_current_term := ps_current_term st ++ [token];
       ps_depth := (ps_depth st - 1)%Z |}
  else if tok_in token split_ops && (ps_depth st =? 0)%Z
          && negb (bool_decide (ps_current_term st = [])) then
    {| ps_terms := ps_terms st ++ [(ps_current_sign st, ps_current_term st)];
       ps_current_sign := if split_all_operators then "+" else token;
       ps_current_term := [];
       ps_depth := ps_depth st |}
  else
    {| ps_terms := ps_terms st; ps_current_sign := ps_current_sign st;
       ps_current_term := ps_current_term st ++ [token];
       ps_depth := ps_depth st |}.

Definition parse_bracket_terms (tokens : list string)
    (split_all_operators : bool) : list (string * list string) :=
  match tokens with
  | [] => []
  | _ =>
      let st := fold_left (parse_step split_all_operators) tokens
                  {| ps_terms := []; ps_current_sign := "+";
                     ps_current_term := []; ps_depth := 0 |} in
      match ps_current_term st with
      | [] => ps_terms st
      | _ => ps_terms st ++ [(ps_current_sign st, ps_current_term st)]
      end
  end.

(** ** [graph_builder2.py]: rewrite executors *)

Definition drop_brackets (tokens : list string)
    (bracket_start bracket_end : nat) : list string :=
  let inner := drop (bracket_start + 1) (take bracket_end tokens) in
  take bracket_start tokens ++ inner ++ drop (bracket_end + 1) tokens.

(** A term that is "complex" (several tokens, or starting with a bracket)
    is wrapped in fresh round brackets. *)
Definition wrap_term (term_tokens : list string) : list string :=
  if (1 <? length term_tokens)
     || match term_tokens with
        | t :: _ => tok_in t OPEN_BRACKETS
        | [] => false
        end
  then ["("] ++ term_tokens ++ [")"]
  else term_tokens.

(** The [for i, (sign, term_tokens) in enumerate(terms)] loop of
    [distribute_bracket]; [terms] is what remains from index [i]. *)
Fixpoint distribute_terms (op_side outer_operator : string)
    (outer_operand : list string) (terms : list (string * list string))
    (i : nat) (distributed_inner : list string) : list string :=
  match terms with
  | [] => distributed_inner
  | (sign, term_tokens) :: terms' =>
      let distributed_inner :=
        if 0 <? i then distributed_inner ++ [sign] else distributed_inner in
      let term_tokens :=
        if negb (0 <? i) && String.eqb sign "-" then
          match term_tokens with
          | t :: _ =>
              if negb (tok_in t ["+"; "-"]) then ["-"] ++ term_tokens
              else term_tokens
          | [] => term_tokens
          end
        else term_tokens in
      let distributed_inner :=
        if String.eqb op_side "right" then
          distributed_inner ++ wrap_term term_tokens
            ++ [outer_operator] ++ outer_operand
        else
          distributed_inner ++ outer_operand ++ [outer_operator]
            ++ wrap_term term_tokens in
      distribute_terms op_side outer_operator outer_operand terms' (i + 1)
        distributed_inner
  end.

(** [distribute_bracket]: [Ok None] is the Python [None] ("distribution not
    applicable"). *)
Definition distribute_bracket (tokens : list string)
    (bracket_start bracket_end : nat) (op_side : string) (op_index : nat)
    (outer_operand : list string) : outcome (option (list string)) :=
  let inner_tokens := get_bracket_content tokens bracket_start bracket_end in
  outer_operator ← py_index tokens (Z.of_nat op_index);
  let terms := parse_bracket_terms inner_tokens false in
  if length terms <=? 1 then Ok None
  else
    let distributed_inner :=
      distribute_terms op_side outer_operator outer_operand terms 0 [] in
    let distributed := ["("] ++ distributed_inner ++ [")"] in
    if String.eqb op_side "right" then
      let before := take bracket_start tokens in
      let after_operand_idx := op_index + 1 in
      t ← py_index tokens (Z.of_nat after_operand_idx);
      let after :=
        if tok_in t OPEN_BRACKETS then
          drop (scan_forward (length tokens) tokens (after_operand_idx + 1) 1)
            tokens
        else drop (after_operand_idx + 1) tokens in
      Ok (Some (before ++ distributed ++ after))
    else
      let before_operand_idx := (Z.of_nat op_index - 1)%Z in
      t ← py_index tokens before_operand_idx;
      let before :=
        if tok_in t CLOSE_BRACKETS then
          py_slice_to tokens
            (scan_backward (length tokens) tokens (before_operand_idx - 1) 1
             + 1)%Z
        else py_slice_to tokens before_operand_idx in
      let after := drop (bracket_end + 1) tokens in
      Ok (Some (before ++ distributed ++ after)).

(** ** [graph_builder2.py]: action discovery *)

(** One entry of the list returned by [find_distributable_brackets]
    (a Python dict with exactly these keys). *)
Record distributable := {
  dist_bracket_start : nat;
  dist_bracket_end : nat;
  dist_op_side : string;
  dist_op_index : nat;
  dist_operator : string;
  dist_operand : list string;
}.

(** "Check for operator on the right" for the bracket [(start, end_)]. *)
Definition distributable_right (tokens : list string) (start end_ : nat)
    : list distributable :=
  match tokens !! (end_ + 1) with
  | Some operator =>
      if tok_in operator ["+"; "-"; "*"; "/"; "^"] then
        let op_index := end_ + 1 in
        match tokens !! (op_index + 1) with
        | Some t =>
            let operand_start := op_index + 1 in
            let operand :=
              if tok_in t OPEN_BRACKETS then
                let j := scan_forward (length tokens) tokens
                           (operand_start + 1) 1 in
                drop operand_start (take j tokens)
              else [t] in
            if String.eqb operator "/" && tok_in t OPEN_BRACKETS then []
            else [{| dist_bracket_start := start; dist_bracket_end := end_;
                     dist_op_side := "right"; dist_op_index := op_index;
                     dist_operator := operator; dist_operand := operand |}]
        | None => []
        end
      else []
  | None => []
  end.

(** "Check for operator on the left" for the bracket [(start, end_)]. *)
Definition distributable_left (tokens : list string) (start end_ : nat)
    : list distributable :=
  if 0 <? start then
    match tokens !! (start - 1) with
    | Some operator =>
        if tok_in operator ["+"; "-"; "*"; "/"; "^"] then
          let op_index := start - 1 in
          if 0 <? op_index then
            let operand_end := op_index - 1 in
            match tokens !! operand_end with
            | Some t =>
                let operand :=
                  if tok_in t CLOSE_BRACKETS then
                    let j := scan_backward (length tokens) tokens
                               (Z.of_nat operand_end - 1) 1 in
                    py_slice tokens (j + 1) (Z.of_nat operand_end + 1)
                  else [t] in
                if String.eqb operator "/" then []
                else [{| dist_bracket_start := start;
                         dist_bracket_end := end_;
                         dist_op_side := "left"; dist_op_index := op_index;
                         dist_operator := operator;
                         dist_operand := operand |}]
            | None => []
            end
          else []
        else []
    | None => []
    end
  else [].

Definition find_distributable_brackets (tokens : list string)
    (include_nested : bool) : list distributable :=
  let bracket_groups := find_bracket_groups tokens (negb include_nested) in
  flat_map (λ '(start, end_),
              distributable_right tokens start end_
                ++ distributable_left tokens start end_)
    bracket_groups.

(** The loop of [find_evaluatable_operations]; [rest] is [tokens[i:]].
    [tokens[i - 1]] wraps around at [i = 0] and [tokens[i + 1]] raises
    [IndexError] when the operator is the last token. *)
Fixpoint find_evaluatable_loop (tokens rest : list string) (i : nat)
    (operations : list (nat * string)) : outcome (list (nat * string)) :=
  match rest with
  | [] => Ok operations
  | token :: rest' =>
      if tok_in token operators then
        left ← py_index tokens (Z.of_nat i - 1);
        right ← py_index tokens (Z.of_nat i + 1);
        if negb (tok_in left all_brackets) && negb (tok_in right all_brackets)
        then find_evaluatable_loop tokens rest' (i + 1)
               (operations ++ [(i, token)])
        else find_evaluatable_loop tokens rest' (i + 1) operations
      else find_evaluatable_loop tokens rest' (i + 1) operations
  end.

Definition find_evaluatable_operations (tokens : list string)
    : outcome (list (nat * string)) :=
  find_evaluatable_loop tokens tokens 0 [].

(** The [if operator == ...] chain of [perform_operation]. *)
Definition apply_operator `{FloatModel} (operator : string)
    (left right : pyfloat) : outcome pyfloat :=
  if String.eqb operator "+" then Ok (fadd left right)
  else if String.eqb operator "-" then Ok (fsub left right)
  else if String.eqb operator "*" then Ok (fmul left right)
  else if String.eqb operator "/" then
    if feq0 right then Raise (ValueError "Division by zero")
    else Ok (fdiv left right)
  else if String.eqb operator "^" then fpow left right
  else Raise (ValueError ("Unknown operator: " +:+ operator)).

Definition perform_operation `{FloatModel} (tokens : list string)
    (op_index : nat) (operator : string) : outcome (list string) :=
  lt ← py_index tokens (Z.of_nat op_index - 1);
  left ← float_of_str lt;
  rt ← py_index tokens (Z.of_nat op_index + 1);
  right ← float_of_str rt;
  result ← apply_operator operator left right;
  result_str ← format_result result;
  let new_tokens :=
    py_slice_to tokens (Z.of_nat op_index - 1) ++ [result_str]
      ++ drop (op_index + 2) tokens in
  Ok (simplify_brackets new_tokens).

(** The loop of [is_same_operator_expression]: [None] is the early
    [return (False, None)], [Some found] the value of [found_operator] when
    the loop ends. *)
Fixpoint same_operator_loop (rest : list string)
    (found_operator : option string) : option (option string) :=
  match rest with
  | [] => Some found_operator
  | token :: rest' =>
      if tok_in token all_brackets then None
      else if tok_in token operators then
        match found_operator with
        | None => same_operator_loop rest' (Some token)
        | Some op =>
            if negb (String.eqb token op) then None
            else same_operator_loop rest' found_operator
        end
      else same_operator_loop rest' found_operator
  end.

Definition is_same_operator_expression (tokens : list string)
    : bool * option string :=
  match same_operator_loop tokens None with
  | Some (Some op) => (true, Some op)
  | _ => (false, None)
  end.

(** [[float(t) for t in tokens if t != operator]] *)
Fixpoint floats_of `{FloatModel} (tokens : list string)
    : outcome (list pyfloat) :=
  match tokens with
  | [] => Ok []
  | t :: tokens' =>
      x ← float_of_str t;
      xs ← floats_of tokens';
      Ok (x :: xs)
  end.

(** One round of the [for num in numbers[1:]] loop of
    [compute_same_operator_result]; an operator outside the five leaves
    [result] as it is. *)
Definition fold_operator `{FloatModel} (operator : string)
    (result num : pyfloat) : outcome pyfloat :=
  if String.eqb operator "+" then Ok (fadd result num)
  else if String.eqb operator "-" then Ok (fsub result num)
  else if String.eqb operator "*" then Ok (fmul result num)
  else if String.eqb operator "/" then
    if feq0 num then Raise (ValueError "Division by zero")
    else Ok (fdiv result num)
  else if String.eqb operator "^" then fpow result num
  else Ok result.

Fixpoint fold_numbers `{FloatModel} (operator : string) (result : pyfloat)
    (numbers : list pyfloat) : outcome pyfloat :=
  match numbers with
  | [] => Ok result
  | num :: numbers' =>
      result ← fold_operator operator result num;
      fold_numbers operator result numbers'
  end.

Definition compute_same_operator_result `{FloatModel} (tokens : list string)
    (operator : string) : outcome string :=
  numbers ← floats_of (filter (λ t, t ≠ operator) tokens);
  match numbers with
  | [] => Ok (match tokens with t :: _ => t | [] => "0" end)
  | first :: numbers' =>
      result ← fold_numbers operator first numbers';
      format_result result
  end.

(** ** [graph_builder2.py]: [ExpressionGraph2] *)

(** An entry of the list built by [_find_all_actions] (a Python dict with
    the keys [type], [description], [result_tokens]). *)
Record graph_action := {
  ga_type : string;
  ga_description : string;
  ga_result_tokens : list string;
}.

(** The closure [add_action]; its state is the pair of the enclosing
    function's [actions] and [seen_results]. *)
Definition add_action (st : list graph_action * gset string)
    (action_type description : string) (result_tokens : list string)
    : list graph_action * gset string :=
  let result_key := join result_tokens in
  if bool_decide (result_key ∈ st.2) then st
  else (st.1 ++ [{| ga_type := action_type;
                    ga_description := description;
                    ga_result_tokens := result_tokens |}],
        st.2 ∪ {[result_key]}).

(** Body of the loop "1. Find distributable brackets": the [try] block with
    its bare [except: pass]. *)
Definition add_distribute_action (tokens : list string)
    (st : list graph_action * gset string) (dist : distributable)
    : list graph_action * gset string :=
  let inner := join (get_bracket_content tokens (dist_bracket_start dist)
                       (dist_bracket_end dist)) in
  let operand_str := join (dist_operand dist) in
  match distribute_bracket tokens (dist_bracket_start dist)
          (dist_bracket_end dist) (dist_op_side dist) (dist_op_index dist)
          (dist_operand dist) with
  | Ok (Some ((_ :: _) as result)) =>
      add_action st "distribute"
        ("Distribute (" +:+ inner +:+ ") " +:+ dist_operator dist +:+ " "
           +:+ operand_str)
        (simplify_brackets result)
  | _ => st
  end.

(** Body of the loop "2. Drop brackets". *)
Definition add_drop_action (tokens : list string)
    (st : list graph_action * gset string) (g : nat * nat)
    : list graph_action * gset string :=
  let inner := join (get_bracket_content tokens g.1 g.2) in
  let result := simplify_brackets (drop_brackets tokens g.1 g.2) in
  add_action st "drop_brackets" ("Drop brackets: (" +:+ inner +:+ ")") result.

(** Body of the loop "3. Find evaluatable operations". *)
Definition add_evaluate_action `{FloatModel} (tokens : list string)
    (st : list graph_action * gset string) (op : nat * string)
    : list graph_action * gset string :=
  match
    result ← perform_operation tokens op.1 op.2;
    left_tok ← py_index tokens (Z.of_nat op.1 - 1);
    right_tok ← py_index tokens (Z.of_nat op.1 + 1);
    Ok (result, left_tok, right_tok)
  with
  | Ok (result, left_tok, right_tok) =>
      add_action st "evaluate"
        ("Compute " +:+ left_tok +:+ " " +:+ op.2 +:+ " " +:+ right_tok)
        result
  | Raise _ => st
  end.

(** [ExpressionGraph2._find_all_actions]; the flag [allow_wrong_distribute]
    only guards commented-out code. *)
Definition find_all_actions `{FloatModel} (tokens : list string)
    : outcome (list graph_action) :=
  let st := ([], ∅) in
  let distributable := find_distributable_brackets tokens true in
  let st := fold_left (add_distribute_action tokens) distributable st in
  let all_groups := find_bracket_groups tokens false in
  let st := fold_left (add_drop_action tokens) all_groups st in
  operations ← find_evaluatable_operations tokens;
  let st := fold_left (add_evaluate_action tokens) operations st in
  Ok st.1.

Record Node `{FloatModel} := {
  node_id : string;
  node_tokens : list string;
  node_expression : string;
  node_is_final : bool;
  node_result : option pyfloat;
  node_parent_id : option string;
}.

(** [Node.__init__]; [uuid] is the value of [str(uuid.uuid4())[:8]], drawn
    before anything can raise. *)
Definition Node_init `{FloatModel} (uuid : string) (tokens : list string)
    (parent_id : option string) : outcome Node :=
  let is_final := length tokens =? 1 in
  result ← (if is_final then
              t ← py_index tokens 0;
              x ← float_of_str t;
              Ok (Some x)
            else Ok None);
  Ok {| node_id := uuid; node_tokens := tokens;
        node_expression := join tokens; node_is_final := is_final;
        node_result := result; node_parent_id := parent_id |}.

Record Edge := {
  from_node_id : string;
  to_node_id : string;
  edge_action_type : string;
  edge_description : string;
}.

(** The state of an [ExpressionGraph2] under construction: the object's
    attributes, the local [queue] of [_build_graph], and the number of
    identifiers drawn so far from [uuid.uuid4]. *)
Record ExpressionGraph2 `{FloatModel} := {
  expression : string;
  nodes : gmap string Node;
  edges : list Edge;
  root_id : string;
  max_nodes : option Z;
  truncated : bool;
  seen_expressions : gmap string string;
  queue : list Node;
  draws : nat;
}.

Definition with_queue `{FloatModel} (g : ExpressionGraph2) (q : list Node)
    : ExpressionGraph2 :=
  {| expression := expression g; nodes := nodes g; edges := edges g;
     root_id := root_id g; max_nodes := max_nodes g;
     truncated := truncated g; seen_expressions := seen_expressions g;
     queue := q; draws := draws g |}.

Definition with_truncated `{FloatModel} (g : ExpressionGraph2)
    : ExpressionGraph2 :=
  {| expression := expression g; nodes := nodes g; edges := edges g;
     root_id := root_id g; max_nodes := max_nodes g;
     truncated := true; seen_expressions := seen_expressions g;
     queue := queue g; draws := draws g |}.

(** The block, written twice in [_build_graph], that records the state
    [new_tokens] reached from [current_id]: an edge to the node already
    known under the same expression string, or a new node, its edge, and an
    entry in the queue.  [uuid4 k] is the [k]-th identifier the run draws.
    The boolean is [false] when [Node(...)] raised; the identifier is
    consumed all the same. *)
Definition record_state `{FloatModel} (uuid4 : nat → string)
    (g : ExpressionGraph2) (current_id : string) (new_tokens : list string)
    (action_type desc : string) : ExpressionGraph2 * bool :=
  let new_expr := join new_tokens in
  match seen_expressions g !! new_expr with
  | Some existing_id =>
      ({| expression := expression g; nodes := nodes g;
          edges := edges g ++ [{| from_node_id := current_id;
                                  to_node_id := existing_id;
                                  edge_action_type := action_type;
                                  edge_description := desc |}];
          root_id := root_id g; max_nodes := max_nodes g;
          truncated := truncated g;
          seen_expressions := seen_expressions g;
          queue := queue g; draws := draws g |}, true)
  | None =>
      match Node_init (uuid4 (draws g)) new_tokens (Some current_id) with
      | Ok new_node =>
          ({| expression := expression g;
              nodes := <[node_id new_node := new_node]> (nodes g);
              edges := edges g ++ [{| from_node_id := current_id;
                                      to_node_id := node_id new_node;
                                      edge_action_type := action_type;
                                      edge_description := desc |}];
              root_id := root_id g; max_nodes := max_nodes g;
              truncated := truncated g;
              seen_expressions :=
                <[new_expr := node_id new_node]> (seen_expressions g);
              queue := queue g ++ [new_node]; draws := S (draws g) |}, true)
      | Raise _ =>
          ({| expression := expression g; nodes := nodes g;
              edges := edges g; root_id := root_id g;
              max_nodes := max_nodes g; truncated := truncated g;
              seen_expressions := seen_expressions g;
              queue := queue g; draws := S (draws g) |}, false)
      end
  end.

(** The same-operator fast path: [Some g'] when the [try] block ran to its
    [continue], [None] (with the graph as the failed attempt left it) when
    it raised and control falls through to the normal processing. *)
Definition fast_path `{FloatModel} (uuid4 : nat → string)
    (g : ExpressionGraph2) (current_node : Node) (operator : string)
    : option ExpressionGraph2 * ExpressionGraph2 :=
  match compute_same_operator_result (node_tokens current_node) operator with
  | Ok result =>
      let '(g', ok) :=
        record_state uuid4 g (node_id current_node) [result] "evaluate"
          ("Compute all '" +:+ operator +:+ "' operations") in
      if ok then (Some g', g') else (None, g')
  | Raise _ => (None, g)
  end.

(** The [for action in actions] loop. *)
Definition expand_actions `{FloatModel} (uuid4 : nat → string)
    (g : ExpressionGraph2) (current_node : Node)
    (actions : list graph_action) : ExpressionGraph2 :=
  fold_left
    (λ g action,
       (record_state uuid4 g (node_id current_node)
          (ga_result_tokens action) (ga_type action)
          (ga_description action)).1)
    actions g.

(** [if self.max_nodes and len(self.nodes) >= self.max_nodes] *)
Definition limit_reached `{FloatModel} (g : ExpressionGraph2) : bool :=
  match max_nodes g with
  | Some n => negb (n =? 0)%Z && (n <=? Z.of_nat (size (nodes g)))%Z
  | None => false
  end.

(** The [while queue] loop of [_build_graph].  [None]: the fuel ran out. *)
Fixpoint build_loop `{FloatModel} (fuel : nat) (uuid4 : nat → string)
    (g : ExpressionGraph2) : option (outcome ExpressionGraph2) :=
  match fuel with
  | 0 => None
  | S fuel' =>
      match queue g with
      | [] => Some (Ok g)
      | current_node :: queue' =>
          if limit_reached g then Some (Ok (with_truncated g))
          else
            let g := with_queue g queue' in
            if node_is_final current_node then build_loop fuel' uuid4 g
            else
              let '(is_same_op, operator) :=
                is_same_operator_expression (node_tokens current_node) in
              let '(done, g) :=
                match is_same_op, operator with
                | true, Some op =>
                    if bool_decide (op = "") then (None, g)
                    else fast_path uuid4 g current_node op
                | _, _ => (None, g)
                end in
              match done with
              | Some g' => build_loop fuel' uuid4 g'
              | None =>
                  match find_all_actions (node_tokens current_node) with
                  | Ok actions =>
                      build_loop fuel' uuid4
                        (expand_actions uuid4 g current_node actions)
                  | Raise e => Some (Raise e)
                  end
              end
      end
  end.

(** [ExpressionGraph2.__init__] followed by [_build_graph]. *)
Definition build_graph `{FloatModel} (fuel : nat) (uuid4 : nat → string)
    (expr : string) (max_nodes : option Z)
    : option (outcome ExpressionGraph2) :=
  match
    tokens ← tokenize expr;
    _ ← validate_tokens tokens;
    Node_init (uuid4 0) tokens None
  with
  | Raise e => Some (Raise e)
  | Ok root =>
      build_loop fuel uuid4
        {| expression := expr;
           nodes := <[node_id root := root]> ∅;
           edges := [];
           root_id := node_id root;
           max_nodes := max_nodes;
           truncated := false;
           seen_expressions := <[node_expression root := node_id root]> ∅;
           queue := [root];
           draws := 1 |}
  end.

(** A sample identifier source for running examples: the [k]-th draw is
    the eight-digit rendering of [k]. *)
Definition sample_uuid4 (k : nat) : string :=
  let s := str_of_nat k in
  String.string_of_list_ascii (replicate (8 - String.length s) "0"%char)
    +:+ s.

(** What is observed of a finished build: how many nodes the dictionary
    [nodes] holds, the flag [truncated], and the expressions still queued. *)
Definition build_summary `{FloatModel}
    (r : option (outcome ExpressionGraph2))
    : option (outcome (nat * bool * list string)) :=
  match r with
  | Some (Ok g) =>
      Some (Ok (size (nodes g), truncated g, map node_expression (queue g)))
  | Some (Raise e) => Some (Raise e)
  | None => None
  end.

(** The root of a finished build: its id and the expression and id of the
    node stored under it. *)
Definition build_root `{FloatModel} (r : option (outcome ExpressionGraph2))
    : option (string * option (string * string)) :=
  match r with
  | Some (Ok g) =>
      Some (root_id g,
            match nodes g !! root_id g with
            | Some n => Some (node_expression n, node_id n)
            | None => None
            end)
  | _ => None
  end.

(** Two predicates on a graph under construction, for a given source of
    identifiers.  [ids_consistent]: every node is stored under its own id,
    an id that was drawn, and is recorded under its own expression string;
    and every recorded string leads to the node that carries it.
    [distinct_draws d]: the first [d] identifiers drawn are pairwise
    different. *)
Definition ids_consistent `{FloatModel} (uuid4 : nat → string)
    (g : ExpressionGraph2) : Prop :=
  (∀ id n, nodes g !! id = Some n →
           node_id n = id
           ∧ seen_expressions g !! node_expression n = Some id
           ∧ ∃ k, k < draws g ∧ id = uuid4 k)
  ∧ (∀ e id, seen_expressions g !! e = Some id →
             ∃ n, nodes g !! id = Some n ∧ node_expression n = e).

Definition distinct_draws (uuid4 : nat → string) (d : nat) : Prop :=
  ∀ i j, i < d → j < d → uuid4 i = uuid4 j → i = j.

(** ** [policies.py] *)

Definition PRECEDENCE_BODMAS : gmap string Z :=
  <["+" := 1%Z]> (<["-" := 1%Z]> (<["*" := 2%Z]> (<["/" := 2%Z]>
    (<["^" := 3%Z]> ∅)))).

Definition PRECEDENCE_ADDITION_FIRST : gmap string Z :=
  <["+" := 3%Z]> (<["-" := 3%Z]> (<["*" := 1%Z]> (<["/" := 1%Z]>
    (<["^" := 2%Z]> ∅)))).

Definition PRECEDENCE_MULTIPLICATION_FIRST : gmap string Z :=
  <["*" := 3%Z]> (<["/" := 2%Z]> (<["+" := 1%Z]> (<["-" := 1%Z]>
    (<["^" := 2%Z]> ∅)))).

Definition PRECEDENCE_FLAT : gmap string Z :=
  <["+" := 1%Z]> (<["-" := 1%Z]> (<["*" := 1%Z]> (<["/" := 1%Z]>
    (<["^" := 1%Z]> ∅)))).

Definition PRECEDENCE_MAPS : gmap string (gmap string Z) :=
  <["bodmas" := PRECEDENCE_BODMAS]>
    (<["addition_first" := PRECEDENCE_ADDITION_FIRST]>
       (<["multiplication_first" := PRECEDENCE_MULTIPLICATION_FIRST]>
          (<["flat" := PRECEDENCE_FLAT]> ∅))).

(** [list(PRECEDENCE_MAPS.keys())], in the order of the dictionary. *)
Definition PRECEDENCE_NAMES : list string :=
  ["bodmas"; "addition_first"; "multiplication_first"; "flat"].

(** The dataclass [Action]; [None] for an attribute left at [None]. *)
Record Action := {
  action_type : string;
  operator : option string;
  operator_index : option nat;
  description : string;
}.

(** [Action.__eq__] compares everything but the description. *)
Definition Action_eq (a b : Action) : bool :=
  String.eqb (action_type a) (action_type b)
  && bool_decide (operator a = operator b)
  && bool_decide (operator_index a = operator_index b).

Definition get_actions_by_type (actions : list Action) (ty : string)
    : list Action :=
  filter (λ a, action_type a = ty) actions.

Definition get_evaluate_actions (actions : list Action) : list Action :=
  get_actions_by_type actions "evaluate".

(** [precedence_map or PRECEDENCE_BODMAS]: an empty dict is falsy. *)
Definition prec_or_default (precedence_map : gmap string Z) : gmap string Z :=
  if bool_decide (precedence_map = ∅) then PRECEDENCE_BODMAS
  else precedence_map.

(** [prec_map.get(a.operator, 0)] *)
Definition prec_get (prec_map : gmap string Z) (op : option string) : Z :=
  match op with
  | Some o => default 0%Z (prec_map !! o)
  | None => 0%Z
  end.

(** [max(...)] and [min(...)] over a non-empty sequence. *)
Definition max_of (x : Z) (xs : list Z) : Z := fold_left Z.max xs x.
Definition min_of (x : nat) (xs : list nat) : nat := fold_left Nat.min xs x.
Definition max_of_nat (x : nat) (xs : list nat) : nat :=
  fold_left Nat.max xs x.

(** The registered policy classes. *)
Inductive Policy :=
| HighestPrecedenceFirst
| NoHigherPrecedenceLeft
| NoHigherPrecedenceRight
| LeftmostFirst
| RightmostFirst
| LeftToRightStrict
| RightToLeftStrict
| BracketsFirst
| BracketsOptional
| BracketsIgnored
| PreferEvaluate
| PreferDistribute
| AllowAll.

Definition policy_name (p : Policy) : string :=
  match p with
  | HighestPrecedenceFirst => "highest_precedence_first"
  | NoHigherPrecedenceLeft => "no_higher_prec_left"
  | NoHigherPrecedenceRight => "no_higher_prec_right"
  | LeftmostFirst => "leftmost_first"
  | RightmostFirst => "rightmost_first"
  | LeftToRightStrict => "left_to_right_strict"
  | RightToLeftStrict => "right_to_left_strict"
  | BracketsFirst => "brackets_first"
  | BracketsOptional => "brackets_optional"
  | BracketsIgnored => "brackets_ignored"
  | PreferEvaluate => "prefer_evaluate"
  | PreferDistribute => "prefer_distribute"
  | AllowAll => "allow_all"
  end.

Definition POLICY_REGISTRY : list Policy :=
  [HighestPrecedenceFirst; NoHigherPrecedenceLeft; NoHigherPrecedenceRight;
   LeftmostFirst; RightmostFirst; LeftToRightStrict; RightToLeftStrict;
   BracketsFirst; BracketsOptional; BracketsIgnored;
   PreferEvaluate; PreferDistribute; AllowAll].

Definition get_policy (name : string) : outcome Policy :=
  match find (λ p, String.eqb (policy_name p) name) POLICY_REGISTRY with
  | Some p => Ok p
  | None =>
      Raise (ValueError ("Unknown policy: " +:+ name +:+ ". Available: "
                           +:+ py_repr_list (map policy_name POLICY_REGISTRY)))
  end.

(** The scans of [NoHigherPrecedenceLeft] ([step = -1], bounds swapped in
    the depth count) and [NoHigherPrecedenceRight]: [n] indices from [i];
    [state[i]] raises outside the state. *)
Fixpoint higher_prec_scan (state : list string) (prec_map : gmap string Z)
    (my_prec : Z) (leftwards : bool) (n : nat) (i : Z) (depth : Z)
    : outcome bool :=
  match n with
  | 0 => Ok true
  | S n' =>
      tok ← py_index state i;
      let next := if leftwards then (i - 1)%Z else (i + 1)%Z in
      if tok_in tok OPEN_BRACKETS then
        higher_prec_scan state prec_map my_prec leftwards n' next
          (if leftwards then depth - 1 else depth + 1)%Z
      else if tok_in tok CLOSE_BRACKETS then
        higher_prec_scan state prec_map my_prec leftwards n' next
          (if leftwards then depth + 1 else depth - 1)%Z
      else
        match prec_map !! tok with
        | Some p =>
            if (depth =? 0)%Z && (my_prec <? p)%Z then Ok false
            else higher_prec_scan state prec_map my_prec leftwards n' next
                   depth
        | None =>
            higher_prec_scan state prec_map my_prec leftwards n' next depth
        end
  end.

(** [_is_inside_brackets]: the loop [for i in range(operator_index)]. *)
Fixpoint inside_depth (state : list string) (n : nat) (i : nat) (depth : Z)
    : outcome Z :=
  match n with
  | 0 => Ok depth
  | S n' =>
      tok ← py_index state (Z.of_nat i);
      inside_depth state n' (i + 1)
        (if tok_in tok OPEN_BRACKETS then depth + 1
         else if tok_in tok CLOSE_BRACKETS then depth - 1
         else depth)%Z
  end.

Definition is_inside_brackets (state : list string) (operator_index : nat)
    : outcome bool :=
  depth ← inside_depth state operator_index 0 0%Z;
  Ok (0 <? depth)%Z.

(** [any(a.operator_index is not None and inside(a) for a in actions)],
    stopping at the first hit. *)
Fixpoint any_inside (state : list string) (actions : list Action)
    : outcome bool :=
  match actions with
  | [] => Ok false
  | a :: actions' =>
      match operator_index a with
      | Some idx =>
          b ← is_inside_brackets state idx;
          if (b : bool) then Ok true else any_inside state actions'
      | None => any_inside state actions'
      end
  end.

(** [[a for a in actions if a.operator_index is not None and inside(a)]] *)
Fixpoint filter_inside (state : list string) (actions : list Action)
    : outcome (list Action) :=
  match actions with
  | [] => Ok []
  | a :: actions' =>
      keep ← match operator_index a with
             | Some idx => is_inside_brackets state idx
             | None => Ok false
             end;
      rest ← filter_inside state actions';
      Ok (if (keep : bool) then a :: rest else rest)
  end.

Definition indices_of (actions : list Action) : list nat :=
  omap operator_index actions.

(** [policy.evaluate(state, action, available_actions, precedence_map)] *)
Definition policy_evaluate (p : Policy) (state : list string)
    (action : Action) (available_actions : list Action)
    (precedence_map : gmap string Z) : outcome bool :=
  let is_type ty := String.eqb (action_type action) ty in
  match p with
  | HighestPrecedenceFirst =>
      if negb (is_type "evaluate") then Ok true
      else
        let prec_map := prec_or_default precedence_map in
        match get_evaluate_actions available_actions with
        | [] => Ok true
        | a :: eval_actions =>
            let max_prec :=
              max_of (prec_get prec_map (operator a))
                (map (λ a, prec_get prec_map (operator a)) eval_actions) in
            Ok (prec_get prec_map (operator action) =? max_prec)%Z
        end
  | NoHigherPrecedenceLeft =>
      if negb (is_type "evaluate") then Ok true
      else match operator_index action with
           | None => Ok true
           | Some idx =>
               let prec_map := prec_or_default precedence_map in
               let my_prec := prec_get prec_map (operator action) in
               higher_prec_scan state prec_map my_prec true idx
                 (Z.of_nat idx - 1) 0
           end
  | NoHigherPrecedenceRight =>
      if negb (is_type "evaluate") then Ok true
      else match operator_index action with
           | None => Ok true
           | Some idx =>
               let prec_map := prec_or_default precedence_map in
               let my_prec := prec_get prec_map (operator action) in
               higher_prec_scan state prec_map my_prec false
                 (length state - (idx + 1)) (Z.of_nat idx + 1) 0
           end
  | LeftmostFirst | RightmostFirst =>
      if negb (is_type "evaluate") then Ok true
      else match operator_index action with
           | None => Ok true
           | Some idx =>
               let prec_map := prec_or_default precedence_map in
               let my_prec := prec_get prec_map (operator action) in
               let same_prec_actions :=
                 filter (λ a, prec_get prec_map (operator a) = my_prec
                              ∧ operator_index a ≠ None)
                   (get_evaluate_actions available_actions) in
               match indices_of same_prec_actions with
               | [] => Ok true
               | i :: others =>
                   Ok (idx =? match p with
                              | LeftmostFirst => min_of i others
                              | _ => max_of_nat i others
                              end)
               end
           end
  | LeftToRightStrict | RightToLeftStrict =>
      if negb (is_type "evaluate") then Ok true
      else match operator_index action with
           | None => Ok true
           | Some idx =>
               match indices_of (get_evaluate_actions available_actions) with
               | [] => Ok true
               | i :: others =>
                   Ok (idx =? match p with
                              | LeftToRightStrict => min_of i others
                              | _ => max_of_nat i others
                              end)
               end
           end
  | BracketsFirst =>
      if is_type "drop_brackets" then Ok false
      else if is_type "distribute" then
        has_inside ← any_inside state (get_evaluate_actions available_actions);
        Ok (negb has_inside)
      else if is_type "evaluate" then
        match operator_index action with
        | None => Ok true
        | Some idx =>
            inside_bracket_actions ←
              filter_inside state (get_evaluate_actions available_actions);
            match inside_bracket_actions with
            | _ :: _ => is_inside_brackets state idx
            | [] => Ok true
            end
        end
      else Ok true
  | BracketsOptional => Ok (negb (is_type "drop_brackets"))
  | BracketsIgnored =>
      if is_type "distribute" then Ok false
      else if is_type "drop_brackets" then Ok true
      else if is_type "evaluate" then
        match operator_index action with
        | None => Ok true
        | Some idx =>
            b ← is_inside_brackets state idx;
            Ok (negb b)
        end
      else Ok true
  | PreferEvaluate =>
      let has_evaluate :=
        existsb (λ a, String.eqb (action_type a) "evaluate")
          available_actions in
      Ok (negb (has_evaluate && is_type "distribute"))
  | PreferDistribute =>
      let has_distribute :=
        existsb (λ a, String.eqb (action_type a) "distribute")
          available_actions in
      Ok (negb (has_distribute && is_type "evaluate"))
  | AllowAll => Ok true
  end.

(** ** [learner.py] *)

Record Learner := {
  name : string;
  policy_names : list string;
  learner_description : string;
  policies : list Policy;
  precedence_map : gmap string Z;
  precedence_name : string;
}.

(** [[get_policy(pn) for pn in policy_names]] *)
Fixpoint get_policies (policy_names : list string) : outcome (list Policy) :=
  match policy_names with
  | [] => Ok []
  | pn :: pns =>
      p ← get_policy pn;
      ps ← get_policies pns;
      Ok (p :: ps)
  end.

(** [Learner.__init__] as [create_learner] calls it: with a
    [precedence_name] and no custom [precedence_map]. *)
Definition Learner_init (name : string) (policy_names : list string)
    (precedence_name : string) (description : string) : outcome Learner :=
  policies ← get_policies policy_names;
  match PRECEDENCE_MAPS !! precedence_name with
  | None =>
      Raise (ValueError ("Unknown precedence: " +:+ precedence_name
                           +:+ ". Available: "
                           +:+ py_repr_list PRECEDENCE_NAMES))
  | Some pm =>
      Ok {| name := name; policy_names := policy_names;
            learner_description := description; policies := policies;
            precedence_map := pm; precedence_name := precedence_name |}
  end.

(** [all(policy.evaluate(...) for policy in self.policies)] *)
Fixpoint all_policies (ps : list Policy) (state : list string)
    (action : Action) (available_actions : list Action)
    (precedence_map : gmap string Z) : outcome bool :=
  match ps with
  | [] => Ok true
  | p :: ps' =>
      b ← policy_evaluate p state action available_actions precedence_map;
      if (b : bool)
      then all_policies ps' state action available_actions precedence_map
      else Ok false
  end.

Definition is_valid (l : Learner) (state : list string) (action : Action)
    (available_actions : list Action) : outcome bool :=
  all_policies (policies l) state action available_actions (precedence_map l).

(** The list comprehension of [Learner.valid_actions], over [rest]. *)
Fixpoint valid_actions_from (l : Learner) (state : list string)
    (available_actions rest : list Action) : outcome (list Action) :=
  match rest with
  | [] => Ok []
  | action :: rest' =>
      b ← is_valid l state action available_actions;
      vs ← valid_actions_from l state available_actions rest';
      Ok (if (b : bool) then action :: vs else vs)
  end.

Definition valid_actions (l : Learner) (state : list string)
    (available_actions : list Action) : outcome (list Action) :=
  valid_actions_from l state available_actions available_actions.

(** [LEARNER_PROFILES]: name, precedence, policies, description. *)
Definition LEARNER_PROFILES
    : list (string * (string * list string * string)) :=
  [("expert",
    ("bodmas",
     ["highest_precedence_first"; "leftmost_first"; "brackets_first";
      "prefer_evaluate"],
     "Expert learner - follows BODMAS correctly with brackets"));
   ("bodmas_correct",
    ("bodmas",
     ["highest_precedence_first"; "leftmost_first"; "brackets_optional"],
     "Knows BODMAS precedence and left-to-right rule"));
   ("addition_first",
    ("addition_first",
     ["highest_precedence_first"; "leftmost_first"; "brackets_first"],
     "Believes addition comes before multiplication (wrong!)"));
   ("multiplication_first",
    ("multiplication_first",
     ["highest_precedence_first"; "leftmost_first"; "brackets_optional";
      "prefer_evaluate"],
     "Knows multiplication is special, but incomplete knowledge"));
   ("left_to_right_only",
    ("flat", ["left_to_right_strict"; "brackets_optional"],
     "Evaluates strictly left-to-right, ignoring precedence"));
   ("right_to_left",
    ("flat", ["right_to_left_strict"; "brackets_optional"],
     "Evaluates right-to-left, ignoring precedence (wrong!)"));
   ("novice",
    ("flat", ["allow_all"],
     "No knowledge - any action is considered valid"));
   ("bracket_ignorer",
    ("flat", ["left_to_right_strict"; "brackets_ignored"],
     "Ignores brackets completely, may drop them incorrectly"));
   ("distributor",
    ("bodmas",
     ["highest_precedence_first"; "leftmost_first"; "brackets_optional";
      "prefer_distribute"],
     "Knows BODMAS but prefers to distribute brackets"));
   ("bodmas_wrong_direction",
    ("bodmas",
     ["highest_precedence_first"; "rightmost_first"; "brackets_first"],
     "Knows BODMAS precedence but goes right-to-left (wrong!)"))].

Definition create_learner (profile_name : string) : outcome Learner :=
  match find (λ p, String.eqb p.1 profile_name) LEARNER_PROFILES with
  | None =>
      Raise (ValueError ("Unknown profile: " +:+ profile_name
                           +:+ ". Available: "
                           +:+ py_repr_list (map fst LEARNER_PROFILES)))
  | Some (_, (precedence, policies, description)) =>
      Learner_init profile_name policies precedence description
  end.

(** ** [learner_integration.py] *)

(** [any(t in ['+', '-'] for t in inner_tokens)] *)
Definition has_additive_ops (inner_tokens : list string) : bool :=
  existsb (λ t, tok_in t ["+"; "-"]) inner_tokens.

Definition extract_actions_from_tokens (tokens : list string)
    : outcome (list Action) :=
  operations ← find_evaluatable_operations tokens;
  evaluates ←
    (fix go (ops : list (nat * string)) : outcome (list Action) :=
       match ops with
       | [] => Ok []
       | (op_index, operator) :: ops' =>
           left_tok ← py_index tokens (Z.of_nat op_index - 1);
           right_tok ← py_index tokens (Z.of_nat op_index + 1);
           rest ← go ops';
           Ok ({| action_type := "evaluate"; operator := Some operator;
                  operator_index := Some op_index;
                  description := "Compute " +:+ left_tok +:+ " " +:+ operator
                                   +:+ " " +:+ right_tok |} :: rest)
       end) operations;
  let distributable := find_distributable_brackets tokens true in
  let distributes :=
    flat_map
      (λ dist,
         let inner_tokens :=
           get_bracket_content tokens (dist_bracket_start dist)
             (dist_bracket_end dist) in
         if has_additive_ops inner_tokens then
           [{| action_type := "distribute";
               operator := Some (dist_operator dist);
               operator_index := Some (dist_op_index dist);
               description :=
                 "Distribute (" +:+ join inner_tokens +:+ ") "
                   +:+ dist_operator dist +:+ " "
                   +:+ join (dist_operand dist) |}]
         else [])
      distributable in
  let bracket_groups := find_bracket_groups tokens false in
  let drops :=
    map (λ g : nat * nat,
           {| action_type := "drop_brackets"; operator := None;
              operator_index := Some g.1;
              description :=
                "Drop brackets: ("
                  +:+ join (get_bracket_content tokens g.1 g.2) +:+ ")" |})
      bracket_groups in
  Ok (evaluates ++ distributes ++ drops).

(** The [for dist in distributable] loop of [_execute_action]; a raise is
    left to the enclosing [try]. *)
Fixpoint execute_distribute (tokens : list string) (idx : option nat)
    (distributable : list distributable) : outcome (option (list string)) :=
  match distributable with
  | [] => Ok None
  | dist :: rest =>
      if bool_decide (Some (dist_op_index dist) = idx) then
        result ← distribute_bracket tokens (dist_bracket_start dist)
                   (dist_bracket_end dist) (dist_op_side dist)
                   (dist_op_index dist) (dist_operand dist);
        match result with
        | Some ((_ :: _) as r) => Ok (Some (simplify_brackets r))
        | _ => execute_distribute tokens idx rest
        end
      else execute_distribute tokens idx rest
  end.

(** [LearnerGraphWalker._execute_action]: [None] is the Python [None],
    returned also when anything raises inside the [try]. *)
Definition execute_action `{FloatModel} (tokens : list string)
    (action : Action) : option (list string) :=
  if String.eqb (action_type action) "evaluate" then
    match operator_index action, operator action with
    | Some idx, Some op =>
        match perform_operation tokens idx op with
        | Ok r => Some r
        | Raise _ => None
        end
    | _, _ => None
    end
  else if String.eqb (action_type action) "distribute" then
    match execute_distribute tokens (operator_index action)
            (find_distributable_brackets tokens true) with
    | Ok r => r
    | Raise _ => None
    end
  else if String.eqb (action_type action) "drop_brackets" then
    match find (λ g : nat * nat, bool_decide (Some g.1 = operator_index action))
            (find_bracket_groups tokens false) with
    | Some g => Some (simplify_brackets (drop_brackets tokens g.1 g.2))
    | None => None
    end
  else None.

(** A step dictionary of [walk_deterministic].  The keys [is_final] and
    [result] exist only in the closing step: [None] is an absent key. *)
Record step `{FloatModel} := {
  step_state : string;
  step_tokens : list string;
  step_all_actions : list Action;
  step_valid_actions : list Action;
  step_chosen_action : option Action;
  step_is_final : option bool;
  step_result : option pyfloat;
}.

(** The [while len(tokens) > 1] loop.  It yields the final value of the
    variable [tokens] ([None] after a failed [_execute_action]) and the
    steps recorded.  Outer [None]: the fuel ran out. *)
Fixpoint walk_loop `{FloatModel} (fuel : nat) (learner : Learner)
    (tokens : list string) (steps : list step)
    : option (outcome (option (list string) * list step)) :=
  match fuel with
  | 0 => None
  | S fuel' =>
      if negb (1 <? length tokens) then Some (Ok (Some tokens, steps))
      else
        match extract_actions_from_tokens tokens with
        | Raise e => Some (Raise e)
        | Ok [] => Some (Ok (Some tokens, steps))
        | Ok all_actions =>
            match valid_actions learner tokens all_actions with
            | Raise e => Some (Raise e)
            | Ok valid =>
                let st :=
                  {| step_state := join tokens; step_tokens := tokens;
                     step_all_actions := all_actions;
                     step_valid_actions := valid;
                     step_chosen_action := head valid;
                     step_is_final := None; step_result := None |} in
                let steps := steps ++ [st] in
                match valid with
                | [] => Some (Ok (Some tokens, steps))
                | chosen :: _ =>
                    match execute_action tokens chosen with
                    | None => Some (Ok (None, steps))
                    | Some tokens' => walk_loop fuel' learner tokens' steps
                    end
                end
            end
        end
  end.

(** [LearnerGraphWalker.walk_deterministic] for a walker whose attributes
    are [expression] and [learner].  After the loop, [len(tokens)] raises
    [TypeError] when [tokens] is [None]. *)
Definition walk_deterministic `{FloatModel} (fuel : nat) (expression : string)
    (learner : Learner) : option (outcome (list step)) :=
  match tokenize expression with
  | Raise e => Some (Raise e)
  | Ok tokens =>
      match walk_loop fuel learner tokens [] with
      | None => None
      | Some (Raise e) => Some (Raise e)
      | Some (Ok (None, _)) => Some (Raise TypeError)
      | Some (Ok (Some tokens, steps)) =>
          if length tokens =? 1 then
            Some (t ← py_index tokens 0;
                  x ← float_of_str t;
                  Ok (steps ++ [{| step_state := join tokens;
                                   step_tokens := tokens;
                                   step_all_actions := [];
                                   step_valid_actions := [];
                                   step_chosen_action := None;
                                   step_is_final := Some true;
                                   step_result := Some x |}]))
          else Some (Ok steps)
      end
  end.

(** What a step dictionary shows of a walk: its state, the action chosen,
    and the keys [is_final] and [result]. *)
Definition step_summary `{FloatModel} (st : step)
    : string * option Action * option bool * option pyfloat :=
  (step_state st, step_chosen_action st, step_is_final st, step_result st).

(** The summaries of the steps a walk returns. *)
Definition walk_summary `{FloatModel} (r : option (outcome (list step)))
    : option (outcome (list (string * option Action * option bool
                             * option pyfloat))) :=
  match r with
  | Some (Ok steps) => Some (Ok (map step_summary steps))
  | Some (Raise e) => Some (Raise e)
  | None => None
  end.

(** The same for the state in which the loop of a walk ends: the final
    value of [tokens], and for each recorded step its summary and its valid
    actions. *)
Definition walk_loop_summary `{FloatModel}
    (r : option (outcome (option (list string) * list step)))
    : option (outcome (option (list string)
                       * list (string * option Action * option bool
                               * option pyfloat * list Action))) :=
  match r with
  | Some (Ok (tokens, steps)) =>
      Some (Ok (tokens,
                map (λ st, (step_summary st, step_valid_actions st)) steps))
  | Some (Raise e) => Some (Raise e)
  | None => None
  end.

(** ** List objects: the rewrite executors on a store

    Python lists are mutable objects handled by reference.  To speak about
    what an executor does to the list it is given, the executors are
    written a second time over a store of list objects, one store
    operation per list-valued expression of the source: a slice, a
    concatenation or a list display allocates a new object, [append] and
    [extend] update an object in place, and rebinding a variable changes
    which object it names.  A reference is the position of the object in
    the store; allocation extends the store at its end. *)

Definition loc := nat.
Definition heap := list (list string).

Definition heapM (A : Type) : Type := heap → outcome A * heap.

#[global] Instance heapM_ret : MRet heapM := λ A a h, (Ok a, h).
#[global] Instance heapM_bind : MBind heapM := λ A B f m h,
  match m h with
  | (Ok a, h') => f a h'
  | (Raise e, h') => (Raise e, h')
  end.

(** Running a computation that does not touch the store. *)
Definition lift {A} (r : outcome A) : heapM A := λ h, (r, h).

(** A new list object. *)
Definition new_list (v : list string) : heapM loc :=
  λ h, (Ok (length h), h ++ [v]).

(** The current value of a list object. *)
Definition contents (l : loc) : heapM (list string) :=
  λ h, match h !! l with
       | Some v => (Ok v, h)
       | None => (Raise TypeError, h)
       end.

(** [l.append(x)] and [l.extend(src)]: in place. *)
Definition list_append (l : loc) (x : string) : heapM () :=
  λ h, match h !! l with
       | Some v => (Ok (), <[l := v ++ [x]]> h)
       | None => (Raise TypeError, h)
       end.

Definition list_extend (l src : loc) : heapM () :=
  λ h, match h !! l, h !! src with
       | Some v, Some w => (Ok (), <[l := v ++ w]> h)
       | _, _ => (Raise TypeError, h)
       end.

(** [l[i:j]], [l[:j]], [l[i:]] with non-negative bounds, [l[:j]] with any
    bound, [a + b], [l[i]]. *)
Definition obj_slice (l : loc) (i j : nat) : heapM loc :=
  v ← contents l; new_list (drop i (take j v)).
Definition obj_slice_to (l : loc) (j : nat) : heapM loc :=
  v ← contents l; new_list (take j v).
Definition obj_slice_to_Z (l : loc) (j : Z) : heapM loc :=
  v ← contents l; new_list (py_slice_to v j).
Definition obj_slice_from (l : loc) (i : nat) : heapM loc :=
  v ← contents l; new_list (drop i v).
Definition obj_concat (a b : loc) : heapM loc :=
  v ← contents a; w ← contents b; new_list (v ++ w).
Definition obj_index (l : loc) (i : Z) : heapM string :=
  v ← contents l; lift (py_index v i).

(** [drop_brackets] *)
Definition drop_brackets_obj (tokens : loc) (bracket_start bracket_end : nat)
    : heapM loc :=
  inner ← obj_slice tokens (bracket_start + 1) bracket_end;
  a ← obj_slice_to tokens bracket_start;
  b ← obj_concat a inner;
  c ← obj_slice_from tokens (bracket_end + 1);
  obj_concat b c.

(** [simplify_brackets]: the variable [tokens] is rebound at every
    collapse and returned at the end. *)
Fixpoint simplify_scan_obj (fuel : nat) (tokens : loc) (i : nat)
    (changed : bool) : heapM (loc * bool) :=
  match fuel with
  | 0 => mret (tokens, changed)
  | S fuel' =>
      v ← contents tokens;
      if i + 2 <? length v then
        if collapsible v i then
          a ← obj_slice_to tokens i;
          x ← obj_index tokens (Z.of_nat (i + 1));
          m ← new_list [x];
          b ← obj_concat a m;
          c ← obj_slice_from tokens (i + 3);
          tokens' ← obj_concat b c;
          simplify_scan_obj fuel' tokens' i true
        else simplify_scan_obj fuel' tokens (i + 1) changed
      else mret (tokens, changed)
  end.

Fixpoint simplify_loop_obj (fuel : nat) (tokens : loc) : heapM loc :=
  match fuel with
  | 0 => mret tokens
  | S fuel' =>
      v ← contents tokens;
      r ← simplify_scan_obj (length v) tokens 0 false;
      if (r.2 : bool) then simplify_loop_obj fuel' r.1 else mret r.1
  end.

Definition simplify_brackets_obj (tokens : loc) : heapM loc :=
  v ← contents tokens;
  simplify_loop_obj (S (length v)) tokens.

(** [perform_operation] *)
Definition perform_operation_obj `{FloatModel} (tokens : loc)
    (op_index : nat) (operator : string) : heapM loc :=
  lt ← obj_index tokens (Z.of_nat op_index - 1);
  left ← lift (float_of_str lt);
  rt ← obj_index tokens (Z.of_nat op_index + 1);
  right ← lift (float_of_str rt);
  result ← lift (apply_operator operator left right);
  result_str ← lift (format_result result);
  a ← obj_slice_to_Z tokens (Z.of_nat op_index - 1);
  m ← new_list [result_str];
  b ← obj_concat a m;
  c ← obj_slice_from tokens (op_index + 2);
  new_tokens ← obj_concat b c;
  simplify_brackets_obj new_tokens.

(** [parse_bracket_terms] builds every term in a list object of its own;
    here each term is allocated once, already complete. *)
Fixpoint new_terms (terms : list (string * list string))
    : heapM (list (string * loc)) :=
  match terms with
  | [] => mret []
  | (sign, term) :: terms' =>
      l ← new_list term;
      ls ← new_terms terms';
      mret ((sign, l) :: ls)
  end.

(** [distributed_inner.extend(term_tokens)], or the same with the term
    wrapped in a fresh bracketed list. *)
Definition extend_wrapped (distributed_inner term_tokens : loc) : heapM () :=
  v ← contents term_tokens;
  if (1 <? length v)
     || match v with t :: _ => tok_in t OPEN_BRACKETS | [] => false end
  then
    o ← new_list ["("];
    a ← obj_concat o term_tokens;
    c ← new_list [")"];
    w ← obj_concat a c;
    list_extend distributed_inner w
  else list_extend distributed_inner term_tokens.

(** The loop over [enumerate(terms)] of [distribute_bracket], appending to
    the object [distributed_inner]. *)
Fixpoint distribute_terms_obj (op_side outer_operator : string)
    (outer_operand : loc) (terms : list (string * loc)) (i : nat)
    (distributed_inner : loc) : heapM () :=
  match terms with
  | [] => mret ()
  | (sign, term_tokens) :: terms' =>
      _ ← (if 0 <? i then list_append distributed_inner sign else mret ());
      term_tokens ←
        (if negb (0 <? i) && String.eqb sign "-" then
           v ← contents term_tokens;
           match v with
           | t :: _ =>
               if negb (tok_in t ["+"; "-"]) then
                 m ← new_list ["-"];
                 obj_concat m term_tokens
               else mret term_tokens
           | [] => mret term_tokens
           end
         else mret term_tokens);
      _ ← (if String.eqb op_side "right" then
             _ ← extend_wrapped distributed_inner term_tokens;
             _ ← list_append distributed_inner outer_operator;
             list_extend distributed_inner outer_operand
           else
             _ ← list_extend distributed_inner outer_operand;
             _ ← list_append distributed_inner outer_operator;
             extend_wrapped distributed_inner term_tokens);
      distribute_terms_obj op_side outer_operator outer_operand terms'
        (i + 1) distributed_inner
  end.

(** [distribute_bracket]; both [tokens] and [outer_operand] are objects of
    the caller. *)
Definition distribute_bracket_obj (tokens : loc)
    (bracket_start bracket_end : nat) (op_side : string) (op_index : nat)
    (outer_operand : loc) : heapM (option loc) :=
  inner_tokens ← obj_slice tokens (bracket_start + 1) bracket_end;
  outer_operator ← obj_index tokens (Z.of_nat op_index);
  inner ← contents inner_tokens;
  terms ← new_terms (parse_bracket_terms inner false);
  if length terms <=? 1 then mret None
  else
    distributed_inner ← new_list [];
    _ ← distribute_terms_obj op_side outer_operator outer_operand terms 0
          distributed_inner;
    o ← new_list ["("];
    a ← obj_concat o distributed_inner;
    c ← new_list [")"];
    distributed ← obj_concat a c;
    v ← contents tokens;
    if String.eqb op_side "right" then
      before ← obj_slice_to tokens bracket_start;
      let after_operand_idx := op_index + 1 in
      t ← obj_index tokens (Z.of_nat after_operand_idx);
      after ←
        (if tok_in t OPEN_BRACKETS then
           obj_slice_from tokens
             (scan_forward (length v) v (after_operand_idx + 1) 1)
         else obj_slice_from tokens (after_operand_idx + 1));
      b ← obj_concat before distributed;
      result ← obj_concat b after;
      mret (Some result)
    else
      let before_operand_idx := (Z.of_nat op_index - 1)%Z in
      t ← obj_index tokens before_operand_idx;
      before ←
        (if tok_in t CLOSE_BRACKETS then
           obj_slice_to_Z tokens
             (scan_backward (length v) v (before_operand_idx - 1) 1 + 1)%Z
         else obj_slice_to_Z tokens before_operand_idx);
      after ← obj_slice_from tokens (bracket_end + 1);
      b ← obj_concat before distributed;
      result ← obj_concat b after;
      mret (Some result).

(** ** Reference evaluation for the same-operator fast path

    The fast path is compared with "repeatedly evaluating the leftmost
    operator pair one step at a time with [perform_operation]". *)

(** The first operator token of [rest], with its index; [rest] is
    [tokens[i:]]. *)
Fixpoint leftmost_operator (rest : list string) (i : nat)
    : option (nat * string) :=
  match rest with
  | [] => None
  | t :: rest' =>
      if tok_in t operators then Some (i, t)
      else leftmost_operator rest' (i + 1)
  end.

(** Evaluate the leftmost operator until none is left.  [None]: the fuel
    ran out. *)
Fixpoint evaluate_leftmost `{FloatModel} (fuel : nat) (tokens : list string)
    {struct fuel} : option (outcome (list string)) :=
  match leftmost_operator tokens 0 with
  | None => Some (Ok tokens)
  | Some (i, op) =>
      match fuel with
      | 0 => None
      | S fuel' =>
          match perform_operation tokens i op with
          | Raise e => Some (Raise e)
          | Ok tokens' => evaluate_leftmost fuel' tokens'
          end
      end
  end.

(** The bracket-free sequence [first op x1 op x2 ... op xn]. *)
Definition chain (op first : string) (operands : list string) : list string :=
  first :: flat_map (λ x, [op; x]) operands.

(** What the comparison needs to know about the arithmetic.  [feqv] relates
    floats that the program cannot tell apart (for binary64: equal, or both
    zero, since [-0.0] is rendered as ["0"]).
    - a rendered result reads back as a float equivalent to the original;
    - equivalent floats are rendered alike and behave alike as the left
      operand of an operation;
    - a string that reads as a float is neither a bracket nor an
      operator. *)
Record float_laws `{FloatModel} (feqv : pyfloat → pyfloat → Prop) : Prop := {
  feqv_refl : ∀ x, feqv x x;
  feqv_trans : ∀ x y z, feqv x y → feqv y z → feqv x z;
  format_parse : ∀ x s,
    format_result x = Ok s → ∃ y, float_of_str s = Ok y ∧ feqv y x;
  feqv_format : ∀ x y, feqv x y → format_result x = format_result y;
  feqv_apply : ∀ op x y z, feqv x y →
    match apply_operator op x z, apply_operator op y z with
    | Ok a, Ok b => feqv a b
    | Raise _, Raise _ => True
    | _, _ => False
    end;
  literal_operand : ∀ s x,
    float_of_str s = Ok x → tok_in s (all_brackets ++ operators) = false;
}.

(** What a caller can observe of a call on the store.  [preserves h h']:
    every list object of [h] holds the same value in [h'].
    [preserves_except d h h']: the same, but for the object [d].
    [returns_new h v r]: the call returned normally a list object that did
    not exist in [h], holding [v], and no object of [h] has changed.
    [raises_clean h e r]: the call raised [e] and no object of [h] has
    changed. *)
Definition preserves (h h' : heap) : Prop :=
  ∀ l v, h !! l = Some v → h' !! l = Some v.

Definition preserves_except (d : loc) (h h' : heap) : Prop :=
  ∀ l v, l ≠ d → h !! l = Some v → h' !! l = Some v.

Definition returns_new (h : heap) (v : list string)
    (r : outcome loc * heap) : Prop :=
  ∃ l h', r = (Ok l, h') ∧ length h ≤ l ∧ h' !! l = Some v ∧ preserves h h'.

Definition raises_clean {A} (h : heap) (e : exn) (r : outcome A * heap)
    : Prop :=
  ∃ h', r = (Raise e, h') ∧ preserves h h'.

(** Two predicates on the working state of [_find_all_actions].
    [keys_match st]: the set [seen_results] holds exactly the joined result
    strings of the actions kept so far.
    [evaluate_of tokens a]: the action [a] is the evaluate action that the
    third loop builds from some candidate [(i, op)], and if [op] is [/] the
    right operand of that candidate is not zero. *)
Definition keys_match (st : list graph_action * gset string) : Prop :=
  ∀ k, k ∈ st.2 ↔ ∃ a, a ∈ st.1 ∧ join (ga_result_tokens a) = k.

Definition evaluate_of `{FloatModel} (tokens : list string)
    (a : graph_action) : Prop :=
  ∃ i op lt rt,
    py_index tokens (Z.of_nat i - 1) = Ok lt
    ∧ py_index tokens (Z.of_nat i + 1) = Ok rt
    ∧ ga_description a = "Compute " +:+ lt +:+ " " +:+ op +:+ " " +:+ rt
    ∧ perform_operation tokens i op = Ok (ga_result_tokens a)
    ∧ (op = "/" → ∀ x, float_of_str rt = Ok x → feq0 x = false).

(** ** Well-formed token sequences

    The shape that [validate_tokens] checks for and that the rewrites keep:
    an operator or an opening bracket is directly followed by a token that
    can start an operand (an operand itself or an opening bracket), and the
    sequence starts with such a token.  [follows_ok tokens b] checks the
    first condition, [b] telling whether the token after the last one can
    start an operand. *)
Definition needs_operand (t : string) : bool :=
  tok_in t operators || tok_in t OPEN_BRACKETS.

Definition starts_operand (t : string) : bool :=
  negb (tok_in t operators || tok_in t CLOSE_BRACKETS).

Fixpoint follows_ok (tokens : list string) (b : bool) : bool :=
  match tokens with
  | [] => true
  | t :: tokens' =>
      (negb (needs_operand t)
       || match tokens' with
          | next :: _ => starts_operand next
          | [] => b
          end)
      && follows_ok tokens' b
  end.

Definition well_formed (tokens : list string) : bool :=
  match tokens with
  | t :: _ => starts_operand t && follows_ok tokens false
  | [] => false
  end.

(** What the results need of the arithmetic: a formatted number is never
    one of the bracket or operator tokens. *)
Definition formats_literals `{FloatModel} : Prop :=
  ∀ x s, format_result x = Ok s → tok_in s (all_brackets ++ operators) = false.

(** Every state waiting in the queue of a build is well-formed. *)
Definition queue_well_formed `{FloatModel} (g : ExpressionGraph2) : Prop :=
  Forall (λ n, well_formed (node_tokens n) = true) (queue g).

(** No token that [tokenize] emits is a square or curly bracket. *)
Definition round_only (t : string) : Prop :=
  tok_in t ["["; "]"; "{"; "}"] = false.

(** [grows uuid4 g g']: from [g] to [g'] the ceiling is unchanged, the
    identifiers stay consistent, and every node added to [nodes] was also
    added to the queue. *)
Definition grows `{FloatModel} (uuid4 : nat → string)
    (g g' : ExpressionGraph2) : Prop :=
  max_nodes g' = max_nodes g
  ∧ ids_consistent uuid4 g'
  ∧ size (nodes g') + length (queue g) = size (nodes g) + length (queue g').

(** The learner that [create_learner] builds from the profile [novice]. *)
Definition novice_learner : Learner :=
  {| name := "novice"; policy_names := ["allow_all"];
     learner_description := "No knowledge - any action is considered valid";
     policies := [AllowAll]; precedence_map := PRECEDENCE_FLAT;
     precedence_name := "flat" |}.

(** * Properties *)

(** ** Bracket canonicalization *)

Lemma tok_in_true t l : tok_in t l = true ↔ t ∈ l.
Proof.
  unfold tok_in. rewrite existsb_exists. split.
  - intros (x & Hx & Heq). apply String.eqb_eq in Heq. subst.
    by apply list_elem_of_In.
  - intros Hin. exists t. split; [by apply list_elem_of_In|apply String.eqb_refl].
Qed.

Lemma collapsible_lookup tokens i :
  collapsible tokens i = true → i + 2 < length tokens.
Proof.
  unfold collapsible. intros H.
  destruct (tokens !! i); [|done].
  destruct (tokens !! (i + 1)); [|done].
  destruct (tokens !! (i + 2)) eqn:E; [|done].
  by apply lookup_lt_Some in E.
Qed.

Lemma collapsible_out_of_range tokens i :
  length tokens ≤ i + 2 → collapsible tokens i = false.
Proof.
  intros Hlen. destruct (collapsible tokens i) eqn:E; [|done].
  apply collapsible_lookup in E. lia.
Qed.

Lemma collapse_at_length tokens i :
  collapsible tokens i = true → length (collapse_at tokens i) + 2 = length tokens.
Proof.
  intros H. pose proof (collapsible_lookup _ _ H) as Hlt.
  unfold collapse_at.
  destruct (tokens !! (i + 1)) eqn:E.
  - rewrite !length_app, length_take, length_drop. simpl. lia.
  - apply lookup_ge_None in E. lia.
Qed.

Lemma simplify_scan_clean fuel tokens i changed :
  (∀ j, i ≤ j → collapsible tokens j = false) →
  simplify_scan fuel tokens i changed = (tokens, changed).
Proof.
  revert i. induction fuel as [|fuel IH]; intros i Hno; simpl; [done|].
  destruct (i + 2 <? length tokens); [|done].
  rewrite Hno by lia. apply IH. intros j Hj. apply Hno. lia.
Qed.

Lemma simplify_scan_spec fuel tokens i changed :
  length tokens ≤ fuel + i →
  let r := simplify_scan fuel tokens i changed in
  (r = (tokens, changed) ∧ ∀ j, i ≤ j → collapsible tokens j = false)
  ∨ (r.2 = true ∧ length r.1 + 2 ≤ length tokens).
Proof.
  revert tokens i changed.
  induction fuel as [|fuel IH]; intros tokens i changed Hfuel; simpl.
  - left. split; [done|]. intros j Hj. apply collapsible_out_of_range. lia.
  - destruct (i + 2 <? length tokens) eqn:Hlt.
    + destruct (collapsible tokens i) eqn:Hc.
      * pose proof (collapse_at_length _ _ Hc) as Hlen.
        right.
        destruct (IH (collapse_at tokens i) i true ltac:(lia)) as [[-> _]|[? ?]];
          simpl; split; auto; lia.
      * destruct (IH tokens (i + 1) changed ltac:(lia)) as [[Heq Hno]|[? ?]].
        -- left. split; [done|]. intros j Hj.
           destruct (decide (j = i)) as [->|]; [done|]. apply Hno. lia.
        -- right. done.
    + left. split; [done|]. intros j Hj. apply collapsible_out_of_range.
      apply Nat.ltb_ge in Hlt. lia.
Qed.

Lemma simplify_loop_no_collapsible fuel tokens :
  length tokens < fuel → no_collapsible (simplify_loop fuel tokens).
Proof.
  revert tokens. induction fuel as [|fuel IH]; intros tokens Hfuel; [lia|].
  simpl.
  destruct (simplify_scan_spec (length tokens) tokens 0 false ltac:(lia))
    as [[Heq Hno]|[Hch Hlen]].
  - rewrite Heq. intros j. apply Hno. lia.
  - destruct (simplify_scan (length tokens) tokens 0 false) as [t' c'].
    simpl in *. subst c'. apply IH. lia.
Qed.

Lemma simplify_loop_fixed fuel tokens :
  no_collapsible tokens → simplify_loop fuel tokens = tokens.
Proof.
  intros Hno. destruct fuel as [|fuel]; [done|]. simpl.
  rewrite simplify_scan_clean; [done|]. intros j _. apply Hno.
Qed.

Lemma no_collapsible_elim (tokens : list string) i (a b c : string) :
  no_collapsible tokens →
  tokens !! i = Some a → tokens !! (i + 1) = Some b → tokens !! (i + 2) = Some c →
  a ∈ OPEN_BRACKETS → BRACKET_PAIRS !! a = Some c →
  b ∈ all_brackets ++ operators.
Proof.
  intros Hno Ha Hb Hc Hopen Hpair.
  specialize (Hno i). unfold collapsible in Hno.
  rewrite Ha, Hb, Hc, Hpair in Hno.
  apply tok_in_true in Hopen. rewrite Hopen, String.eqb_refl in Hno.
  simpl in Hno. rewrite andb_true_r in Hno.
  apply negb_false_iff in Hno. by apply tok_in_true.
Qed.

(** C8. [simplify_brackets] is idempotent, and its output is a fixed point:
    it contains no bracket pair, of any of the three families, whose sole
    content is one operand token (a token that is neither a bracket nor an
    operator). *)
Theorem simplify_brackets_idempotent (t : list string) :
  simplify_brackets (simplify_brackets t) = simplify_brackets t
  ∧ ∀ i (a b c : string),
      simplify_brackets t !! i = Some a →
      simplify_brackets t !! (i + 1) = Some b →
      simplify_brackets t !! (i + 2) = Some c →
      a ∈ OPEN_BRACKETS → BRACKET_PAIRS !! a = Some c →
      b ∈ all_brackets ++ operators.
Proof.
  assert (Hno : no_collapsible (simplify_brackets t)).
  { apply simplify_loop_no_collapsible. lia. }
  split.
  - by apply simplify_loop_fixed.
  - intros i a b c. by apply no_collapsible_elim.
Qed.

(** ** Tokenizer *)

(** C1. The tokenizer accepts round brackets only: on the inputs
    ["{2+3}*5"] and ["[2+3]*5"] it raises [ValueError] at the first curly
    or square bracket instead of producing bracket tokens, while
    ["(2+3)*5"] is tokenized. *)
Theorem tokenize_rejects_curly_and_square :
  tokenize "{2+3}*5"
    = Raise (ValueError "Invalid character in expression: {")
  ∧ tokenize "[2+3]*5"
    = Raise (ValueError "Invalid character in expression: [")
  ∧ tokenize "(2+3)*5" = Ok ["("; "2"; "+"; "3"; ")"; "*"; "5"].
Proof. repeat split; reflexivity. Qed.

(** ** Distribution across a division *)

(** C6, as stated, fails: in ["(2+3)/(4+5)"] the bracket [(2+3)] is the
    dividend and holds two terms, yet no distribute entry is produced,
    because the divisor is itself a bracket group. *)
Lemma dividend_bracket_not_distributed :
  ∃ tokens,
    tokenize "(2+3)/(4+5)" = Ok tokens
    ∧ (0, 4) ∈ find_bracket_groups tokens false
    ∧ tokens !! 5 = Some "/"
    ∧ length (parse_bracket_terms (get_bracket_content tokens 0 4) false) = 2
    ∧ find_distributable_brackets tokens true = []
    ∧ (∀ actions, find_all_actions tokens = Ok actions →
         ∀ a, a ∈ actions → ga_type a ≠ "distribute").
Proof.
  eexists. split; [reflexivity|].
  split; [apply list_elem_of_In; vm_compute; auto|].
  split; [reflexivity|].
  split; [reflexivity|].
  split; [reflexivity|].
  intros actions Hact a Ha. vm_compute in Hact.
  injection Hact as <-.
  repeat (apply elem_of_cons in Ha as [->|Ha]; [discriminate|]).
  by apply elem_of_nil in Ha.
Qed.

Lemma py_index_nat {A} (l : list A) (n : nat) (x : A) :
  l !! n = Some x → py_index l (Z.of_nat n) = Ok x.
Proof.
  intros H. unfold py_index.
  destruct (Z.of_nat n <? 0)%Z eqn:E; [apply Z.ltb_lt in E; lia|].
  rewrite E, Nat2Z.id, H. done.
Qed.

Lemma distributable_right_division (tokens : list string) (s e : nat)
    (d : distributable) :
  d ∈ distributable_right tokens s e → dist_operator d = "/" →
  dist_op_side d = "right" ∧ dist_bracket_start d = s
  ∧ dist_bracket_end d = e ∧ dist_op_index d = e + 1
  ∧ tokens !! (e + 1) = Some "/"
  ∧ ∃ t, tokens !! (e + 2) = Some t ∧ tok_in t OPEN_BRACKETS = false
         ∧ dist_operand d = [t].
Proof.
  unfold distributable_right. intros Hd Hop.
  destruct (tokens !! (e + 1)) as [o|] eqn:Ho; [|by apply elem_of_nil in Hd].
  destruct (tok_in o _); [|by apply elem_of_nil in Hd].
  replace (e + 1 + 1) with (e + 2) in Hd by lia.
  destruct (tokens !! (e + 2)) as [t|] eqn:Ht; [|by apply elem_of_nil in Hd].
  destruct (String.eqb o "/" && tok_in t OPEN_BRACKETS) eqn:Hskip;
    [by apply elem_of_nil in Hd|].
  apply list_elem_of_singleton in Hd. subst d. simpl in *. subst o.
  simpl in Hskip. rewrite Hskip.
  repeat split; try done. by exists t.
Qed.

Lemma distributable_left_no_division (tokens : list string) (s e : nat)
    (d : distributable) :
  d ∈ distributable_left tokens s e → dist_operator d ≠ "/".
Proof.
  unfold distributable_left. intros Hd.
  destruct (0 <? s); [|by apply elem_of_nil in Hd].
  destruct (tokens !! (s - 1)) as [o|]; [|by apply elem_of_nil in Hd].
  destruct (tok_in o _); [|by apply elem_of_nil in Hd].
  destruct (0 <? s - 1); [|by apply elem_of_nil in Hd].
  destruct (tokens !! (s - 1 - 1)) as [t|]; [|by apply elem_of_nil in Hd].
  destruct (String.eqb o "/") eqn:Ho; [by apply elem_of_nil in Hd|].
  apply list_elem_of_singleton in Hd. subst d. simpl.
  by apply String.eqb_neq.
Qed.

(** C6, amended.  A distribute entry whose operator is [/] exists exactly
    for a bracket that is the dividend of a [/] whose divisor is a single
    token, not a bracket group:
    - every entry with operator [/] has its bracket immediately to the left
      of the [/], and its operand is the one token after the [/], which is
      not an opening bracket; no entry is ever produced for a bracket that
      is the divisor, nor for a bracketed divisor;
    - for every bracket group followed by [/] and then by a token that is
      not an opening bracket, that entry is produced, and when the bracket
      holds at least two terms [distribute_bracket] applies to it. *)
Theorem division_distributes_over_dividend_only (tokens : list string)
    (include_nested : bool) :
  (∀ d, d ∈ find_distributable_brackets tokens include_nested →
        dist_operator d = "/" →
        dist_op_side d = "right"
        ∧ dist_op_index d = dist_bracket_end d + 1
        ∧ tokens !! (dist_bracket_end d + 1) = Some "/"
        ∧ ∃ t, tokens !! (dist_bracket_end d + 2) = Some t
               ∧ tok_in t OPEN_BRACKETS = false
               ∧ dist_operand d = [t])
  ∧ (∀ s e t,
       (s, e) ∈ find_bracket_groups tokens (negb include_nested) →
       tokens !! (e + 1) = Some "/" →
       tokens !! (e + 2) = Some t →
       tok_in t OPEN_BRACKETS = false →
       {| dist_bracket_start := s; dist_bracket_end := e;
          dist_op_side := "right"; dist_op_index := e + 1;
          dist_operator := "/"; dist_operand := [t] |}
         ∈ find_distributable_brackets tokens include_nested
       ∧ (2 ≤ length (parse_bracket_terms (get_bracket_content tokens s e)
                        false) →
          ∃ r, distribute_bracket tokens s e "right" (e + 1) [t]
               = Ok (Some r))).
Proof.
  split.
  - intros d Hd Hop. unfold find_distributable_brackets in Hd.
    apply list_elem_of_In, in_flat_map in Hd as ([s e] & _ & Hd).
    apply list_elem_of_In, elem_of_app in Hd as [Hd|Hd].
    + destruct (distributable_right_division _ _ _ _ Hd Hop)
        as (? & ? & -> & ? & ? & ?). done.
    + by apply distributable_left_no_division in Hd.
  - intros s e t Hg Hop Ht Hopen. split.
    + unfold find_distributable_brackets.
      apply list_elem_of_In, in_flat_map. exists (s, e).
      split; [by apply list_elem_of_In|].
      apply list_elem_of_In, elem_of_app. left.
      unfold distributable_right. rewrite Hop.
      change (tok_in "/" ["+"; "-"; "*"; "/"; "^"]) with true. cbv iota.
      replace (e + 1 + 1) with (e + 2) by lia.
      rewrite Ht, Hopen, andb_false_r.
      apply list_elem_of_singleton. done.
    + intros Hterms. unfold distribute_bracket.
      rewrite (py_index_nat _ _ _ Hop). cbn [mbind result_bind].
      destruct (length _ <=? 1) eqn:Hle; [apply Nat.leb_le in Hle; lia|].
      change (String.eqb "right" "right") with true. cbv iota.
      replace (e + 1 + 1) with (e + 2) by lia.
      rewrite (py_index_nat _ _ _ Ht). cbn [mbind result_bind].
      rewrite Hopen. eauto.
Qed.

Lemma division_distributes_over_dividend_only_witness :
  {| dist_bracket_start := 0; dist_bracket_end := 4;
     dist_op_side := "right"; dist_op_index := 5;
     dist_operator := "/"; dist_operand := ["5"] |}
    ∈ find_distributable_brackets ["("; "2"; "+"; "3"; ")"; "/"; "5"] true
  ∧ ∃ r, distribute_bracket ["("; "2"; "+"; "3"; ")"; "/"; "5"] 0 4 "right"
           5 ["5"] = Ok (Some r).
Proof.
  destruct (division_distributes_over_dividend_only
              ["("; "2"; "+"; "3"; ")"; "/"; "5"] true) as [_ H].
  destruct (H 0 4 "5") as [H1 H2].
  - apply list_elem_of_In; vm_compute; auto.
  - reflexivity.
  - reflexivity.
  - reflexivity.
  - split; [exact H1|]. apply H2. vm_compute. lia.
Defined.

(** ** The same-operator fast path *)

(** C4, as stated, fails: ["2"; "3"; "+"; "4"] is bracket-free and holds
    exactly one distinct operator, so the fast path applies and folds it
    to 9, whereas evaluating the leftmost operator pair gives ["2"; "7"],
    where no operator is left and no terminal value is reached.  The
    sequence is reachable: it is what dropping the brackets of ["2(3)+4"],
    an input that [validate_tokens] accepts, produces. *)
Lemma same_operator_fold_differs_from_leftmost :
  ∃ tokens,
    (ts ← tokenize "2(3)+4"; _ ← validate_tokens ts;
     Ok (simplify_brackets (drop_brackets ts 1 3))) = Ok tokens
    ∧ tokens = ["2"; "3"; "+"; "4"]
    ∧ is_same_operator_expression tokens = (true, Some "+")
    ∧ compute_same_operator_result tokens "+" = Ok "9"
    ∧ find_evaluatable_operations tokens = Ok [(2, "+")]
    ∧ perform_operation tokens 2 "+" = Ok ["2"; "7"]
    ∧ evaluate_leftmost 4 tokens = Some (Ok ["2"; "7"]).
Proof. eexists. repeat split; reflexivity. Qed.

(** ** Learners and the deterministic walk *)

(** C7. For the profile [expert] (precedence map [bodmas], policies
    [highest_precedence_first], [leftmost_first], [brackets_first],
    [prefer_evaluate]) on ["2+3*4"]: the valid actions of the initial state
    are exactly the one evaluate action for [*], and the deterministic walk
    ends, after two steps, in a closing step marked final whose result is
    14. *)
Theorem expert_walk_2_plus_3_times_4 :
  ∃ expert,
    create_learner "expert" = Ok expert
    ∧ precedence_name expert = "bodmas"
    ∧ precedence_map expert = PRECEDENCE_BODMAS
    ∧ policy_names expert = ["highest_precedence_first"; "leftmost_first";
                             "brackets_first"; "prefer_evaluate"]
    ∧ tokenize "2+3*4" = Ok ["2"; "+"; "3"; "*"; "4"]
    ∧ extract_actions_from_tokens ["2"; "+"; "3"; "*"; "4"]
      = Ok [{| action_type := "evaluate"; operator := Some "+";
               operator_index := Some 1;
               description := "Compute 2 + 3" |};
            {| action_type := "evaluate"; operator := Some "*";
               operator_index := Some 3;
               description := "Compute 3 * 4" |}]
    ∧ valid_actions expert ["2"; "+"; "3"; "*"; "4"]
        [{| action_type := "evaluate"; operator := Some "+";
            operator_index := Some 1;
            description := "Compute 2 + 3" |};
         {| action_type := "evaluate"; operator := Some "*";
            operator_index := Some 3;
            description := "Compute 3 * 4" |}]
      = Ok [{| action_type := "evaluate"; operator := Some "*";
               operator_index := Some 3;
               description := "Compute 3 * 4" |}]
    ∧ walk_summary (walk_deterministic 3 "2+3*4" expert)
      = Some (Ok [("2+3*4",
                   Some {| action_type := "evaluate"; operator := Some "*";
                           operator_index := Some 3;
                           description := "Compute 3 * 4" |},
                   None, None);
                  ("2+12",
                   Some {| action_type := "evaluate"; operator := Some "+";
                           operator_index := Some 1;
                           description := "Compute 2 + 12" |},
                   None, None);
                  ("14", None, Some true, Some (Fin 14))]).
Proof.
  eexists. split; [vm_compute; reflexivity|].
  repeat split; vm_compute; reflexivity.
Qed.

(** C10, as stated, fails.  For the profile [expert] on ["1/0"], an input
    that [validate_tokens] accepts, the only action, and the only valid
    one, is the evaluate action of [/]; executing it fails
    ([_execute_action] yields [None]) and the loop is left after one
    recorded step, which has a chosen action, a non-empty set of valid
    actions and neither an [is_final] nor a [result] key.  But the walk
    does not end there: the variable [tokens] is [None] at that point, so
    the test [len(tokens) == 1] that follows the loop raises [TypeError],
    and [walk_deterministic] returns no list of steps at all. *)
Theorem walk_deterministic_raises_when_execution_fails :
  ∃ expert chosen,
    create_learner "expert" = Ok expert
    ∧ chosen = {| action_type := "evaluate"; operator := Some "/";
                  operator_index := Some 1;
                  description := "Compute 1 / 0" |}
    ∧ tokenize "1/0" = Ok ["1"; "/"; "0"]
    ∧ validate_tokens ["1"; "/"; "0"] = Ok true
    ∧ extract_actions_from_tokens ["1"; "/"; "0"] = Ok [chosen]
    ∧ valid_actions expert ["1"; "/"; "0"] [chosen] = Ok [chosen]
    ∧ execute_action ["1"; "/"; "0"] chosen = None
    ∧ walk_loop_summary (walk_loop 1 expert ["1"; "/"; "0"] [])
      = Some (Ok (None, [(("1/0", Some chosen, None, None), [chosen])]))
    ∧ walk_summary (walk_deterministic 1 "1/0" expert)
      = Some (Raise TypeError).
Proof.
  eexists _, _. split; [vm_compute; reflexivity|].
  split; [reflexivity|].
  repeat split; vm_compute; reflexivity.
Qed.

(** ** Graph builder: behaviour on concrete inputs *)

(** C2. With the ceiling [max_nodes = 2], the build of ["(2+3)*5"] ends
    with four nodes: the ceiling is tested only before a node is expanded,
    and the expansion of the root adds its three successors at once.  The
    graph is then marked truncated, with the successors still queued. *)
Theorem build_exceeds_node_ceiling :
  build_summary (build_graph 3 sample_uuid4 "(2+3)*5" (Some 2%Z))
  = Some (Ok (4, true, ["(2*5+3*5)"; "2+3*5"; "5*5"])).
Proof. vm_compute. reflexivity. Qed.

(** C3, as stated, fails: the identifier of a node is the value drawn from
    [uuid4], not a function of the expression text.  Two builds of ["2+3"]
    that draw different identifiers give their root nodes, whose
    expression strings are equal, different ids. *)
Lemma node_id_not_determined_by_text :
  build_root (build_graph 3 sample_uuid4 "2+3" None)
  = Some ("00000000", Some ("2+3", "00000000"))
  ∧ build_root (build_graph 3 (λ k, sample_uuid4 (k + 7)) "2+3" None)
    = Some ("00000007", Some ("2+3", "00000007")).
Proof. split; vm_compute; reflexivity. Qed.

#[local] Arguments tok_in : simpl never.

Section same_operator.
Context `{FloatModel} (feqv : pyfloat → pyfloat → Prop).
Hypothesis laws : float_laws feqv.
Variable op : string.
Hypothesis op_operator : op ∈ operators.

Lemma floats_of_cons (x : string) (xs : list string) :
  floats_of (x :: xs)
  = (a ← float_of_str x; ys ← floats_of xs; Ok (a :: ys)).
Proof. reflexivity. Qed.

Lemma fold_numbers_cons (o : string) (a b : pyfloat) (ys : list pyfloat) :
  fold_numbers o a (b :: ys)
  = (r ← fold_operator o a b; fold_numbers o r ys).
Proof. reflexivity. Qed.

Lemma chain_cons (x0 x1 : string) (xs : list string) :
  chain op x0 (x1 :: xs) = x0 :: op :: chain op x1 xs.
Proof. reflexivity. Qed.

Lemma open_bracket_not_operator (a : string) :
  tok_in a OPEN_BRACKETS = true → tok_in a operators = false.
Proof.
  intros Ha. apply tok_in_true in Ha.
  repeat (apply elem_of_cons in Ha as [->|Ha]; [reflexivity|]).
  by apply elem_of_nil in Ha.
Qed.

Lemma chain_adjacent (x0 : string) (xs : list string) (i : nat)
    (a b : string) :
  chain op x0 xs !! i = Some a → chain op x0 xs !! (i + 1) = Some b →
  tok_in a operators = true ∨ tok_in b operators = true.
Proof.
  assert (Hop : tok_in op operators = true) by by apply tok_in_true.
  revert x0 i. induction xs as [|x1 xs IH]; intros x0 i Ha Hb.
  - destruct i; simpl in Hb; [done|]. by destruct i.
  - rewrite chain_cons in Ha, Hb.
    destruct i as [|[|i]]; simpl in *.
    + right. by injection Hb as <-.
    + left. by injection Ha as <-.
    + by apply (IH x1 i).
Qed.

Lemma chain_no_collapsible (x0 : string) (xs : list string) :
  no_collapsible (chain op x0 xs).
Proof.
  intros i. unfold collapsible.
  destruct (chain op x0 xs !! i) as [a|] eqn:Ha; [|done].
  destruct (chain op x0 xs !! (i + 1)) as [b|] eqn:Hb; [|done].
  destruct (chain op x0 xs !! (i + 2)) as [c|]; [|done].
  destruct (tok_in a OPEN_BRACKETS) eqn:Hopen; [|done].
  destruct (tok_in b (all_brackets ++ operators)) eqn:Hb'; [done|].
  exfalso.
  destruct (chain_adjacent _ _ _ _ _ Ha Hb) as [Hx|Hx].
  - by rewrite (open_bracket_not_operator _ Hopen) in Hx.
  - apply tok_in_true in Hx.
    assert (tok_in b (all_brackets ++ operators) = true) as Hin.
    { apply tok_in_true, elem_of_app. by right. }
    congruence.
Qed.

Lemma literal_not_operator (s : string) (x : pyfloat) :
  float_of_str s = Ok x → tok_in s operators = false.
Proof.
  intros Hs. apply (literal_operand _ laws) in Hs.
  destruct (tok_in s operators) eqn:E; [|done].
  apply tok_in_true in E.
  assert (tok_in s (all_brackets ++ operators) = true) as Hin.
  { apply tok_in_true, elem_of_app. by right. }
  congruence.
Qed.

Lemma literal_not_bracket (s : string) (x : pyfloat) :
  float_of_str s = Ok x → tok_in s all_brackets = false.
Proof.
  intros Hs. apply (literal_operand _ laws) in Hs.
  destruct (tok_in s all_brackets) eqn:E; [|done].
  apply tok_in_true in E.
  assert (tok_in s (all_brackets ++ operators) = true) as Hin.
  { apply tok_in_true, elem_of_app. by left. }
  congruence.
Qed.

Lemma fold_operator_apply (x y : pyfloat) :
  fold_operator op x y = apply_operator op x y.
Proof.
  pose proof op_operator as Hop.
  unfold fold_operator, apply_operator.
  repeat (apply elem_of_cons in Hop as [->|Hop]; [reflexivity|]).
  by apply elem_of_nil in Hop.
Qed.

Lemma perform_operation_right_fails (tokens : list string) (i : nat)
    (o : string) :
  (∀ rt x, py_index tokens (Z.of_nat i + 1) = Ok rt →
           float_of_str rt = Ok x → False) →
  ∃ e, perform_operation tokens i o = Raise e.
Proof.
  intros Hfail. unfold perform_operation.
  destruct (py_index tokens (Z.of_nat i - 1)) as [lt|]; [|by eexists].
  cbn [mbind result_bind].
  destruct (float_of_str lt) as [a|]; [|by eexists].
  cbn [mbind result_bind].
  destruct (py_index tokens (Z.of_nat i + 1)) as [rt|] eqn:Hrt; [|by eexists].
  cbn [mbind result_bind].
  destruct (float_of_str rt) as [b|] eqn:Hb; [|by eexists].
  by destruct (Hfail rt b).
Qed.

(** One step of the leftmost evaluation of a chain. *)
Lemma perform_operation_chain (x0 x1 : string) (xs : list string) :
  perform_operation (chain op x0 (x1 :: xs)) 1 op
  = (a ← float_of_str x0;
     b ← float_of_str x1;
     r ← apply_operator op a b;
     s ← format_result r;
     Ok (chain op s xs)).
Proof.
  unfold perform_operation. rewrite chain_cons. simpl.
  destruct (float_of_str x0) as [a|]; [|done]. simpl.
  destruct (float_of_str x1) as [b|]; [|done]. simpl.
  destruct (apply_operator op a b) as [r|]; [|done]. simpl.
  destruct (format_result r) as [s|]; [|done]. simpl.
  f_equal. change (s :: flat_map (λ x : string, [op; x]) xs)
    with (chain op s xs).
  apply simplify_loop_fixed, chain_no_collapsible.
Qed.

Lemma leftmost_operator_chain (x0 x1 : string) (xs : list string) :
  tok_in x0 operators = false →
  leftmost_operator (chain op x0 (x1 :: xs)) 0 = Some (1, op).
Proof.
  intros Hx. rewrite chain_cons. simpl. rewrite Hx.
  assert (tok_in op operators = true) as -> by by apply tok_in_true.
  done.
Qed.

(** The leftmost evaluation of a chain, from a first operand that reads as
    a float equivalent to [a], against the fold started at [a]. *)
Lemma evaluate_leftmost_chain (xs : list string) :
  ∀ (fuel : nat) (x0 x1 : string) (a0 a : pyfloat),
    length xs < fuel →
    float_of_str x0 = Ok a0 → feqv a0 a →
    match evaluate_leftmost fuel (chain op x0 (x1 :: xs)) with
    | Some (Ok t) =>
        ∃ ys r v, floats_of (x1 :: xs) = Ok ys
                  ∧ fold_numbers op a ys = Ok r
                  ∧ format_result r = Ok v
                  ∧ t = [v]
    | Some (Raise _) => True
    | None => False
    end.
Proof.
  induction xs as [|x2 xs IH]; intros fuel x0 x1 a0 a Hfuel Hx0 Hfe.
  - destruct fuel as [|fuel]; [simpl in Hfuel; lia|].
    unfold evaluate_leftmost; fold (@evaluate_leftmost H).
    rewrite leftmost_operator_chain by by eapply literal_not_operator.
    rewrite perform_operation_chain, Hx0. cbn [mbind result_bind].
    destruct (float_of_str x1) as [b|] eqn:Hx1; [|done]. cbn [mbind result_bind].
    pose proof (feqv_apply _ laws op a0 a b Hfe) as Hap.
    destruct (apply_operator op a0 b) as [r0|] eqn:Hr0; [|done]. cbn [mbind result_bind].
    destruct (apply_operator op a b) as [r|] eqn:Hr; [|done].
    destruct (format_result r0) as [s|] eqn:Hs; [|done]. cbn [mbind result_bind].
    destruct (format_parse _ laws _ _ Hs) as (y & Hy & _).
    assert (Hev : evaluate_leftmost fuel [s] = Some (Ok [s])).
    { destruct fuel; simpl; by rewrite (literal_not_operator _ _ Hy). }
    change (chain op s []) with [s]. rewrite Hev.
    exists [b], r, s. split.
    { by rewrite floats_of_cons, Hx1. }
    split.
    { by rewrite fold_numbers_cons, fold_operator_apply, Hr. }
    split; [|done]. by rewrite <- (feqv_format _ laws _ _ Hap).
  - destruct fuel as [|fuel]; [simpl in Hfuel; lia|].
    unfold evaluate_leftmost; fold (@evaluate_leftmost H).
    rewrite leftmost_operator_chain by by eapply literal_not_operator.
    rewrite perform_operation_chain, Hx0. cbn [mbind result_bind].
    destruct (float_of_str x1) as [b|] eqn:Hx1; [|done]. cbn [mbind result_bind].
    pose proof (feqv_apply _ laws op a0 a b Hfe) as Hap.
    destruct (apply_operator op a0 b) as [r0|] eqn:Hr0; [|done]. cbn [mbind result_bind].
    destruct (apply_operator op a b) as [r|] eqn:Hr; [|done].
    destruct (format_result r0) as [s|] eqn:Hs; [|done]. cbn [mbind result_bind].
    destruct (format_parse _ laws _ _ Hs) as (y & Hy & Hyr).
    assert (feqv y r) as Hyr' by (eapply (feqv_trans _ laws); eauto).
    specialize (IH fuel s x2 y r ltac:(simpl in Hfuel; lia) Hy Hyr').
    destruct (evaluate_leftmost fuel (chain op s (x2 :: xs)))
      as [[t|]|]; [|done|done].
    destruct IH as (ys & r' & v & Hys & Hfold & Hv & ->).
    exists (b :: ys), r', v.
    rewrite floats_of_cons, Hx1, Hys, fold_numbers_cons,
      fold_operator_apply, Hr. done.
Qed.

Lemma floats_of_literals (xs : list string) (ys : list pyfloat) :
  floats_of xs = Ok ys →
  Forall (λ x, tok_in x (all_brackets ++ operators) = false) xs.
Proof.
  revert ys. induction xs as [|x xs IH]; intros ys Hys; [constructor|].
  simpl in Hys.
  destruct (float_of_str x) as [a|] eqn:Ha; [|done]. simpl in Hys.
  destruct (floats_of xs) as [ys'|] eqn:Hys'; [|done].
  constructor; [by eapply (literal_operand _ laws)|by eapply IH].
Qed.

Lemma operand_split (x : string) :
  tok_in x (all_brackets ++ operators) = false →
  tok_in x all_brackets = false ∧ tok_in x operators = false.
Proof.
  intros Hx. split.
  - destruct (tok_in x all_brackets) eqn:E; [|done].
    apply tok_in_true in E.
    assert (tok_in x (all_brackets ++ operators) = true) as Hin
      by (apply tok_in_true, elem_of_app; by left). congruence.
  - destruct (tok_in x operators) eqn:E; [|done].
    apply tok_in_true in E.
    assert (tok_in x (all_brackets ++ operators) = true) as Hin
      by (apply tok_in_true, elem_of_app; by right). congruence.
Qed.

Lemma filter_chain (x0 : string) (xs : list string) :
  Forall (λ x, tok_in x (all_brackets ++ operators) = false) (x0 :: xs) →
  filter (λ t, t ≠ op) (chain op x0 xs) = x0 :: xs.
Proof.
  assert (Hne : ∀ x, tok_in x (all_brackets ++ operators) = false → x ≠ op).
  { intros x Hx ->. apply operand_split in Hx as [_ Hx].
    apply tok_in_true in op_operator. congruence. }
  revert x0. induction xs as [|x1 xs IH]; intros x0 Hall.
  - unfold chain. simpl. rewrite filter_cons_True; [done|].
    apply Hne. by inversion Hall.
  - rewrite chain_cons. inversion Hall as [|? ? Hx0 Hrest]; subst.
    rewrite filter_cons_True by by apply Hne.
    rewrite filter_cons_False by (intros Hn; by apply Hn).
    f_equal. by apply IH.
Qed.

Lemma same_operator_loop_chain (x0 : string) (xs : list string)
    (found : option string) :
  Forall (λ x, tok_in x (all_brackets ++ operators) = false) (x0 :: xs) →
  found = None ∨ found = Some op →
  same_operator_loop (chain op x0 xs) found
  = Some (match xs with [] => found | _ => Some op end).
Proof.
  assert (Hop : tok_in op operators = true) by by apply tok_in_true.
  assert (Hopb : tok_in op all_brackets = false).
  { pose proof op_operator as Ho.
    repeat (apply elem_of_cons in Ho as [->|Ho]; [reflexivity|]).
    by apply elem_of_nil in Ho. }
  revert x0 found. induction xs as [|x1 xs IH]; intros x0 found Hall Hf.
  - inversion Hall as [|? ? Hx0 _]; subst.
    apply operand_split in Hx0 as [Hb Ho].
    unfold chain. cbn [flat_map same_operator_loop]. by rewrite Hb, Ho.
  - inversion Hall as [|? ? Hx0 Hrest]; subst.
    apply operand_split in Hx0 as [Hb Ho].
    rewrite chain_cons. cbn [same_operator_loop].
    rewrite Hb, Ho, Hopb, Hop.
    destruct Hf as [->| ->].
    + rewrite IH by (done || by right). by destruct xs.
    + rewrite String.eqb_refl. cbn [negb].
      rewrite IH by (done || by right). by destruct xs.
Qed.

(** C4, amended.  For a sequence that alternates operands with one
    repeated operator, [x0 op x1 op ... op xn] with at least one operator,
    evaluating the leftmost operator pair with [perform_operation] until no
    operator is left never runs out of steps; and whenever it does not
    fail, it ends in a single token [v], the fast path applies
    ([is_same_operator_expression] answers with the operator), and
    [compute_same_operator_result] returns exactly [v].  The operator is
    any of the five, so this covers [-], [/] and [^]. *)
Theorem same_operator_fold_matches_leftmost (x0 x1 : string)
    (xs : list string) (t : list string) :
  evaluate_leftmost (S (length xs)) (chain op x0 (x1 :: xs)) ≠ None
  ∧ (evaluate_leftmost (S (length xs)) (chain op x0 (x1 :: xs))
       = Some (Ok t) →
     ∃ v, t = [v]
          ∧ is_same_operator_expression (chain op x0 (x1 :: xs))
            = (true, Some op)
          ∧ compute_same_operator_result (chain op x0 (x1 :: xs)) op
            = Ok v).
Proof.
  destruct (float_of_str x0) as [a0|e] eqn:Hx0.
  - pose proof (evaluate_leftmost_chain xs (S (length xs)) x0 x1 a0 a0
                  ltac:(lia) Hx0 (feqv_refl _ laws a0)) as Hev.
    destruct (evaluate_leftmost (S (length xs)) (chain op x0 (x1 :: xs)))
      as [[t'|]|]; [|split; done|done].
    destruct Hev as (ys & r & v & Hys & Hfold & Hv & ->).
    split; [done|]. intros [= <-]. exists v. split; [done|].
    assert (Forall (λ x, tok_in x (all_brackets ++ operators) = false)
              (x0 :: x1 :: xs)) as Hall.
    { constructor; [by eapply (literal_operand _ laws)|].
      by eapply floats_of_literals. }
    split.
    + unfold is_same_operator_expression.
      rewrite same_operator_loop_chain by (done || by left).
      assert (op ≠ "") as Hne.
      { intros ->. pose proof op_operator as Ho.
        repeat (apply elem_of_cons in Ho as [?|Ho]; [done|]).
        by apply elem_of_nil in Ho. }
      done.
    + unfold compute_same_operator_result.
      rewrite filter_chain by done.
      rewrite floats_of_cons, Hx0, Hys. cbn [mbind result_bind].
      by rewrite Hfold.
  - (* the first operand does not read as a float *)
    assert (evaluate_leftmost (S (length xs)) (chain op x0 (x1 :: xs))
            = Some (Raise e) ∨
            ∃ e', evaluate_leftmost (S (length xs)) (chain op x0 (x1 :: xs))
                  = Some (Raise e')) as Hr.
    { right.
      assert (Hop : tok_in op operators = true) by by apply tok_in_true.
      destruct (tok_in x0 operators) eqn:Hx0op.
      - (* the first token is itself an operator: the right operand is [op] *)
        assert (leftmost_operator (chain op x0 (x1 :: xs)) 0 = Some (0, x0))
          as Hl.
        { rewrite chain_cons. cbn [leftmost_operator]. by rewrite Hx0op. }
        unfold evaluate_leftmost; fold (@evaluate_leftmost H). rewrite Hl.
        destruct (perform_operation_right_fails
                    (chain op x0 (x1 :: xs)) 0 x0) as [e' He'].
        { intros rt x Hrt Ho. rewrite chain_cons in Hrt.
          change (Z.of_nat 0 + 1)%Z with (Z.of_nat 1) in Hrt.
          rewrite (py_index_nat _ 1 op) in Hrt by done.
          injection Hrt as <-. apply literal_not_operator in Ho.
          congruence. }
        rewrite He'. eauto.
      - unfold evaluate_leftmost; fold (@evaluate_leftmost H).
        rewrite leftmost_operator_chain by done.
        rewrite perform_operation_chain, Hx0. cbn [mbind result_bind].
        eauto. }
    destruct Hr as [Hr|[e' Hr]]; rewrite Hr; split; done.
Qed.

End same_operator.

(** The integer fragment satisfies the laws, with equality as the
    equivalence. *)
Lemma to_int_proper (z : Z) :
  Z.to_int z ≠ Decimal.Pos Decimal.Nil ∧ Z.to_int z ≠ Decimal.Neg Decimal.Nil.
Proof.
  destruct z as [|p|p]; simpl; split; try discriminate;
    intros [= Hp]; by apply (DecimalPos.Unsigned.to_uint_nonnil p).
Qed.

Lemma zfloat_of_str_of_int (z : Z) : zfloat_of_str (str_of_int z) = Ok (Fin z).
Proof.
  unfold zfloat_of_str, str_of_int.
  destruct (to_int_proper z) as [Hp Hn].
  rewrite NilZero.isi by done. by rewrite DecimalZ.of_to.
Qed.

Lemma IntFragment_laws : float_laws (H := IntFragment) eq.
Proof.
  split.
  - done.
  - congruence.
  - intros x s Hs. exists x. split; [|done].
    destruct x as [z|]; [|done].
    unfold format_result in Hs. simpl in Hs. rewrite Z.eqb_refl in Hs.
    injection Hs as <-. apply zfloat_of_str_of_int.
  - by intros x y ->.
  - intros o x y z ->. by destruct (apply_operator o y z).
  - intros s x Hs.
    destruct (tok_in s (all_brackets ++ operators)) eqn:E; [|done].
    apply tok_in_true in E. exfalso.
    repeat (apply elem_of_cons in E as [->|E]; [by vm_compute in Hs|]).
    by apply elem_of_nil in E.
Qed.

Lemma same_operator_fold_matches_leftmost_witness :
  evaluate_leftmost 2 ["8"; "-"; "3"; "-"; "2"] = Some (Ok ["3"])
  ∧ ∃ v, ["3"] = [v]
         ∧ is_same_operator_expression ["8"; "-"; "3"; "-"; "2"]
           = (true, Some "-")
         ∧ compute_same_operator_result ["8"; "-"; "3"; "-"; "2"] "-" = Ok v.
Proof.
  assert (Hop : "-" ∈ operators) by (apply list_elem_of_In; vm_compute; auto).
  assert (Hev : evaluate_leftmost 2 ["8"; "-"; "3"; "-"; "2"]
                = Some (Ok ["3"])) by (vm_compute; reflexivity).
  split; [exact Hev|].
  exact (proj2 (same_operator_fold_matches_leftmost eq IntFragment_laws "-"
                  Hop "8" "3" ["2"] ["3"]) Hev).
Defined.

(** ** Graph builder: node identity *)

Section node_identity.
Context `{FloatModel} (uuid4 : nat → string).

Lemma Node_init_fields (uuid : string) (tokens : list string)
    (parent : option string) (n : Node) :
  Node_init uuid tokens parent = Ok n →
  node_id n = uuid ∧ node_expression n = join tokens.
Proof.
  unfold Node_init. intros Hn.
  destruct (length tokens =? 1).
  - destruct (py_index tokens 0) as [t|]; [|done]. cbn in Hn.
    destruct (float_of_str t); [|done]. cbn in Hn. by injection Hn as <-.
  - cbn in Hn. by injection Hn as <-.
Qed.

Lemma record_state_draws (g : ExpressionGraph2) (cur : string)
    (new_tokens : list string) (ty desc : string) :
  draws g ≤ draws (record_state uuid4 g cur new_tokens ty desc).1.
Proof.
  unfold record_state.
  destruct (seen_expressions g !! join new_tokens); [done|].
  destruct (Node_init _ _ _); simpl; lia.
Qed.

Lemma record_state_consistent (g : ExpressionGraph2) (cur : string)
    (new_tokens : list string) (ty desc : string) :
  distinct_draws uuid4 (draws (record_state uuid4 g cur new_tokens ty desc).1) →
  ids_consistent uuid4 g →
  ids_consistent uuid4 (record_state uuid4 g cur new_tokens ty desc).1.
Proof.
  unfold record_state. intros Hd [Hn He].
  destruct (seen_expressions g !! join new_tokens) eqn:Hseen; [done|].
  destruct (Node_init (uuid4 (draws g)) new_tokens (Some cur))
    as [new_node|] eqn:Hinit; simpl in *.
  - destruct (Node_init_fields _ _ _ _ Hinit) as [Hid Hexpr].
    rewrite Hid.
    assert (Hfresh : nodes g !! uuid4 (draws g) = None).
    { destruct (nodes g !! uuid4 (draws g)) as [n|] eqn:Hl; [|done].
      destruct (Hn _ _ Hl) as (_ & _ & k & Hk & Heq).
      apply Hd in Heq; lia. }
    split.
    + intros id n Hl. simpl in Hl |- *. apply lookup_insert_Some in Hl as [[<- <-]|[Hne Hl]].
      * rewrite Hexpr, lookup_insert_eq. repeat split; [done|].
        exists (draws g). split; [lia|done].
      * destruct (Hn _ _ Hl) as (Hi & Hs & k & Hk & Heq).
        repeat split; [done| |exists k; split; [lia|done]].
        rewrite lookup_insert_ne; [done|].
        intros Heq'. rewrite <- Heq' in Hs. congruence.
    + intros e id Hl. simpl in Hl |- *. apply lookup_insert_Some in Hl as [[<- <-]|[Hne Hl]].
      * exists new_node. by rewrite lookup_insert_eq.
      * destruct (He _ _ Hl) as (n & Hnl & Hne').
        exists n. split; [|done].
        rewrite lookup_insert_ne; [done|]. intros <-. congruence.
  - split.
    + intros id n Hl. simpl in Hl |- *. destruct (Hn _ _ Hl) as (Hi & Hs & k & Hk & Heq).
      repeat split; [done|done|]. exists k. split; [lia|done].
    + done.
Qed.

Lemma expand_actions_draws (actions : list graph_action)
    (g : ExpressionGraph2) (cur : Node) :
  draws g ≤ draws (expand_actions uuid4 g cur actions).
Proof.
  unfold expand_actions. revert g.
  induction actions as [|a actions IH]; intros g; simpl; [done|].
  etrans; [|apply IH]. apply record_state_draws.
Qed.

Lemma distinct_draws_mono (d d' : nat) :
  d ≤ d' → distinct_draws uuid4 d' → distinct_draws uuid4 d.
Proof. intros Hle Hd i j Hi Hj. apply Hd; lia. Qed.

Lemma expand_actions_consistent (actions : list graph_action)
    (g : ExpressionGraph2) (cur : Node) :
  distinct_draws uuid4 (draws (expand_actions uuid4 g cur actions)) →
  ids_consistent uuid4 g →
  ids_consistent uuid4 (expand_actions uuid4 g cur actions).
Proof.
  revert g. induction actions as [|a actions IH]; intros g Hd Hg; [done|].
  change (expand_actions uuid4 g cur (a :: actions))
    with (expand_actions uuid4
            (record_state uuid4 g (node_id cur) (ga_result_tokens a)
               (ga_type a) (ga_description a)).1 cur actions) in *.
  apply IH; [done|]. apply record_state_consistent; [|done].
  eapply distinct_draws_mono; [|done]. apply expand_actions_draws.
Qed.

Lemma fast_path_draws (g : ExpressionGraph2) (cur : Node) (o : string) :
  draws g ≤ draws (fast_path uuid4 g cur o).2
  ∧ ∀ g', (fast_path uuid4 g cur o).1 = Some g' →
          g' = (fast_path uuid4 g cur o).2.
Proof.
  unfold fast_path.
  destruct (compute_same_operator_result _ _) as [r|]; [|by split].
  pose proof (record_state_draws g (node_id cur) [r] "evaluate"
                ("Compute all '" +:+ o +:+ "' operations")) as Hle.
  destruct (record_state _ _ _ _ _ _) as [g1 [|]]; simpl in *.
  - split; [done|]. by intros g' [= <-].
  - by split.
Qed.

Lemma fast_path_consistent (g : ExpressionGraph2) (cur : Node) (o : string) :
  distinct_draws uuid4 (draws (fast_path uuid4 g cur o).2) →
  ids_consistent uuid4 g →
  ids_consistent uuid4 (fast_path uuid4 g cur o).2.
Proof.
  unfold fast_path.
  destruct (compute_same_operator_result _ _) as [r|]; [|done].
  pose proof (record_state_consistent g (node_id cur) [r] "evaluate"
                ("Compute all '" +:+ o +:+ "' operations")) as Hc.
  by destruct (record_state _ _ _ _ _ _) as [g1 [|]].
Qed.

Lemma ids_consistent_with_queue (g : ExpressionGraph2) (q : list Node) :
  ids_consistent uuid4 g → ids_consistent uuid4 (with_queue g q).
Proof. done. Qed.

Lemma build_loop_consistent (fuel : nat) :
  ∀ g g', build_loop fuel uuid4 g = Some (Ok g') →
          draws g ≤ draws g'
          ∧ (distinct_draws uuid4 (draws g') → ids_consistent uuid4 g →
             ids_consistent uuid4 g').
Proof.
  induction fuel as [|fuel IH]; intros g g' Hb; [done|].
  simpl in Hb.
  destruct (queue g) as [|cur q] eqn:Hq.
  { injection Hb as <-. done. }
  destruct (limit_reached g).
  { injection Hb as <-. done. }
  destruct (node_is_final cur).
  { apply IH in Hb as [Hle Hc]. split; [done|]. intros Hd Hg. by apply Hc. }
  destruct (is_same_operator_expression (node_tokens cur)) as [same o].
  set (g0 := with_queue g q) in *.
  assert (Hfall : ∀ g1, draws g ≤ draws g1 →
            (distinct_draws uuid4 (draws g1) → ids_consistent uuid4 g →
             ids_consistent uuid4 g1) →
            match find_all_actions (node_tokens cur) with
            | Ok actions =>
                build_loop fuel uuid4 (expand_actions uuid4 g1 cur actions)
            | Raise e => Some (Raise e)
            end = Some (Ok g') →
            draws g ≤ draws g'
            ∧ (distinct_draws uuid4 (draws g') → ids_consistent uuid4 g →
               ids_consistent uuid4 g')).
  { intros g1 Hle1 Hc1 Hb1.
    destruct (find_all_actions (node_tokens cur)) as [actions|]; [|done].
    apply IH in Hb1 as [Hle Hc].
    pose proof (expand_actions_draws actions g1 cur) as Hle2.
    split; [lia|]. intros Hd Hg. apply Hc; [done|].
    apply expand_actions_consistent.
    - eapply distinct_draws_mono; [|done]. done.
    - apply Hc1; [|done]. eapply distinct_draws_mono; [|done]. lia. }
  destruct same, o as [o|]; try (by apply (Hfall g0)).
  destruct (bool_decide (o = "")); [by apply (Hfall g0)|].
  destruct (fast_path_draws g0 cur o) as [Hle1 Hsome].
  pose proof (fast_path_consistent g0 cur o) as Hc1.
  destruct (fast_path uuid4 g0 cur o) as [[g1|] g2]; simpl in *.
  - rewrite (Hsome g1 eq_refl) in Hb. apply IH in Hb as [Hle Hc].
    split; [lia|]. intros Hd Hg. apply Hc; [done|]. apply Hc1; [|done].
    eapply distinct_draws_mono; [|done]. done.
  - apply (Hfall g2); [done| |done]. intros Hd Hg. by apply Hc1.
Qed.

(** C3, amended.  Within one build, as long as the identifiers drawn from
    [uuid4] do not repeat, ids and canonical expression strings determine
    each other: every string recorded in [seen_expressions] has exactly one
    id, under which [nodes] holds the node with that id and that string;
    every node is stored under its own id and recorded under its own
    string; so two nodes have equal strings exactly when they have equal
    ids.  (The id itself is whatever [uuid4] returns: it is not computed
    from the string, and another build may draw a different one.) *)
Theorem node_ids_unique_within_build (fuel : nat) (expr : string)
    (ceiling : option Z) (g : ExpressionGraph2) :
  build_graph fuel uuid4 expr ceiling = Some (Ok g) →
  distinct_draws uuid4 (draws g) →
  (∀ e id, seen_expressions g !! e = Some id →
           ∃ n, nodes g !! id = Some n ∧ node_id n = id
                ∧ node_expression n = e)
  ∧ (∀ id n, nodes g !! id = Some n →
             node_id n = id
             ∧ seen_expressions g !! node_expression n = Some id)
  ∧ (∀ id1 id2 n1 n2,
       nodes g !! id1 = Some n1 → nodes g !! id2 = Some n2 →
       (node_expression n1 = node_expression n2 ↔ node_id n1 = node_id n2)).
Proof.
  unfold build_graph. intros Hb Hd.
  destruct (tokenize expr) as [tokens|]; [|done]. cbn in Hb.
  destruct (validate_tokens tokens); [|done]. cbn in Hb.
  destruct (Node_init (uuid4 0) tokens None) as [root|] eqn:Hroot; [|done].
  destruct (Node_init_fields _ _ _ _ Hroot) as [Hid Hexpr].
  apply build_loop_consistent in Hb as [_ Hc].
  match type of Hc with
  | _ → ?P → _ => assert (Hinit : P)
  end.
  { split; simpl.
    - intros id n Hl. apply lookup_insert_Some in Hl.
      destruct Hl as [[<- <-]|[_ Hl]]; [|by rewrite lookup_empty in Hl].
      rewrite lookup_insert_eq. split; [done|]. split; [done|].
      exists 0. split; [lia|done].
    - intros e id Hl. apply lookup_insert_Some in Hl.
      destruct Hl as [[<- <-]|[_ Hl]]; [|by rewrite lookup_empty in Hl].
      exists root. by rewrite lookup_insert_eq. }
  destruct (Hc Hd Hinit) as [Hn He].
  split; [|split].
  - intros e id Hl. destruct (He _ _ Hl) as (n & Hnl & Hne).
    exists n. destruct (Hn _ _ Hnl) as (? & ? & ?). done.
  - intros id n Hl. destruct (Hn _ _ Hl) as (? & ? & ?). done.
  - intros id1 id2 n1 n2 H1 H2.
    destruct (Hn _ _ H1) as (Hi1 & Hs1 & _).
    destruct (Hn _ _ H2) as (Hi2 & Hs2 & _).
    split.
    + intros Heq. rewrite Heq in Hs1. congruence.
    + intros Heq. assert (id1 = id2) as -> by congruence. congruence.
Qed.

End node_identity.

Lemma node_ids_unique_within_build_witness :
  match build_graph 10 sample_uuid4 "2+3*4" None with
  | Some (Ok g) =>
      draws g = 5
      ∧ ∀ id1 id2 n1 n2,
          nodes g !! id1 = Some n1 → nodes g !! id2 = Some n2 →
          (node_expression n1 = node_expression n2 ↔ node_id n1 = node_id n2)
  | _ => False
  end.
Proof.
  assert (Hdraws : match build_graph 10 sample_uuid4 "2+3*4" None with
                   | Some (Ok g) => draws g
                   | _ => 0
                   end = 5) by (vm_compute; reflexivity).
  destruct (build_graph 10 sample_uuid4 "2+3*4" None) as [[g|]|] eqn:E;
    [|discriminate|discriminate].
  split; [exact Hdraws|].
  apply (node_ids_unique_within_build sample_uuid4 10 "2+3*4" None g E).
  rewrite Hdraws. intros i j Hi Hj.
  destruct i as [|[|[|[|[|i]]]]]; try lia;
    destruct j as [|[|[|[|[|j]]]]]; try lia;
    intros Heq; try reflexivity; vm_compute in Heq; discriminate.
Defined.

(** ** The available-action set *)

Section available_actions.
Context `{FloatModel}.

(** What [add_action] does to the action list and to the set of keys. *)
Lemma add_action_elem (st : list graph_action * gset string)
    (ty d : string) (r : list string) (a : graph_action) :
  a ∈ (add_action st ty d r).1 →
  a ∈ st.1
  ∨ a = {| ga_type := ty; ga_description := d; ga_result_tokens := r |}.
Proof.
  unfold add_action. case_bool_decide; [by left|]. simpl.
  intros [?|Ha%list_elem_of_singleton]%elem_of_app; [by left|by right].
Qed.

Lemma add_action_mono (st : list graph_action * gset string)
    (ty d : string) (r : list string) (a : graph_action) :
  a ∈ st.1 → a ∈ (add_action st ty d r).1.
Proof.
  unfold add_action. case_bool_decide; [done|]. simpl.
  intros Ha. apply elem_of_app. by left.
Qed.

Lemma add_action_keys (st : list graph_action * gset string)
    (ty d : string) (r : list string) :
  keys_match st → keys_match (add_action st ty d r).
Proof.
  unfold add_action, keys_match. intros Hk.
  case_bool_decide as Hin; [done|]. simpl. intros k.
  rewrite elem_of_union, elem_of_singleton, Hk. split.
  - intros [(a & Ha & Hj)| ->].
    + exists a. split; [|done]. apply elem_of_app. by left.
    + eexists. split; [apply elem_of_app; right; by apply list_elem_of_singleton|].
      done.
  - intros (a & [Ha|Ha%list_elem_of_singleton]%elem_of_app & Hj).
    + left. by exists a.
    + right. by subst.
Qed.

Lemma add_action_covers (st : list graph_action * gset string)
    (ty d : string) (r : list string) :
  keys_match st →
  ∃ a, a ∈ (add_action st ty d r).1 ∧ join (ga_result_tokens a) = join r.
Proof.
  intros Hk. unfold add_action. case_bool_decide as Hin.
  - by apply Hk.
  - simpl. eexists. split;
      [apply elem_of_app; right; by apply list_elem_of_singleton|done].
Qed.

Lemma perform_operation_division (tokens : list string) (i : nat)
    (r : list string) (rt : string) (x : pyfloat) :
  perform_operation tokens i "/" = Ok r →
  py_index tokens (Z.of_nat i + 1) = Ok rt →
  float_of_str rt = Ok x → feq0 x = false.
Proof.
  unfold perform_operation. intros Hp Hrt Hx.
  destruct (py_index tokens (Z.of_nat i - 1)) as [lt|]; [|done].
  cbn [mbind result_bind] in Hp.
  destruct (float_of_str lt) as [l|]; [|done]. rewrite Hrt in Hp.
  cbn [mbind result_bind] in Hp. rewrite Hx in Hp.
  cbn [mbind result_bind] in Hp. unfold apply_operator in Hp.
  change (String.eqb "/" "+") with false in Hp.
  change (String.eqb "/" "-") with false in Hp.
  change (String.eqb "/" "*") with false in Hp.
  change (String.eqb "/" "/") with true in Hp. cbv iota in Hp.
  by destruct (feq0 x).
Qed.

(** Dividing by a right operand that is zero raises, whatever surrounds
    it. *)
Lemma perform_operation_division_by_zero (tokens : list string) (i : nat)
    (lt rt : string) (l x : pyfloat) :
  py_index tokens (Z.of_nat i - 1) = Ok lt → float_of_str lt = Ok l →
  py_index tokens (Z.of_nat i + 1) = Ok rt → float_of_str rt = Ok x →
  feq0 x = true →
  perform_operation tokens i "/" = Raise (ValueError "Division by zero").
Proof.
  unfold perform_operation. intros H1 H2 H3 H4 Hz.
  rewrite H1. cbn [mbind result_bind]. rewrite H2. cbn [mbind result_bind].
  rewrite H3. cbn [mbind result_bind]. rewrite H4. cbn [mbind result_bind].
  unfold apply_operator.
  change (String.eqb "/" "+") with false.
  change (String.eqb "/" "-") with false.
  change (String.eqb "/" "*") with false.
  change (String.eqb "/" "/") with true. cbv iota. by rewrite Hz.
Qed.

Lemma add_evaluate_action_elem (tokens : list string)
    (st : list graph_action * gset string) (o : nat * string)
    (a : graph_action) :
  a ∈ (add_evaluate_action tokens st o).1 →
  a ∈ st.1 ∨ (ga_type a = "evaluate" ∧ evaluate_of tokens a).
Proof.
  unfold add_evaluate_action. destruct o as [i op]. simpl.
  destruct (perform_operation tokens i op) as [r|] eqn:Hp; [|by left].
  cbn [mbind result_bind].
  destruct (py_index tokens (Z.of_nat i - 1)) as [lt|] eqn:Hlt; [|by left].
  cbn [mbind result_bind].
  destruct (py_index tokens (Z.of_nat i + 1)) as [rt|] eqn:Hrt; [|by left].
  cbn [mbind result_bind].
  intros [?| ->]%add_action_elem; [by left|]. right. split; [done|].
  exists i, op, lt, rt. simpl. repeat split; try done.
  intros -> x Hx. by eapply perform_operation_division.
Qed.

Lemma fold_evaluate_elem (tokens : list string) (ops : list (nat * string)) :
  ∀ (st : list graph_action * gset string) (a : graph_action),
    a ∈ (fold_left (add_evaluate_action tokens) ops st).1 →
    a ∈ st.1 ∨ (ga_type a = "evaluate" ∧ evaluate_of tokens a).
Proof.
  induction ops as [|o ops IH]; intros st a Ha; [by left|].
  simpl in Ha. apply IH in Ha as [Ha|Ha]; [|by right].
  by apply add_evaluate_action_elem in Ha.
Qed.

Lemma add_distribute_action_elem (tokens : list string)
    (st : list graph_action * gset string) (d : distributable)
    (a : graph_action) :
  a ∈ (add_distribute_action tokens st d).1 →
  a ∈ st.1 ∨ ga_type a = "distribute".
Proof.
  unfold add_distribute_action.
  destruct (distribute_bracket _ _ _ _ _ _) as [[[|t r]|]|]; try by left.
  intros [?| ->]%add_action_elem; [by left|by right].
Qed.

Lemma fold_distribute_elem (tokens : list string) (ds : list distributable) :
  ∀ (st : list graph_action * gset string) (a : graph_action),
    a ∈ (fold_left (add_distribute_action tokens) ds st).1 →
    a ∈ st.1 ∨ ga_type a = "distribute".
Proof.
  induction ds as [|d ds IH]; intros st a Ha; [by left|].
  simpl in Ha. apply IH in Ha as [Ha|Ha]; [|by right].
  by apply add_distribute_action_elem in Ha.
Qed.

Lemma fold_drop_elem (tokens : list string) (gs : list (nat * nat)) :
  ∀ (st : list graph_action * gset string) (a : graph_action),
    a ∈ (fold_left (add_drop_action tokens) gs st).1 →
    a ∈ st.1 ∨ ga_type a = "drop_brackets".
Proof.
  induction gs as [|g gs IH]; intros st a Ha; [by left|].
  simpl in Ha. apply IH in Ha as [Ha|Ha]; [|by right].
  unfold add_drop_action in Ha.
  apply add_action_elem in Ha as [?| ->]; [by left|by right].
Qed.

Lemma fold_distribute_keys (tokens : list string) (ds : list distributable) :
  ∀ st, keys_match st →
        keys_match (fold_left (add_distribute_action tokens) ds st).
Proof.
  induction ds as [|d ds IH]; intros st Hk; [done|]. simpl. apply IH.
  unfold add_distribute_action.
  destruct (distribute_bracket _ _ _ _ _ _) as [[[|t r]|]|]; try done.
  by apply add_action_keys.
Qed.

Lemma fold_drop_keys (tokens : list string) (gs : list (nat * nat)) :
  ∀ st, keys_match st → keys_match (fold_left (add_drop_action tokens) gs st).
Proof.
  induction gs as [|g gs IH]; intros st Hk; [done|]. simpl. apply IH.
  by apply add_action_keys.
Qed.

Lemma add_evaluate_action_keys (tokens : list string)
    (st : list graph_action * gset string) (o : nat * string) :
  keys_match st → keys_match (add_evaluate_action tokens st o).
Proof.
  intros Hk. unfold add_evaluate_action.
  destruct (_ ≫= _) as [[[r lt] rt]|]; [|done]. by apply add_action_keys.
Qed.

Lemma add_evaluate_action_mono (tokens : list string)
    (st : list graph_action * gset string) (o : nat * string)
    (a : graph_action) :
  a ∈ st.1 → a ∈ (add_evaluate_action tokens st o).1.
Proof.
  intros Ha. unfold add_evaluate_action.
  destruct (_ ≫= _) as [[[r lt] rt]|]; [|done]. by apply add_action_mono.
Qed.

Lemma fold_evaluate_mono (tokens : list string) (ops : list (nat * string)) :
  ∀ st a, a ∈ st.1 → a ∈ (fold_left (add_evaluate_action tokens) ops st).1.
Proof.
  induction ops as [|o ops IH]; intros st a Ha; [done|]. simpl.
  by apply IH, add_evaluate_action_mono.
Qed.

Lemma find_evaluatable_loop_indices (tokens : list string) :
  ∀ rest i acc ops,
    find_evaluatable_loop tokens rest i acc = Ok ops →
    (∀ o, o ∈ acc →
          is_ok (py_index tokens (Z.of_nat o.1 - 1)) = true
          ∧ is_ok (py_index tokens (Z.of_nat o.1 + 1)) = true) →
    ∀ o, o ∈ ops →
         is_ok (py_index tokens (Z.of_nat o.1 - 1)) = true
         ∧ is_ok (py_index tokens (Z.of_nat o.1 + 1)) = true.
Proof.
  induction rest as [|t rest IH]; intros i acc ops Hl Hacc.
  - simpl in Hl. by injection Hl as <-.
  - cbn [find_evaluatable_loop] in Hl.
    destruct (tok_in t operators); [|by apply (IH _ _ _ Hl)].
    destruct (py_index tokens (Z.of_nat i - 1)) as [lt|] eqn:Hlt; [|done].
    cbn [mbind result_bind] in Hl.
    destruct (py_index tokens (Z.of_nat i + 1)) as [rt|] eqn:Hrt; [|done].
    cbn [mbind result_bind] in Hl.
    destruct (_ && _); [|by apply (IH _ _ _ Hl)].
    apply (IH _ _ _ Hl).
    intros o [Ho| ->%list_elem_of_singleton]%elem_of_app; [by apply Hacc|].
    simpl. by rewrite Hlt, Hrt.
Qed.

Lemma fold_evaluate_covers (tokens : list string)
    (ops : list (nat * string)) :
  ∀ st i op res,
    keys_match st →
    (∀ o, o ∈ ops →
          is_ok (py_index tokens (Z.of_nat o.1 - 1)) = true
          ∧ is_ok (py_index tokens (Z.of_nat o.1 + 1)) = true) →
    (i, op) ∈ ops → perform_operation tokens i op = Ok res →
    ∃ a, a ∈ (fold_left (add_evaluate_action tokens) ops st).1
         ∧ join (ga_result_tokens a) = join res.
Proof.
  induction ops as [|o ops IH]; intros st i op res Hk Hidx Hin Hp.
  { by apply elem_of_nil in Hin. }
  simpl. apply elem_of_cons in Hin as [<-|Hin].
  - destruct (Hidx (i, op)) as [Hl Hr]; [by left|]. simpl in Hl, Hr.
    assert (∃ a, a ∈ (add_evaluate_action tokens st (i, op)).1
                 ∧ join (ga_result_tokens a) = join res) as (a & Ha & Hj).
    { unfold add_evaluate_action. simpl. rewrite Hp.
      cbn [mbind result_bind].
      destruct (py_index tokens (Z.of_nat i - 1)); [|done].
      cbn [mbind result_bind].
      destruct (py_index tokens (Z.of_nat i + 1)); [|done].
      cbn [mbind result_bind]. by apply add_action_covers. }
    exists a. split; [|done]. by apply fold_evaluate_mono.
  - eapply IH; [|intros o' Ho'; apply Hidx; by right|done|done].
    by apply add_evaluate_action_keys.
Qed.

(** The available-action set.  For every token sequence on which
    [_find_all_actions] returns, every evaluate action in the result comes
    from a candidate [(i, op)] on which [perform_operation] succeeded, and
    if its operator is [/] its right operand is not zero; a division whose
    right operand is zero raises inside [perform_operation]; and every
    candidate of [find_evaluatable_operations] on which [perform_operation]
    succeeds is represented in the result by an action with the same
    canonical string. *)
Lemma find_all_actions_division (tokens : list string) :
  (∀ actions a,
     find_all_actions tokens = Ok actions → a ∈ actions →
     ga_type a = "evaluate" → evaluate_of tokens a)
  ∧ (∀ i lt rt l x,
       py_index tokens (Z.of_nat i - 1) = Ok lt → float_of_str lt = Ok l →
       py_index tokens (Z.of_nat i + 1) = Ok rt → float_of_str rt = Ok x →
       feq0 x = true →
       perform_operation tokens i "/" = Raise (ValueError "Division by zero"))
  ∧ (∀ ops,
       find_evaluatable_operations tokens = Ok ops →
       ∃ actions,
         find_all_actions tokens = Ok actions
         ∧ ∀ i op res,
             (i, op) ∈ ops → perform_operation tokens i op = Ok res →
             ∃ a, a ∈ actions ∧ join (ga_result_tokens a) = join res).
Proof.
  split; [|split].
  - intros actions a Hf Ha Hty. unfold find_all_actions in Hf.
    destruct (find_evaluatable_operations tokens) as [ops|]; [|done].
    cbn [mbind result_bind] in Hf. injection Hf as <-.
    apply fold_evaluate_elem in Ha as [Ha|[_ Ha]]; [|done].
    apply fold_drop_elem in Ha as [Ha|Ha]; [|congruence].
    apply fold_distribute_elem in Ha as [Ha|Ha]; [|congruence].
    by apply elem_of_nil in Ha.
  - intros i lt rt l x. apply perform_operation_division_by_zero.
  - intros ops Hops. unfold find_all_actions. rewrite Hops.
    cbn [mbind result_bind]. eexists. split; [done|].
    intros i op res Hin Hp. eapply fold_evaluate_covers; [| |done|done].
    + apply fold_drop_keys, fold_distribute_keys.
      intros k. simpl. split; [set_solver|]. intros (a & Ha & _).
      by apply elem_of_nil in Ha.
    + eapply find_evaluatable_loop_indices; [exact Hops|].
      intros o Ho. by apply elem_of_nil in Ho.
Qed.

End available_actions.

(** An input of one token that [float] rejects passes the tokenizer and
    [validate_tokens], and the root [Node] raises when it converts it. *)
Example root_literal_rejected_by_float :
  tokenize "1.2.3" = Ok ["1.2.3"]
  ∧ validate_tokens ["1.2.3"] = Ok true
  ∧ build_summary (build_graph 1 sample_uuid4 "1.2.3" None)
    = Some (Raise (ValueError "could not convert string to float: '1.2.3'")).
Proof. vm_compute. auto. Qed.

(** ** The rewrite executors and the caller's list *)

(** C9, counterexample.  [simplify_brackets] called on a list in which
    nothing collapses returns the very object it was given (object [0] of a
    store that still has one object), not a new sequence. *)
Lemma simplify_brackets_returns_its_argument :
  simplify_brackets_obj 0 [["2"; "+"; "3"]] = (Ok 0, [["2"; "+"; "3"]]).
Proof. vm_compute. reflexivity. Qed.

Lemma preserves_refl h : preserves h h.
Proof. by intros l v. Qed.

Lemma preserves_trans h1 h2 h3 :
  preserves h1 h2 → preserves h2 h3 → preserves h1 h3.
Proof. intros H12 H23 l v Hl. by apply H23, H12. Qed.

Lemma preserves_length h h' : preserves h h' → length h ≤ length h'.
Proof.
  intros Hp. destruct (decide (length h = 0)) as [->|Hne]; [lia|].
  destruct (lookup_lt_is_Some_2 h (length h - 1)) as [x Hx]; [lia|].
  apply Hp, lookup_lt_Some in Hx. lia.
Qed.

Lemma preserves_app h ext : preserves h (h ++ ext).
Proof. intros l v Hl. by apply lookup_app_l_Some. Qed.

Lemma preserves_except_insert d (h : heap) x :
  preserves_except d h (<[d := x]> h).
Proof.
  intros l v Hne Hl. unfold loc, heap in *.
  rewrite list_lookup_insert_ne; [done|by intros ->].
Qed.

Lemma preserves_weaken d h h' : preserves h h' → preserves_except d h h'.
Proof. intros Hp l v _. apply Hp. Qed.

Lemma preserves_except_trans d h1 h2 h3 :
  preserves_except d h1 h2 → preserves_except d h2 h3 →
  preserves_except d h1 h3.
Proof. intros H12 H23 l v Hne Hl. by apply H23, H12. Qed.

Lemma preserves_except_fresh d h0 h h' :
  preserves h0 h → preserves_except d h h' → length h0 ≤ d →
  preserves h0 h'.
Proof.
  intros H0 Hex Hd l v Hl. apply Hex; [|by apply H0].
  apply lookup_lt_Some in Hl. lia.
Qed.

Lemma heap_bind_ok {A B} (m : heapM A) (f : A → heapM B) h a h' :
  m h = (Ok a, h') → (m ≫= f) h = f a h'.
Proof. intros E. unfold mbind, heapM_bind. by rewrite E. Qed.

Lemma heap_bind_raise {A B} (m : heapM A) (f : A → heapM B) h e h' :
  m h = (Raise e, h') → (m ≫= f) h = (Raise e, h').
Proof. intros E. unfold mbind, heapM_bind. by rewrite E. Qed.

Lemma heap_bind_lift {A B} (r : outcome A) (f : A → heapM B) h :
  (lift r ≫= f) h
  = match r with Ok a => f a h | Raise e => (Raise e, h) end.
Proof. unfold mbind, heapM_bind, lift. by destruct r. Qed.

Lemma contents_run h l v : h !! l = Some v → contents l h = (Ok v, h).
Proof. intros E. unfold contents. by rewrite E. Qed.

Lemma obj_index_bind {B} (f : string → heapM B) h l v i :
  h !! l = Some v →
  (obj_index l i ≫= f) h
  = match py_index v i with Ok a => f a h | Raise e => (Raise e, h) end.
Proof.
  intros E. unfold obj_index.
  unfold mbind at 1. unfold heapM_bind at 1.
  rewrite (heap_bind_ok _ _ _ _ _ (contents_run _ _ _ E)).
  unfold lift. by destruct (py_index v i).
Qed.

Lemma new_list_spec h v : returns_new h v (new_list v h).
Proof.
  exists (length h), (h ++ [v]). split; [done|]. split; [done|].
  split; [by apply list_lookup_middle|apply preserves_app].
Qed.

Lemma after_contents h l v (g : list string → list string) :
  h !! l = Some v →
  returns_new h (g v) ((w ← contents l; new_list (g w)) h).
Proof.
  intros E. rewrite (heap_bind_ok _ _ _ _ _ (contents_run _ _ _ E)).
  apply new_list_spec.
Qed.

Lemma obj_slice_spec h l v i j :
  h !! l = Some v → returns_new h (drop i (take j v)) (obj_slice l i j h).
Proof. apply (after_contents h l v (λ v, drop i (take j v))). Qed.

Lemma obj_slice_to_spec h l v j :
  h !! l = Some v → returns_new h (take j v) (obj_slice_to l j h).
Proof. apply (after_contents h l v (take j)). Qed.

Lemma obj_slice_to_Z_spec h l v j :
  h !! l = Some v → returns_new h (py_slice_to v j) (obj_slice_to_Z l j h).
Proof. apply (after_contents h l v (λ v, py_slice_to v j)). Qed.

Lemma obj_slice_from_spec h l v i :
  h !! l = Some v → returns_new h (drop i v) (obj_slice_from l i h).
Proof. apply (after_contents h l v (drop i)). Qed.

Lemma obj_concat_spec h a b va vb :
  h !! a = Some va → h !! b = Some vb →
  returns_new h (va ++ vb) (obj_concat a b h).
Proof.
  intros Ea Eb. unfold obj_concat.
  rewrite (heap_bind_ok _ _ _ _ _ (contents_run _ _ _ Ea)).
  rewrite (heap_bind_ok _ _ _ _ _ (contents_run _ _ _ Eb)).
  apply new_list_spec.
Qed.

Lemma list_append_run h l v x :
  h !! l = Some v → list_append l x h = (Ok (), <[l := v ++ [x]]> h).
Proof. intros E. unfold list_append. by rewrite E. Qed.

Lemma list_extend_run h l v s w :
  h !! l = Some v → h !! s = Some w →
  list_extend l s h = (Ok (), <[l := v ++ w]> h).
Proof. intros E1 E2. unfold list_extend. by rewrite E1, E2. Qed.

(** One step of a straight-line run: the next call allocates. *)
Ltac alloc_step S :=
  let l := fresh "l" in
  let h := fresh "h" in
  let E := fresh "E" in
  let F := fresh "F" in
  let L := fresh "L" in
  let P := fresh "P" in
  destruct S as (l & h & E & F & L & P);
  rewrite (heap_bind_ok _ _ _ _ _ E);
  pose proof (preserves_length _ _ P).

Lemma drop_brackets_obj_spec h tokens v s e :
  h !! tokens = Some v →
  returns_new h (drop_brackets v s e) (drop_brackets_obj tokens s e h).
Proof.
  intros Hv. unfold drop_brackets_obj.
  alloc_step (obj_slice_spec h tokens v (s + 1) e Hv).
  alloc_step (obj_slice_to_spec h0 tokens v s (P _ _ Hv)).
  alloc_step (obj_concat_spec h1 l0 l _ _ L0 (P0 _ _ L)).
  alloc_step (obj_slice_from_spec h2 tokens v (e + 1) (P1 _ _ (P0 _ _ (P _ _ Hv)))).
  destruct (obj_concat_spec h3 l1 l2 _ _ (P2 _ _ L1) L2)
    as (l3 & h4 & E3 & F3 & L3 & P3).
  exists l3, h4. split; [done|]. split; [lia|]. split.
  - rewrite L3. unfold drop_brackets. by rewrite <- app_assoc.
  - intros x y Hx. by apply P3, P2, P1, P0, P.
Qed.

Lemma simplify_scan_changed fuel :
  ∀ v i, (simplify_scan fuel v i true).2 = true.
Proof.
  induction fuel as [|fuel IH]; intros v i; simpl; [done|].
  destruct (i + 2 <? length v); [|done]. by destruct (collapsible v i).
Qed.

Lemma simplify_scan_obj_spec (n : nat) fuel :
  ∀ h tokens v i changed,
    n ≤ length h → h !! tokens = Some v →
    (changed = true → n ≤ tokens) →
    ∃ l h',
      simplify_scan_obj fuel tokens i changed h
      = (Ok (l, (simplify_scan fuel v i changed).2), h')
      ∧ preserves h h'
      ∧ h' !! l = Some (simplify_scan fuel v i changed).1
      ∧ (if (simplify_scan fuel v i changed).2 then n ≤ l else l = tokens).
Proof.
  induction fuel as [|fuel IH]; intros h tokens v i changed Hn Hv Hch.
  - exists tokens, h. simpl. split; [done|]. split; [apply preserves_refl|].
    split; [done|]. destruct changed; auto.
  - cbn [simplify_scan_obj simplify_scan].
    rewrite (heap_bind_ok _ _ _ _ _ (contents_run _ _ _ Hv)).
    destruct (i + 2 <? length v) eqn:Hlt.
    + destruct (collapsible v i) eqn:Hc.
      * alloc_step (obj_slice_to_spec h tokens v i Hv).
        assert (∃ b, v !! (i + 1) = Some b) as [b Hb].
        { apply lookup_lt_is_Some_2. apply Nat.ltb_lt in Hlt. lia. }
        rewrite (obj_index_bind _ _ _ _ _ (P _ _ Hv)).
        rewrite (py_index_nat _ _ _ Hb).
        alloc_step (new_list_spec h0 [b]).
        alloc_step (obj_concat_spec h1 l l0 _ _ (P0 _ _ L) L0).
        alloc_step (obj_slice_from_spec h2 tokens v (i + 3)
                      (P1 _ _ (P0 _ _ (P _ _ Hv)))).
        alloc_step (obj_concat_spec h3 l1 l2 _ _ (P2 _ _ L1) L2).
        assert (Hcol : (take i v ++ [b]) ++ drop (i + 3) v = collapse_at v i).
        { unfold collapse_at. rewrite Hb. by rewrite <- app_assoc. }
        rewrite Hcol in L3.
        destruct (IH h4 l3 (collapse_at v i) i true ltac:(lia) L3 ltac:(lia))
          as (l' & h' & E' & P' & L' & C').
        rewrite simplify_scan_changed in C'.
        exists l', h'. split; [done|]. split.
        { intros x y Hx. by apply P', P3, P2, P1, P0, P. }
        split; [done|]. by rewrite simplify_scan_changed.
      * by apply IH.
    + exists tokens, h. split; [done|]. split; [apply preserves_refl|].
      split; [done|]. simpl. destruct changed; auto.
Qed.

Lemma simplify_loop_obj_spec (n : nat) fuel :
  ∀ h tokens v,
    n ≤ length h → h !! tokens = Some v →
    ∃ l h',
      simplify_loop_obj fuel tokens h = (Ok l, h')
      ∧ preserves h h'
      ∧ h' !! l = Some (simplify_loop fuel v)
      ∧ (l = tokens ∨ n ≤ l)
      ∧ (no_collapsible v → l = tokens)
      ∧ (0 < fuel → ¬ no_collapsible v → n ≤ l).
Proof.
  induction fuel as [|fuel IH]; intros h tokens v Hn Hv.
  - exists tokens, h. simpl. split; [done|]. split; [apply preserves_refl|].
    split; [done|]. split; [by left|]. split; [done|lia].
  - cbn [simplify_loop_obj simplify_loop].
    rewrite (heap_bind_ok _ _ _ _ _ (contents_run _ _ _ Hv)).
    destruct (simplify_scan_obj_spec n (length v) h tokens v 0 false Hn Hv
                ltac:(done)) as (l1 & h1 & E1 & P1 & L1 & C1).
    rewrite (heap_bind_ok _ _ _ _ _ E1).
    pose proof (simplify_scan_spec (length v) v 0 false ltac:(lia)) as Hspec.
    pose proof (simplify_scan_clean (length v) v 0 false) as Hclean.
    destruct (simplify_scan (length v) v 0 false) as [v1 c1].
    cbn [fst snd] in *. destruct c1.
    + pose proof (preserves_length _ _ P1).
      destruct (IH h1 l1 v1 ltac:(lia) L1) as (l & h' & E & P & L & C & _).
      exists l, h'. split; [done|]. split; [by eapply preserves_trans|].
      split; [done|]. split; [right; lia|]. split; [|lia].
      intros Hno. specialize (Hclean ltac:(intros j _; apply Hno)).
      congruence.
    + subst l1. exists tokens, h1. split; [done|]. split; [done|].
      split; [done|]. split; [by left|]. split; [done|].
      intros _ Hnot. destruct Hspec as [[_ Hno]|[? _]]; [|done].
      destruct Hnot. intros j. apply Hno. lia.
Qed.

Lemma simplify_brackets_obj_spec h tokens v :
  h !! tokens = Some v →
  ∃ l h',
    simplify_brackets_obj tokens h = (Ok l, h')
    ∧ preserves h h'
    ∧ h' !! l = Some (simplify_brackets v)
    ∧ (no_collapsible v → l = tokens)
    ∧ (¬ no_collapsible v → length h ≤ l).
Proof.
  intros Hv. unfold simplify_brackets_obj.
  rewrite (heap_bind_ok _ _ _ _ _ (contents_run _ _ _ Hv)).
  destruct (simplify_loop_obj_spec (length h) (S (length v)) h tokens v
              ltac:(done) Hv) as (l & h' & E & P & L & _ & C1 & C2).
  exists l, h'. repeat (split; [done|]). intros Hnot. apply C2; [lia|done].
Qed.

Section store_float.
Context `{FloatModel}.

Lemma perform_operation_obj_spec h tokens v i op :
  h !! tokens = Some v →
  match perform_operation v i op with
  | Ok r => returns_new h r (perform_operation_obj tokens i op h)
  | Raise e => raises_clean h e (perform_operation_obj tokens i op h)
  end.
Proof.
  intros Hv. unfold perform_operation, perform_operation_obj.
  rewrite (obj_index_bind _ _ _ _ _ Hv).
  destruct (py_index v (Z.of_nat i - 1)) as [lt|e]; cbn [mbind result_bind];
    [|exists h; split; [done|apply preserves_refl]].
  rewrite heap_bind_lift.
  destruct (float_of_str lt) as [x|e]; cbn [mbind result_bind];
    [|exists h; split; [done|apply preserves_refl]].
  rewrite (obj_index_bind _ _ _ _ _ Hv).
  destruct (py_index v (Z.of_nat i + 1)) as [rt|e]; cbn [mbind result_bind];
    [|exists h; split; [done|apply preserves_refl]].
  rewrite heap_bind_lift.
  destruct (float_of_str rt) as [y|e]; cbn [mbind result_bind];
    [|exists h; split; [done|apply preserves_refl]].
  rewrite heap_bind_lift.
  destruct (apply_operator op x y) as [z|e]; cbn [mbind result_bind];
    [|exists h; split; [done|apply preserves_refl]].
  rewrite heap_bind_lift.
  destruct (format_result z) as [s|e]; cbn [mbind result_bind];
    [|exists h; split; [done|apply preserves_refl]].
  alloc_step (obj_slice_to_Z_spec h tokens v (Z.of_nat i - 1) Hv).
  alloc_step (new_list_spec h0 [s]).
  alloc_step (obj_concat_spec h1 l l0 _ _ (P0 _ _ L) L0).
  alloc_step (obj_slice_from_spec h2 tokens v (i + 2)
                (P1 _ _ (P0 _ _ (P _ _ Hv)))).
  alloc_step (obj_concat_spec h3 l1 l2 _ _ (P2 _ _ L1) L2).
  destruct (simplify_loop_obj_spec (length h) (S (length
              ((py_slice_to v (Z.of_nat i - 1) ++ [s]) ++ drop (i + 2) v)))
              h4 l3 _ ltac:(lia) L3) as (l' & h' & E' & P' & L' & C' & _).
  unfold simplify_brackets_obj.
  rewrite (heap_bind_ok _ _ _ _ _ (contents_run _ _ _ L3)).
  exists l', h'. split; [done|]. split; [destruct C'; lia|]. split.
  - rewrite L'. unfold simplify_brackets. by rewrite <- !app_assoc.
  - intros a b Ha. by apply P', P3, P2, P1, P0, P.
Qed.

End store_float.

Lemma new_terms_spec (terms : list (string * list string)) :
  ∀ h, ∃ ls h',
    new_terms terms h = (Ok ls, h')
    ∧ preserves h h'
    ∧ Forall2 (λ t sl, sl.1 = t.1 ∧ h' !! sl.2 = Some t.2) terms ls.
Proof.
  induction terms as [|[sign term] terms IH]; intros h.
  - exists [], h. split; [done|]. split; [apply preserves_refl|constructor].
  - cbn [new_terms].
    destruct (new_list_spec h term) as (l & h0 & E & F & L & P).
    rewrite (heap_bind_ok _ _ _ _ _ E).
    destruct (IH h0) as (ls & h' & E' & P' & Hall).
    rewrite (heap_bind_ok _ _ _ _ _ E').
    exists ((sign, l) :: ls), h'. split; [done|].
    split; [by eapply preserves_trans|].
    constructor; [|done]. split; [done|]. by apply P'.
Qed.

Lemma list_append_spec d h acc x :
  h !! d = Some acc →
  ∃ h', list_append d x h = (Ok (), h')
        ∧ h' !! d = Some (acc ++ [x]) ∧ preserves_except d h h'.
Proof.
  intros Hd. exists (<[d := acc ++ [x]]> h).
  split; [by apply list_append_run|]. split.
  - unfold loc, heap in *. apply list_lookup_insert_eq.
    by apply lookup_lt_Some in Hd.
  - apply preserves_except_insert.
Qed.

Lemma list_extend_spec d s h acc w :
  h !! d = Some acc → h !! s = Some w →
  ∃ h', list_extend d s h = (Ok (), h')
        ∧ h' !! d = Some (acc ++ w) ∧ preserves_except d h h'.
Proof.
  intros Hd Hs. exists (<[d := acc ++ w]> h).
  split; [by apply list_extend_run|]. split.
  - unfold loc, heap in *. apply list_lookup_insert_eq.
    by apply lookup_lt_Some in Hd.
  - apply preserves_except_insert.
Qed.

Lemma fresh_ne (h : heap) (d l : loc) (x : list string) :
  h !! d = Some x → length h ≤ l → l ≠ d.
Proof. intros Hd%lookup_lt_Some ?. lia. Qed.

Lemma extend_wrapped_spec d t h acc vt :
  h !! d = Some acc → h !! t = Some vt → t ≠ d →
  ∃ h', extend_wrapped d t h = (Ok (), h')
        ∧ h' !! d = Some (acc ++ wrap_term vt) ∧ preserves_except d h h'.
Proof.
  intros Hd Ht Hne. unfold extend_wrapped, wrap_term.
  rewrite (heap_bind_ok _ _ _ _ _ (contents_run _ _ _ Ht)).
  destruct (_ || _).
  - alloc_step (new_list_spec h ["("]).
    alloc_step (obj_concat_spec h0 l t _ _ L (P _ _ Ht)).
    alloc_step (new_list_spec h1 [")"]).
    alloc_step (obj_concat_spec h2 l0 l1 _ _ (P1 _ _ L0) L1).
    destruct (list_extend_spec d l2 h3 acc _
                (P2 _ _ (P1 _ _ (P0 _ _ (P _ _ Hd)))) L2)
      as (h' & E' & L' & P').
    exists h'. split; [done|]. split.
    + rewrite L'. by rewrite <- !app_assoc.
    + intros a b Ha Hb. apply P'; [done|]. by apply P2, P1, P0, P.
  - by apply list_extend_spec.
Qed.

Lemma term_locs_transport d (h h' : heap)
    (terms : list (string * list string)) (ls : list (string * loc)) :
  preserves_except d h h' →
  Forall2 (λ t sl, sl.1 = t.1 ∧ sl.2 ≠ d ∧ h !! sl.2 = Some t.2) terms ls →
  Forall2 (λ t sl, sl.1 = t.1 ∧ sl.2 ≠ d ∧ h' !! sl.2 = Some t.2) terms ls.
Proof.
  intros Hp Hall. eapply Forall2_impl; [exact Hall|].
  intros t sl (? & ? & ?).
  split; [done|]. split; [done|]. by apply Hp.
Qed.

Lemma distribute_terms_obj_spec (op_side outer_operator : string)
    (o d : loc) (w : list string) (terms : list (string * list string)) :
  ∀ ls i h acc,
    Forall2 (λ t sl, sl.1 = t.1 ∧ sl.2 ≠ d ∧ h !! sl.2 = Some t.2) terms ls →
    h !! d = Some acc → h !! o = Some w → o ≠ d →
    ∃ h',
      distribute_terms_obj op_side outer_operator o ls i d h = (Ok (), h')
      ∧ h' !! d
        = Some (distribute_terms op_side outer_operator w terms i acc)
      ∧ preserves_except d h h'.
Proof.
  induction terms as [|[sign term] terms IH];
    intros ls i h acc Hall Hd Ho Hne.
  - apply Forall2_nil_inv_l in Hall as ->.
    exists h. split; [done|]. split; [done|]. by intros l v _.
  - apply Forall2_cons_inv_l in Hall
      as ([sign' lt] & ls' & (Hs & Hlt & Hterm) & Hall & ->).
    cbn [fst snd] in Hs, Hlt, Hterm. subst sign'.
    cbn [distribute_terms_obj distribute_terms].
    (* the sign between two terms *)
    assert (∃ h1,
      (if 0 <? i then list_append d sign else mret ()) h = (Ok (), h1)
      ∧ h1 !! d = Some (if 0 <? i then acc ++ [sign] else acc)
      ∧ preserves_except d h h1) as (h1 & E1 & L1 & P1).
    { destruct (0 <? i).
      - by apply list_append_spec.
      - exists h. split; [done|]. split; [done|]. by intros l v _. }
    rewrite (heap_bind_ok _ _ _ _ _ E1).
    (* the first term under a minus sign *)
    set (term' :=
      if negb (0 <? i) && String.eqb sign "-" then
        match term with
        | t :: _ =>
            if negb (tok_in t ["+"; "-"]) then ["-"] ++ term else term
        | [] => term
        end
      else term).
    assert (∃ lt' h2,
      (if negb (0 <? i) && String.eqb sign "-" then
         v ← contents lt;
         match v with
         | t :: _ =>
             if negb (tok_in t ["+"; "-"]) then
               m ← new_list ["-"]; obj_concat m lt
             else mret lt
         | [] => mret lt
         end
       else mret lt) h1 = (Ok lt', h2)
      ∧ h2 !! lt' = Some term' ∧ lt' ≠ d ∧ preserves h1 h2)
      as (lt' & h2 & E2 & L2 & Hne2 & P2).
    { subst term'. destruct (negb (0 <? i) && String.eqb sign "-").
      - rewrite (heap_bind_ok _ _ _ _ _
                   (contents_run _ _ _ (P1 _ _ Hlt Hterm))).
        destruct term as [|t term].
        + exists lt, h1. split; [done|]. split; [by apply P1|].
          split; [done|apply preserves_refl].
        + destruct (negb (tok_in t ["+"; "-"])).
          * alloc_step (new_list_spec h1 ["-"]).
            destruct (obj_concat_spec h0 l lt _ _ L (P _ _ (P1 _ _ Hlt Hterm)))
              as (l0 & h2 & E0 & F0 & L0 & P0).
            exists l0, h2. split; [done|]. split; [done|]. split.
            -- eapply (fresh_ne h0); [apply P; exact L1|done].
            -- by eapply preserves_trans.
          * exists lt, h1. split; [done|]. split; [by apply P1|].
            split; [done|apply preserves_refl].
      - exists lt, h1. split; [done|]. split; [by apply P1|].
        split; [done|apply preserves_refl]. }
    rewrite (heap_bind_ok _ _ _ _ _ E2).
    fold term'.
    assert (Hd2 : h2 !! d = Some (if 0 <? i then acc ++ [sign] else acc))
      by (by apply P2).
    assert (Ho2 : h2 !! o = Some w) by (by apply P2, P1).
    assert (∃ h3,
      (if String.eqb op_side "right" then
         _ ← extend_wrapped d lt';
         _ ← list_append d outer_operator;
         list_extend d o
       else
         _ ← list_extend d o;
         _ ← list_append d outer_operator;
         extend_wrapped d lt') h2 = (Ok (), h3)
      ∧ h3 !! d
        = Some (if String.eqb op_side "right" then
                  (if 0 <? i then acc ++ [sign] else acc)
                    ++ wrap_term term' ++ [outer_operator] ++ w
                else
                  (if 0 <? i then acc ++ [sign] else acc)
                    ++ w ++ [outer_operator] ++ wrap_term term')
      ∧ preserves_except d h2 h3) as (h3 & E3 & L3 & P3).
    { destruct (String.eqb op_side "right").
      - destruct (extend_wrapped_spec d lt' h2 _ _ Hd2 L2 Hne2)
          as (ha & Ea & La & Pa).
        rewrite (heap_bind_ok _ _ _ _ _ Ea).
        destruct (list_append_spec d ha _ outer_operator La)
          as (hb & Eb & Lb & Pb).
        rewrite (heap_bind_ok _ _ _ _ _ Eb).
        destruct (list_extend_spec d o hb _ w Lb
                    (Pb _ _ Hne (Pa _ _ Hne Ho2)))
          as (hc & Ec & Lc & Pc).
        exists hc. split; [done|]. split.
        + rewrite Lc. by rewrite <- !app_assoc.
        + intros l v Hl Hv. by apply Pc, Pb, Pa.
      - destruct (list_extend_spec d o h2 _ w Hd2 Ho2)
          as (ha & Ea & La & Pa).
        rewrite (heap_bind_ok _ _ _ _ _ Ea).
        destruct (list_append_spec d ha _ outer_operator La)
          as (hb & Eb & Lb & Pb).
        rewrite (heap_bind_ok _ _ _ _ _ Eb).
        destruct (extend_wrapped_spec d lt' hb _ _ Lb
                    (Pb _ _ Hne2 (Pa _ _ Hne2 L2)) Hne2)
          as (hc & Ec & Lc & Pc).
        exists hc. split; [done|]. split.
        + rewrite Lc. by rewrite <- !app_assoc.
        + intros l v Hl Hv. by apply Pc, Pb, Pa. }
    rewrite (heap_bind_ok _ _ _ _ _ E3).
    assert (P13 : preserves_except d h h3).
    { intros l v Hl Hv. apply P3; [done|]. apply P2. by apply P1. }
    destruct (IH ls' (i + 1) h3 _ (term_locs_transport _ _ _ _ _ P13 Hall)
                L3 (P13 _ _ Hne Ho) Hne) as (h' & E' & L' & P').
    exists h'. split; [done|]. split; [done|].
    by eapply preserves_except_trans.
Qed.

Lemma distribute_bracket_obj_spec h tokens v operand w s e side opi :
  h !! tokens = Some v → h !! operand = Some w →
  match distribute_bracket v s e side opi w with
  | Ok (Some r) =>
      ∃ l h', distribute_bracket_obj tokens s e side opi operand h
              = (Ok (Some l), h')
              ∧ length h ≤ l ∧ h' !! l = Some r ∧ preserves h h'
  | Ok None =>
      ∃ h', distribute_bracket_obj tokens s e side opi operand h
            = (Ok None, h')
            ∧ preserves h h'
  | Raise x =>
      raises_clean h x (distribute_bracket_obj tokens s e side opi operand h)
  end.
Proof.
  intros Hv Hw. unfold distribute_bracket, distribute_bracket_obj.
  alloc_step (obj_slice_spec h tokens v (s + 1) e Hv).
  rewrite (obj_index_bind _ _ _ _ _ (P _ _ Hv)).
  destruct (py_index v (Z.of_nat opi)) as [op|x]; cbn [mbind result_bind];
    [|by exists h0].
  rewrite (heap_bind_ok _ _ _ _ _ (contents_run _ _ _ L)).
  unfold get_bracket_content.
  set (terms := parse_bracket_terms (drop (s + 1) (take e v)) false).
  destruct (new_terms_spec terms h0) as (ls & h1 & E1 & P1 & Hall).
  rewrite (heap_bind_ok _ _ _ _ _ E1).
  rewrite <- (Forall2_length _ _ _ Hall).
  destruct (length terms <=? 1).
  { exists h1. split; [done|]. by eapply preserves_trans. }
  pose proof (preserves_length _ _ P1).
  alloc_step (new_list_spec h1 []).
  assert (Hall2 : Forall2 (λ t sl, sl.1 = t.1 ∧ sl.2 ≠ l0
                                   ∧ h2 !! sl.2 = Some t.2) terms ls).
  { eapply Forall2_impl; [exact Hall|]. intros t sl [? Hsl].
    split; [done|]. split; [|by apply P0].
    apply lookup_lt_Some in Hsl. lia. }
  assert (Hv2 : h2 !! tokens = Some v) by (by apply P0, P1, P).
  assert (Hw2 : h2 !! operand = Some w) by (by apply P0, P1, P).
  assert (Hlt : tokens < length h) by (by apply lookup_lt_Some in Hv).
  assert (Hlo : operand < length h) by (by apply lookup_lt_Some in Hw).
  destruct (distribute_terms_obj_spec side op operand l0 w terms ls 0 h2 []
              Hall2 L0 Hw2 ltac:(lia)) as (h3 & E3 & L3 & P3).
  rewrite (heap_bind_ok _ _ _ _ _ E3).
  set (inner := distribute_terms side op w terms 0 []) in *.
  assert (P03 : preserves h h3).
  { eapply (preserves_except_fresh l0 h h2 h3); [|done|lia].
    intros a b Ha. by apply P0, P1, P. }
  pose proof (preserves_length _ _ P03).
  assert (Hv3 : h3 !! tokens = Some v) by (by apply P03).
  alloc_step (new_list_spec h3 ["("]).
  alloc_step (obj_concat_spec h4 l1 l0 _ _ L1 (P2 _ _ L3)).
  alloc_step (new_list_spec h5 [")"]).
  alloc_step (obj_concat_spec h6 l2 l3 _ _ (P5 _ _ L2) L4).
  assert (Hv7 : h7 !! tokens = Some v) by (by apply P6, P5, P4, P2).
  rewrite (heap_bind_ok _ _ _ _ _ (contents_run _ _ _ Hv7)).
  destruct (String.eqb side "right").
  - alloc_step (obj_slice_to_spec h7 tokens v s Hv7).
    rewrite (obj_index_bind _ _ _ _ _ (P7 _ _ Hv7)).
    destruct (py_index v (Z.of_nat (opi + 1))) as [t|x];
      cbn [mbind result_bind].
    2:{ exists h8. split; [done|]. intros a b Ha.
        by apply P7, P6, P5, P4, P2, P03. }
    set (after :=
      if tok_in t OPEN_BRACKETS
      then drop (scan_forward (length v) v (opi + 1 + 1) 1) v
      else drop (opi + 1 + 1) v).
    assert (returns_new h8 after
      ((if tok_in t OPEN_BRACKETS
        then obj_slice_from tokens
               (scan_forward (length v) v (opi + 1 + 1) 1)
        else obj_slice_from tokens (opi + 1 + 1)) h8)) as Hafter.
    { subst after. destruct (tok_in t OPEN_BRACKETS);
        apply obj_slice_from_spec; by apply P7. }
    alloc_step Hafter.
    alloc_step (obj_concat_spec h9 l5 l4 _ _ (P8 _ _ L6) (P8 _ _ (P7 _ _ L5))).
    destruct (obj_concat_spec h10 l7 l6 _ _ L8 (P9 _ _ L7))
      as (lr & hr & Er & Fr & Lr & Pr).
    rewrite (heap_bind_ok _ _ _ _ _ Er).
    exists lr, hr. split; [done|]. split; [lia|]. split.
    + rewrite Lr. by rewrite <- !app_assoc.
    + intros a b Ha. by apply Pr, P9, P8, P7, P6, P5, P4, P2, P03.
  - rewrite (obj_index_bind _ _ _ _ _ Hv7).
    destruct (py_index v (Z.of_nat opi - 1)) as [t|x];
      cbn [mbind result_bind].
    2:{ exists h7. split; [done|]. intros a b Ha.
        by apply P6, P5, P4, P2, P03. }
    set (before :=
      if tok_in t CLOSE_BRACKETS
      then py_slice_to v
             (scan_backward (length v) v (Z.of_nat opi - 1 - 1) 1 + 1)
      else py_slice_to v (Z.of_nat opi - 1)).
    assert (returns_new h7 before
      ((if tok_in t CLOSE_BRACKETS
        then obj_slice_to_Z tokens
               (scan_backward (length v) v (Z.of_nat opi - 1 - 1) 1 + 1)
        else obj_slice_to_Z tokens (Z.of_nat opi - 1)) h7)) as Hbefore.
    { subst before. destruct (tok_in t CLOSE_BRACKETS);
        by apply obj_slice_to_Z_spec. }
    alloc_step Hbefore.
    alloc_step (obj_slice_from_spec h8 tokens v (e + 1) (P7 _ _ Hv7)).
    alloc_step (obj_concat_spec h9 l5 l4 _ _ (P8 _ _ L6) (P8 _ _ (P7 _ _ L5))).
    destruct (obj_concat_spec h10 l7 l6 _ _ L8 (P9 _ _ L7))
      as (lr & hr & Er & Fr & Lr & Pr).
    rewrite (heap_bind_ok _ _ _ _ _ Er).
    exists lr, hr. split; [done|]. split; [lia|]. split.
    + rewrite Lr. by rewrite <- !app_assoc.
    + intros a b Ha. by apply Pr, P9, P8, P7, P6, P5, P4, P2, P03.
Qed.

(** C9, as amended.  Run on a store in which [tokens] names a list holding
    [v], each executor computes what its functional reading computes and
    leaves every list of the store, the caller's included, as it was.
    [drop_brackets], [perform_operation] and [distribute_bracket] return a
    list object that did not exist before the call ([perform_operation] can
    raise instead, [distribute_bracket] can raise or return [None]).
    [simplify_brackets] returns a new object exactly when some bracket pair
    collapses; when none does it returns the caller's own list. *)
Theorem executors_leave_input_unchanged `{FloatModel} (h : heap)
    (tokens : loc) (v : list string) :
  h !! tokens = Some v →
  (∀ s e,
     returns_new h (drop_brackets v s e) (drop_brackets_obj tokens s e h))
  ∧ (∀ i op,
       match perform_operation v i op with
       | Ok r => returns_new h r (perform_operation_obj tokens i op h)
       | Raise x => raises_clean h x (perform_operation_obj tokens i op h)
       end)
  ∧ (∀ s e side opi operand w,
       h !! operand = Some w →
       match distribute_bracket v s e side opi w with
       | Ok (Some r) =>
           ∃ l h', distribute_bracket_obj tokens s e side opi operand h
                   = (Ok (Some l), h')
                   ∧ length h ≤ l ∧ h' !! l = Some r ∧ preserves h h'
       | Ok None =>
           ∃ h', distribute_bracket_obj tokens s e side opi operand h
                 = (Ok None, h')
                 ∧ preserves h h'
       | Raise x =>
           raises_clean h x
             (distribute_bracket_obj tokens s e side opi operand h)
       end)
  ∧ (∃ l h',
       simplify_brackets_obj tokens h = (Ok l, h')
       ∧ preserves h h'
       ∧ h' !! l = Some (simplify_brackets v)
       ∧ (no_collapsible v → l = tokens)
       ∧ (¬ no_collapsible v → length h ≤ l)).
Proof.
  intros Hv. split; [|split; [|split]].
  - intros s e. by apply drop_brackets_obj_spec.
  - intros i op. by apply perform_operation_obj_spec.
  - intros s e side opi operand w Hw. by apply distribute_bracket_obj_spec.
  - by apply simplify_brackets_obj_spec.
Qed.

Lemma executors_leave_input_unchanged_witness :
  returns_new [["("; "2"; "+"; "3"; ")"; "*"; "5"]]
    ["2"; "+"; "3"; "*"; "5"]
    (drop_brackets_obj 0 0 4 [["("; "2"; "+"; "3"; ")"; "*"; "5"]]).
Proof.
  exact (proj1 (executors_leave_input_unchanged (H := IntFragment)
                  [["("; "2"; "+"; "3"; ")"; "*"; "5"]] 0
                  ["("; "2"; "+"; "3"; ")"; "*"; "5"] eq_refl) 0 4).
Defined.

(** ** Well-formed token sequences *)

#[local] Arguments needs_operand : simpl never.
#[local] Arguments starts_operand : simpl never.

Lemma follows_ok_app (a b : list string) (f : bool) :
  follows_ok (a ++ b) f
  = follows_ok a (match b with y :: _ => starts_operand y | [] => f end)
    && follows_ok b f.
Proof.
  induction a as [|x a IH]; [done|].
  cbn [app follows_ok]. rewrite IH. destruct a as [|y a].
  - cbn [app follows_ok]. by rewrite andb_true_r.
  - cbn [app]. by rewrite andb_assoc.
Qed.

Lemma follows_ok_true (a : list string) (g : bool) :
  follows_ok a g = true → follows_ok a true = true.
Proof.
  induction a as [|x a IH]; [done|]. cbn [follows_ok].
  intros [H1 H2]%andb_true_iff. rewrite (IH H2), andb_true_r.
  destruct a; [|done]. destruct (negb (needs_operand x)); [done|].
  done.
Qed.

Lemma follows_ok_weaken (a : list string) (g : bool) :
  follows_ok a false = true → follows_ok a g = true.
Proof.
  destruct g; [apply follows_ok_true|done].
Qed.

Lemma follows_ok_take (l : list string) (f : bool) (k : nat) :
  follows_ok l f = true → follows_ok (take k l) true = true.
Proof.
  rewrite <- (take_drop k l) at 1. rewrite follows_ok_app.
  intros [H _]%andb_true_iff. by eapply follows_ok_true.
Qed.

Lemma follows_ok_drop (l : list string) (f : bool) (k : nat) :
  follows_ok l f = true → follows_ok (drop k l) f = true.
Proof.
  rewrite <- (take_drop k l) at 1. rewrite follows_ok_app.
  by intros [_ H]%andb_true_iff.
Qed.

Lemma follows_ok_closed (a : list string) (x : string) (g : bool) :
  follows_ok (a ++ [x]) g = true → needs_operand x = false →
  follows_ok (a ++ [x]) false = true.
Proof.
  rewrite !follows_ok_app. cbn [follows_ok]. intros H Hx.
  rewrite Hx. apply andb_true_iff in H as [-> _]. done.
Qed.

Lemma well_formed_inv (tokens : list string) :
  well_formed tokens = true →
  ∃ t rest, tokens = t :: rest ∧ starts_operand t = true
            ∧ follows_ok tokens false = true.
Proof.
  destruct tokens as [|t rest]; [done|]. unfold well_formed.
  intros [? ?]%andb_true_iff. by exists t, rest.
Qed.

Lemma well_formed_intro (t : string) (rest : list string) :
  starts_operand t = true → follows_ok (t :: rest) false = true →
  well_formed (t :: rest) = true.
Proof. intros H1 H2. unfold well_formed. by rewrite H1, H2. Qed.

(** Replacing a segment of a well-formed sequence by a well-formed
    sequence gives a well-formed sequence. *)
Lemma well_formed_splice (tokens mid : list string) (k m : nat) :
  well_formed tokens = true → well_formed mid = true →
  well_formed (take k tokens ++ mid ++ drop m tokens) = true.
Proof.
  intros (t & rest & -> & Ht & Hok)%well_formed_inv
         (y & mid' & -> & Hy & Hmid)%well_formed_inv.
  assert (Hall : follows_ok (take k (t :: rest) ++ (y :: mid')
                               ++ drop m (t :: rest)) false = true).
  { rewrite follows_ok_app. cbn [app]. rewrite Hy.
    rewrite (follows_ok_take _ _ _ Hok). cbn [andb].
    change (y :: mid' ++ drop m (t :: rest))
      with ((y :: mid') ++ drop m (t :: rest)).
    rewrite follows_ok_app, (follows_ok_weaken _ _ Hmid).
    by rewrite (follows_ok_drop _ _ _ Hok). }
  destruct k as [|k].
  - cbn [take app] in *. by apply well_formed_intro.
  - cbn [take app] in *. by apply well_formed_intro.
Qed.

Lemma closing_not_start (c : string) :
  tok_in c CLOSE_BRACKETS = true → starts_operand c = false.
Proof.
  intros H. unfold starts_operand. by rewrite H, orb_true_r.
Qed.

Lemma operator_not_start (op : string) :
  tok_in op operators = true → starts_operand op = false.
Proof. intros H. unfold starts_operand. by rewrite H. Qed.

Lemma operator_needs_operand (op : string) :
  tok_in op operators = true → needs_operand op = true.
Proof. intros H. unfold needs_operand. by rewrite H. Qed.

Lemma opening_needs_operand (o : string) :
  tok_in o OPEN_BRACKETS = true → needs_operand o = true.
Proof. intros H. unfold needs_operand. by rewrite H, orb_true_r. Qed.

Lemma opening_starts_operand (o : string) :
  tok_in o OPEN_BRACKETS = true → starts_operand o = true.
Proof.
  intros H%tok_in_true. unfold OPEN_BRACKETS in H.
  repeat (apply elem_of_cons in H as [->|H]; [by vm_compute|]).
  by apply elem_of_nil in H.
Qed.

Lemma closing_needs_nothing (c : string) :
  tok_in c CLOSE_BRACKETS = true → needs_operand c = false.
Proof.
  intros H%tok_in_true. unfold CLOSE_BRACKETS in H.
  repeat (apply elem_of_cons in H as [->|H]; [by vm_compute|]).
  by apply elem_of_nil in H.
Qed.

(** A token that is neither a bracket nor an operator. *)
Lemma literal_classes (s : string) :
  tok_in s (all_brackets ++ operators) = false →
  starts_operand s = true ∧ needs_operand s = false.
Proof.
  unfold tok_in, all_brackets, starts_operand, needs_operand, tok_in.
  rewrite !existsb_app. intros H.
  apply orb_false_iff in H as [H1 H3].
  apply orb_false_iff in H1 as [H1 H2].
  by rewrite H1, H2, H3.
Qed.

Lemma well_formed_literal (s : string) :
  tok_in s (all_brackets ++ operators) = false → well_formed [s] = true.
Proof.
  intros [H1 H2]%literal_classes. unfold well_formed. cbn [follows_ok].
  by rewrite H1, H2.
Qed.

(** The two tokens around a position of a sequence, as a decomposition. *)
Lemma split_at_pair {A} (l : list A) (s e : nat) (o c : A) :
  l !! s = Some o → l !! e = Some c → s < e →
  l = take s l ++ o :: drop (s + 1) (take e l) ++ c :: drop (e + 1) l.
Proof.
  intros Hs He Hlt.
  rewrite <- (take_drop_middle l e c He) at 1.
  assert (Hs' : take e l !! s = Some o) by (by rewrite lookup_take_lt).
  rewrite <- (take_drop_middle (take e l) s o Hs') at 1.
  rewrite take_take, Nat.min_l by lia.
  rewrite <- app_assoc. cbn [app].
  by rewrite !Nat.add_1_r.
Qed.

(** What a bracket pair of a well-formed sequence encloses is well-formed. *)
Lemma well_formed_inside (tokens : list string) (s e : nat) (o c : string) :
  well_formed tokens = true →
  tokens !! s = Some o → tok_in o OPEN_BRACKETS = true →
  tokens !! e = Some c → starts_operand c = false → s < e →
  well_formed (drop (s + 1) (take e tokens)) = true.
Proof.
  intros (t & rest & Heq & _ & Hok)%well_formed_inv Hs Ho He Hc Hlt.
  rewrite (split_at_pair _ _ _ _ _ Hs He Hlt) in Hok.
  set (inner := drop (s + 1) (take e tokens)) in *.
  rewrite follows_ok_app in Hok. apply andb_true_iff in Hok as [_ Hok].
  cbn [follows_ok] in Hok. rewrite (opening_needs_operand _ Ho) in Hok.
  destruct inner as [|y inner'].
  - cbn [app negb orb] in Hok. by rewrite Hc in Hok.
  - cbn [app negb orb] in Hok. apply andb_true_iff in Hok as [Hy Hok].
    change (y :: inner' ++ c :: drop (e + 1) tokens)
      with ((y :: inner') ++ c :: drop (e + 1) tokens) in Hok.
    rewrite follows_ok_app, Hc in Hok.
    apply andb_true_iff in Hok as [Hin _]. by apply well_formed_intro.
Qed.

(** [drop_brackets] on a bracket pair. *)
Lemma drop_brackets_well_formed (tokens : list string) (s e : nat)
    (o c : string) :
  well_formed tokens = true →
  tokens !! s = Some o → tok_in o OPEN_BRACKETS = true →
  tokens !! e = Some c → tok_in c CLOSE_BRACKETS = true → s < e →
  well_formed (drop_brackets tokens s e) = true.
Proof.
  intros Hwf Hs Ho He Hc Hlt. unfold drop_brackets.
  apply well_formed_splice; [done|].
  eapply well_formed_inside; eauto using closing_not_start.
Qed.

(** *** Bracket groups *)

Lemma insert_group_elem (g x : nat * nat) (l : list (nat * nat)) :
  x ∈ insert_group g l ↔ x = g ∨ x ∈ l.
Proof.
  induction l as [|h t IH]; cbn [insert_group].
  - rewrite list_elem_of_singleton. split; [by left|].
    intros [?|Hnil]; [done|]. by apply elem_of_nil in Hnil.
  - destruct (key_le _ _).
    + rewrite !elem_of_cons, IH. tauto.
    + rewrite !elem_of_cons. tauto.
Qed.

Lemma sort_groups_elem (x : nat * nat) (l : list (nat * nat)) :
  x ∈ sort_groups l ↔ x ∈ l.
Proof.
  unfold sort_groups.
  assert (∀ acc, x ∈ fold_left (λ acc g, insert_group g acc) l acc
                 ↔ x ∈ l ∨ x ∈ acc) as H.
  { induction l as [|g l IH]; intros acc; cbn [fold_left].
    - split; [by right|]. intros [Hnil|?]; [|done].
      by apply elem_of_nil in Hnil.
    - rewrite IH, insert_group_elem, elem_of_cons. tauto. }
  rewrite H. split; [|by left]. intros [?|Hnil]; [done|].
  by apply elem_of_nil in Hnil.
Qed.

Lemma drop_cons_inv {A} (l : list A) (i : nat) (x : A) (rest : list A) :
  x :: rest = drop i l → l !! i = Some x ∧ rest = drop (i + 1) l.
Proof.
  intros Hrest. split.
  - rewrite <- (Nat.add_0_r i), <- lookup_drop, <- Hrest. done.
  - rewrite <- drop_drop, <- Hrest. done.
Qed.

(** A pair of positions that delimits a bracket group: an opening bracket
    at the first, a closing bracket at the second. *)
Lemma find_nested_groups_brackets (tokens : list string) :
  ∀ rest i stack groups,
    rest = drop i tokens →
    (∀ t k, (t, k) ∈ stack →
            k < i ∧ tokens !! k = Some t ∧ tok_in t OPEN_BRACKETS = true) →
    ∀ s e, (s, e) ∈ find_nested_groups rest i stack groups →
      (s, e) ∈ groups
      ∨ (s < e
         ∧ ∃ o c, tokens !! s = Some o ∧ tok_in o OPEN_BRACKETS = true
                  ∧ tokens !! e = Some c ∧ tok_in c CLOSE_BRACKETS = true).
Proof.
  induction rest as [|token rest IH]; intros i stack groups Hrest Hstack s e.
  - cbn [find_nested_groups]. by left.
  - cbn [find_nested_groups].
    destruct (drop_cons_inv _ _ _ _ Hrest) as [Hi Hrest'].
    destruct (tok_in token OPEN_BRACKETS) eqn:Hopen.
    + apply IH; [done|]. intros t k [[= -> ->]|Hin]%elem_of_cons.
      * split; [lia|done].
      * destruct (Hstack _ _ Hin) as (? & ? & ?). split; [lia|done].
    + destruct (tok_in token CLOSE_BRACKETS) eqn:Hclose.
      * destruct stack as [|[open_bracket start] stack'].
        -- apply IH; [done|]. intros t k Hin. by apply elem_of_nil in Hin.
        -- intros Hin. apply IH in Hin; [|done|].
           ++ destruct Hin as [Hin|Hin]; [|by right].
              case_bool_decide; [|by left].
              apply elem_of_app in Hin as [Hin|Hin]; [by left|].
              apply list_elem_of_singleton in Hin as [= -> ->].
              destruct (Hstack open_bracket start) as (? & ? & ?);
                [by left|].
              right. split; [done|]. by exists open_bracket, token.
           ++ intros t k Hin'. destruct (Hstack t k) as (? & ? & ?);
                [by right|]. split; [lia|done].
      * apply IH; [done|]. intros t k Hin.
        destruct (Hstack _ _ Hin) as (? & ? & ?). split; [lia|done].
Qed.

Lemma find_bracket_groups_brackets (tokens : list string) (s e : nat) :
  (s, e) ∈ find_bracket_groups tokens false →
  s < e
  ∧ ∃ o c, tokens !! s = Some o ∧ tok_in o OPEN_BRACKETS = true
           ∧ tokens !! e = Some c ∧ tok_in c CLOSE_BRACKETS = true.
Proof.
  unfold find_bracket_groups. rewrite sort_groups_elem. intros Hin.
  apply (find_nested_groups_brackets tokens) in Hin as [Hin|Hin]; [|done| |].
  - by apply elem_of_nil in Hin.
  - done.
  - intros t k Hin'. by apply elem_of_nil in Hin'.
Qed.

(** *** [simplify_brackets] *)

Lemma collapse_at_well_formed (tokens : list string) (i : nat) :
  well_formed tokens = true → collapsible tokens i = true →
  well_formed (collapse_at tokens i) = true.
Proof.
  intros Hwf Hc. unfold collapse_at. unfold collapsible in Hc.
  destruct (tokens !! i) as [a|]; [|done].
  destruct (tokens !! (i + 1)) as [b|]; [|done].
  destruct (tokens !! (i + 2)) as [c|]; [|done].
  apply andb_true_iff in Hc as [Hc _].
  apply andb_true_iff in Hc as [_ Hb]. apply negb_true_iff in Hb.
  apply well_formed_splice; [done|]. by apply well_formed_literal.
Qed.

Lemma simplify_scan_well_formed fuel :
  ∀ tokens i changed,
    well_formed tokens = true →
    well_formed (simplify_scan fuel tokens i changed).1 = true.
Proof.
  induction fuel as [|fuel IH]; intros tokens i changed Hwf; [done|].
  cbn [simplify_scan]. destruct (i + 2 <? length tokens); [|done].
  destruct (collapsible tokens i) eqn:Hc.
  - apply IH. by apply collapse_at_well_formed.
  - by apply IH.
Qed.

Lemma simplify_loop_well_formed fuel :
  ∀ tokens, well_formed tokens = true →
            well_formed (simplify_loop fuel tokens) = true.
Proof.
  induction fuel as [|fuel IH]; intros tokens Hwf; [done|].
  cbn [simplify_loop].
  pose proof (simplify_scan_well_formed (length tokens) tokens 0 false Hwf)
    as Hscan.
  destruct (simplify_scan (length tokens) tokens 0 false) as [t' c].
  cbn [fst] in Hscan. destruct c; [by apply IH|done].
Qed.

Lemma simplify_brackets_well_formed (tokens : list string) :
  well_formed tokens = true → well_formed (simplify_brackets tokens) = true.
Proof. apply simplify_loop_well_formed. Qed.

(** *** Evaluation candidates *)

Lemma follows_ok_lookup (tokens : list string) (f : bool) (i : nat)
    (x : string) :
  follows_ok tokens f = true → tokens !! i = Some x →
  needs_operand x = true →
  match tokens !! (i + 1) with
  | Some y => starts_operand y = true
  | None => f = true
  end.
Proof.
  revert i. induction tokens as [|t tokens IH]; intros i Hok Hi Hx; [done|].
  cbn [follows_ok] in Hok. apply andb_true_iff in Hok as [H1 H2].
  destruct i as [|i].
  - injection Hi as ->. rewrite Hx in H1. cbn [negb orb] in H1.
    by destruct tokens.
  - by apply (IH i).
Qed.

Lemma well_formed_after (tokens : list string) (i : nat) (x : string) :
  well_formed tokens = true → tokens !! i = Some x →
  needs_operand x = true →
  ∃ y, tokens !! (i + 1) = Some y ∧ starts_operand y = true.
Proof.
  intros (t & rest & _ & _ & Hok)%well_formed_inv Hi Hx.
  pose proof (follows_ok_lookup _ _ _ _ Hok Hi Hx) as H.
  destruct (tokens !! (i + 1)) as [y|]; [by exists y|done].
Qed.

Lemma well_formed_before (tokens : list string) (i : nat) (x y : string) :
  well_formed tokens = true → tokens !! i = Some x →
  tokens !! (i + 1) = Some y → starts_operand y = false →
  needs_operand x = false.
Proof.
  intros Hwf Hi Hy Hns. destruct (needs_operand x) eqn:Hx; [|done].
  destruct (well_formed_after _ _ _ Hwf Hi Hx) as (y' & Hy' & Hs).
  congruence.
Qed.

Lemma well_formed_head (tokens : list string) (x : string) :
  well_formed tokens = true → tokens !! 0 = Some x →
  starts_operand x = true.
Proof.
  intros (t & rest & -> & Ht & _)%well_formed_inv [= ->]. done.
Qed.

Lemma find_evaluatable_loop_spec (tokens : list string) :
  ∀ rest i acc,
    well_formed tokens = true → rest = drop i tokens →
    ∃ ops, find_evaluatable_loop tokens rest i acc = Ok ops
           ∧ ∀ k op, (k, op) ∈ ops →
                     (k, op) ∈ acc
                     ∨ (0 < k ∧ tokens !! k = Some op
                        ∧ tok_in op operators = true).
Proof.
  induction rest as [|token rest IH]; intros i acc Hwf Hrest.
  - exists acc. split; [done|]. by left.
  - cbn [find_evaluatable_loop].
    destruct (drop_cons_inv _ _ _ _ Hrest) as [Hi Hrest'].
    destruct (tok_in token operators) eqn:Hop; [|by apply IH].
    assert (0 < i) as Hpos.
    { destruct i; [|lia]. pose proof (well_formed_head _ _ Hwf Hi) as Hs.
      by rewrite (operator_not_start _ Hop) in Hs. }
    destruct (lookup_lt_is_Some_2 tokens (i - 1)) as [lt Hlt].
    { apply lookup_lt_Some in Hi. lia. }
    destruct (well_formed_after _ _ _ Hwf Hi (operator_needs_operand _ Hop))
      as (rt & Hrt & _).
    replace (Z.of_nat i - 1)%Z with (Z.of_nat (i - 1)) by lia.
    replace (Z.of_nat i + 1)%Z with (Z.of_nat (i + 1)) by lia.
    rewrite (py_index_nat _ _ _ Hlt), (py_index_nat _ _ _ Hrt).
    cbn [mbind result_bind].
    destruct (_ && _); [|by apply IH].
    destruct (IH (i + 1) (acc ++ [(i, token)]) Hwf Hrest')
      as (ops & Hops & Hin).
    exists ops. split; [done|]. intros k op Hk.
    destruct (Hin _ _ Hk) as [Hacc|?]; [|by right].
    apply elem_of_app in Hacc as [?|[= -> ->]%list_elem_of_singleton];
      [by left|by right].
Qed.

(** On a well-formed sequence [find_evaluatable_operations] does not
    raise, and every candidate is an operator that is not the first
    token. *)
Lemma find_evaluatable_operations_well_formed (tokens : list string) :
  well_formed tokens = true →
  ∃ ops, find_evaluatable_operations tokens = Ok ops
         ∧ ∀ k op, (k, op) ∈ ops →
                   0 < k ∧ tokens !! k = Some op
                   ∧ tok_in op operators = true.
Proof.
  intros Hwf.
  destruct (find_evaluatable_loop_spec tokens tokens 0 [] Hwf eq_refl)
    as (ops & Hops & Hin).
  exists ops. split; [done|]. intros k op Hk.
  destruct (Hin _ _ Hk) as [Hnil|?]; [by apply elem_of_nil in Hnil|done].
Qed.

(** *** [perform_operation] *)

Section well_formed_float.
Context `{FloatModel}.
Hypothesis literals : formats_literals.

Lemma perform_operation_well_formed (tokens : list string) (i : nat)
    (op : string) (r : list string) :
  well_formed tokens = true →
  perform_operation tokens i op = Ok r → well_formed r = true.
Proof.
  intros Hwf. unfold perform_operation.
  destruct (py_index tokens (Z.of_nat i - 1)) as [lt|]; [|done].
  cbn [mbind result_bind].
  destruct (float_of_str lt) as [x|]; [|done]. cbn [mbind result_bind].
  destruct (py_index tokens (Z.of_nat i + 1)) as [rt|]; [|done].
  cbn [mbind result_bind].
  destruct (float_of_str rt) as [y|]; [|done]. cbn [mbind result_bind].
  destruct (apply_operator op x y) as [z|]; [|done]. cbn [mbind result_bind].
  destruct (format_result z) as [s|] eqn:Hs; [|done]. cbn [mbind result_bind].
  intros [= <-]. apply simplify_brackets_well_formed.
  unfold py_slice_to.
  apply (well_formed_splice tokens [s] _ (i + 2)); [done|].
  apply well_formed_literal. by eapply literals.
Qed.

End well_formed_float.

(** *** Terms of a bracket and distribution *)

Lemma follows_ok_last (l : list string) (g : bool) :
  follows_ok l g = true →
  (∀ x, last l = Some x → needs_operand x = false) →
  follows_ok l false = true.
Proof.
  induction l as [|x l IH]; [done|]. cbn [follows_ok].
  intros [H1 H2]%andb_true_iff Hlast. destruct l as [|y l].
  - rewrite (Hlast x eq_refl). done.
  - rewrite H1. cbn [andb]. apply IH; [done|].
    intros z Hz. apply Hlast. done.
Qed.

(** A segment of a well-formed sequence that starts at an operand start
    and ends at the end of the sequence or at a token that needs nothing
    after it. *)
Lemma well_formed_segment (tokens : list string) (a b : nat) (x : string) :
  well_formed tokens = true → a < b →
  tokens !! a = Some x → starts_operand x = true →
  (length tokens ≤ b
   ∨ ∃ y, tokens !! (b - 1) = Some y ∧ needs_operand y = false) →
  well_formed (drop a (take b tokens)) = true.
Proof.
  intros (t & rest & _ & _ & Hok)%well_formed_inv Hlt Ha Hx Hend.
  assert (Hseg : follows_ok (take b tokens) false = true).
  { destruct Hend as [Hlen|(y & Hy & Hny)].
    - by rewrite take_ge.
    - apply (follows_ok_last _ true); [by eapply follows_ok_take|].
      intros z Hz. rewrite last_lookup in Hz.
      rewrite length_take in Hz.
      assert (b ≤ length tokens).
      { apply lookup_lt_Some in Hy. lia. }
      rewrite Nat.min_l in Hz by lia.
      rewrite lookup_take_lt in Hz by lia.
      replace (Init.Nat.pred b) with (b - 1) in Hz by lia. congruence. }
  assert (Hhead : drop a (take b tokens) !! 0 = Some x).
  { rewrite lookup_drop, Nat.add_0_r, lookup_take_lt by lia. done. }
  destruct (drop a (take b tokens)) as [|h tl] eqn:E; [done|].
  injection Hhead as ->. apply well_formed_intro; [done|].
  rewrite <- E. by apply follows_ok_drop.
Qed.

Lemma well_formed_join (a b : list string) (s : string) :
  well_formed a = true → tok_in s operators = true →
  well_formed b = true → well_formed (a ++ [s] ++ b) = true.
Proof.
  intros (x & a' & -> & Hx & Ha)%well_formed_inv Hs
         (y & b' & -> & Hy & Hb)%well_formed_inv.
  cbn [app]. apply well_formed_intro; [done|].
  change (x :: a' ++ s :: y :: b') with ((x :: a') ++ s :: y :: b').
  rewrite follows_ok_app, (follows_ok_weaken _ _ Ha). cbn [andb].
  change (follows_ok (s :: y :: b') false)
    with ((negb (needs_operand s) || starts_operand y)
          && follows_ok (y :: b') false).
  by rewrite Hy, Hb, orb_true_r.
Qed.

Lemma well_formed_parens (t : list string) :
  well_formed t = true → well_formed (["("] ++ t ++ [")"]) = true.
Proof.
  intros (x & t' & -> & Hx & Ht)%well_formed_inv.
  cbn [app]. apply well_formed_intro; [by vm_compute|].
  change (follows_ok ("(" :: x :: t' ++ [")"]) false)
    with ((negb (needs_operand "(") || starts_operand x)
          && follows_ok ((x :: t') ++ [")"]) false).
  rewrite Hx, orb_true_r. cbn [andb].
  rewrite follows_ok_app.
  change (starts_operand ")") with false. rewrite Ht. by vm_compute.
Qed.

Lemma wrap_term_well_formed (t : list string) :
  well_formed t = true → well_formed (wrap_term t) = true.
Proof.
  intros Ht. unfold wrap_term. destruct (_ || _); [|done].
  by apply well_formed_parens.
Qed.

(** A term of a bracket with its sign. *)
Lemma split_op_operator (x : string) :
  tok_in x ["+"; "-"] = true → tok_in x operators = true.
Proof.
  intros H%tok_in_true. apply tok_in_true.
  repeat (apply elem_of_cons in H as [->|H];
          [apply list_elem_of_In; vm_compute; auto|]).
  by apply elem_of_nil in H.
Qed.

Lemma parse_fold_terms (rest : list string) :
  ∀ st,
    Forall (λ p, tok_in p.1 operators = true ∧ well_formed p.2 = true)
      (ps_terms st) →
    tok_in (ps_current_sign st) operators = true →
    match ps_terms st with
    | [] => ps_current_sign st = "+"
    | p :: _ => p.1 = "+"
    end →
    follows_ok (ps_current_term st ++ rest) false = true →
    (∀ x l, ps_current_term st ++ rest = x :: l → starts_operand x = true) →
    let st' := fold_left (parse_step false) rest st in
    Forall (λ p, tok_in p.1 operators = true ∧ well_formed p.2 = true)
      (ps_terms st')
    ∧ tok_in (ps_current_sign st') operators = true
    ∧ match ps_terms st' with
      | [] => ps_current_sign st' = "+"
      | p :: _ => p.1 = "+"
      end
    ∧ (ps_current_term st' = [] ∨ well_formed (ps_current_term st') = true).
Proof.
  induction rest as [|x rest IH]; intros st Hterms Hsign Hfirst Hok Hhead.
  - cbn [fold_left]. rewrite app_nil_r in Hok, Hhead.
    split; [done|]. split; [done|]. split; [done|].
    destruct (ps_current_term st) as [|y ct]; [by left|right].
    apply well_formed_intro; [by eapply Hhead|done].
  - cbn [fold_left]. apply IH; clear IH; unfold parse_step.
    + destruct (tok_in x OPEN_BRACKETS); [done|].
      destruct (tok_in x CLOSE_BRACKETS); [done|].
      destruct (tok_in x ["+"; "-"] && (ps_depth st =? 0)%Z
                && negb (bool_decide (ps_current_term st = []))) eqn:Hsplit;
        [|done].
      cbn [ps_terms]. apply Forall_app. split; [done|].
      apply Forall_singleton. cbn [fst snd]. split; [done|].
      apply andb_true_iff in Hsplit as [Hsplit Hne].
      apply andb_true_iff in Hsplit as [Hx _].
      apply negb_true_iff, bool_decide_eq_false in Hne.
      destruct (ps_current_term st) as [|y ct] eqn:Hct; [done|].
      apply well_formed_intro; [by eapply Hhead|].
      rewrite follows_ok_app in Hok.
      rewrite (operator_not_start _ (split_op_operator _ Hx)) in Hok.
      by apply andb_true_iff in Hok as [Hok _].
    + destruct (tok_in x OPEN_BRACKETS); [done|].
      destruct (tok_in x CLOSE_BRACKETS); [done|].
      destruct (tok_in x ["+"; "-"] && (ps_depth st =? 0)%Z
                && negb (bool_decide (ps_current_term st = []))) eqn:Hsplit;
        [|done].
      cbn [ps_current_sign].
      apply andb_true_iff in Hsplit as [Hsplit _].
      apply andb_true_iff in Hsplit as [Hx _].
      by apply split_op_operator.
    + destruct (tok_in x OPEN_BRACKETS); [done|].
      destruct (tok_in x CLOSE_BRACKETS); [done|].
      destruct (tok_in x ["+"; "-"] && (ps_depth st =? 0)%Z
                && negb (bool_decide (ps_current_term st = []))); [|done].
      cbn [ps_terms ps_current_sign].
      destruct (ps_terms st) as [|p l]; cbn [app]; [|done].
      by rewrite Hfirst.
    + destruct (tok_in x OPEN_BRACKETS);
        [cbn [ps_current_term]; by rewrite <- app_assoc|].
      destruct (tok_in x CLOSE_BRACKETS);
        [cbn [ps_current_term]; by rewrite <- app_assoc|].
      destruct (tok_in x ["+"; "-"] && (ps_depth st =? 0)%Z
                && negb (bool_decide (ps_current_term st = []))) eqn:Hsplit;
        [|cbn [ps_current_term]; by rewrite <- app_assoc].
      cbn [ps_current_term app].
      rewrite follows_ok_app in Hok.
      apply andb_true_iff in Hok as [_ Hok].
      cbn [follows_ok] in Hok. by apply andb_true_iff in Hok as [_ Hok].
    + destruct (tok_in x OPEN_BRACKETS);
        [cbn [ps_current_term]; intros y l;
         rewrite <- app_assoc; apply Hhead|].
      destruct (tok_in x CLOSE_BRACKETS);
        [cbn [ps_current_term]; intros y l;
         rewrite <- app_assoc; apply Hhead|].
      destruct (tok_in x ["+"; "-"] && (ps_depth st =? 0)%Z
                && negb (bool_decide (ps_current_term st = []))) eqn:Hsplit;
        [|cbn [ps_current_term]; intros y l;
          rewrite <- app_assoc; apply Hhead].
      cbn [ps_current_term app]. intros y l ->.
      apply andb_true_iff in Hsplit as [Hsplit _].
      apply andb_true_iff in Hsplit as [Hx _].
      rewrite follows_ok_app in Hok.
      apply andb_true_iff in Hok as [_ Hok].
      cbn [follows_ok] in Hok. apply andb_true_iff in Hok as [Hok _].
      by rewrite (operator_needs_operand _ (split_op_operator _ Hx)) in Hok.
Qed.

(** The terms of a well-formed bracket content: each is well-formed, the
    first carries the sign [+], the others the operator that precedes
    them. *)
Lemma parse_bracket_terms_well_formed (content : list string) :
  well_formed content = true →
  Forall (λ p, tok_in p.1 operators = true ∧ well_formed p.2 = true)
    (parse_bracket_terms content false)
  ∧ match parse_bracket_terms content false with
    | [] => True
    | p :: _ => p.1 = "+"
    end.
Proof.
  intros (x & l & -> & Hx & Hok)%well_formed_inv.
  unfold parse_bracket_terms.
  destruct (parse_fold_terms (x :: l)
              {| ps_terms := []; ps_current_sign := "+";
                 ps_current_term := []; ps_depth := 0 |})
    as (Hterms & Hsign & Hfirst & Hcur); cbn [ps_terms ps_current_sign
                                              ps_current_term app];
    [done|by vm_compute|done|done|by intros ? ? [= <- <-]|].
  destruct (ps_current_term _) as [|y ct] eqn:Hct.
  - split; [done|]. by destruct (ps_terms _).
  - destruct Hcur as [?|Hcur]; [done|]. split.
    + apply Forall_app. split; [done|]. by apply Forall_singleton.
    + destruct (ps_terms _); cbn [app]; [|done]. done.
Qed.

Lemma distribute_terms_well_formed (op_side op : string)
    (operand : list string) :
  well_formed operand = true → tok_in op operators = true →
  ∀ terms i acc,
    Forall (λ p, tok_in p.1 operators = true ∧ well_formed p.2 = true)
      terms →
    0 < i → well_formed acc = true →
    well_formed (distribute_terms op_side op operand terms i acc) = true.
Proof.
  intros Hoperand Hop.
  induction terms as [|[sign term] terms IH]; intros i acc Hterms Hi Hacc;
    [done|].
  apply Forall_cons in Hterms as [[Hsign Hterm] Hterms].
  cbn [fst snd] in Hsign, Hterm. cbn [distribute_terms].
  assert ((0 <? i) = true) as -> by (by apply Nat.ltb_lt).
  cbn [negb andb]. apply IH; [done|lia|].
  destruct (String.eqb op_side "right").
  - rewrite <- app_assoc. apply well_formed_join; [done|done|].
    apply well_formed_join; [by apply wrap_term_well_formed|done|done].
  - rewrite <- app_assoc. apply well_formed_join; [done|done|].
    apply well_formed_join; [done|done|by apply wrap_term_well_formed].
Qed.

Lemma distribute_terms_first_well_formed (op_side op : string)
    (operand : list string) (terms : list (string * list string)) :
  well_formed operand = true → tok_in op operators = true →
  Forall (λ p, tok_in p.1 operators = true ∧ well_formed p.2 = true) terms →
  match terms with [] => True | p :: _ => p.1 = "+" end →
  terms ≠ [] →
  well_formed (distribute_terms op_side op operand terms 0 []) = true.
Proof.
  intros Hoperand Hop Hterms Hfirst Hne.
  destruct terms as [|[sign term] terms]; [done|].
  cbn [fst] in Hfirst. subst sign.
  apply Forall_cons in Hterms as [[_ Hterm] Hterms]. cbn [snd] in Hterm.
  cbn [distribute_terms]. change (0 <? 0) with false.
  change (String.eqb "+" "-") with false. cbn [negb andb app].
  apply distribute_terms_well_formed; [done|done|done|lia|].
  destruct (String.eqb op_side "right").
  - apply well_formed_join; [by apply wrap_term_well_formed|done|done].
  - apply well_formed_join; [done|done|by apply wrap_term_well_formed].
Qed.

(** [distribute_bracket] on a bracket pair, an operator and a well-formed
    operand. *)
Lemma distribute_bracket_well_formed (tokens : list string) (s e : nat)
    (o c : string) (op_side : string) (op_index : nat) (op : string)
    (operand r : list string) :
  well_formed tokens = true →
  tokens !! s = Some o → tok_in o OPEN_BRACKETS = true →
  tokens !! e = Some c → tok_in c CLOSE_BRACKETS = true → s < e →
  tokens !! op_index = Some op → tok_in op operators = true →
  well_formed operand = true →
  distribute_bracket tokens s e op_side op_index operand = Ok (Some r) →
  well_formed r = true.
Proof.
  intros Hwf Hs Ho He Hc Hlt Hop Hopr Hoperand.
  unfold distribute_bracket. rewrite (py_index_nat _ _ _ Hop).
  cbn [mbind result_bind]. unfold get_bracket_content.
  pose proof (well_formed_inside _ _ _ _ _ Hwf Hs Ho He
                (closing_not_start _ Hc) Hlt) as Hinner.
  destruct (parse_bracket_terms_well_formed _ Hinner) as [Hterms Hfirst].
  set (terms := parse_bracket_terms (drop (s + 1) (take e tokens)) false)
    in *.
  destruct (length terms <=? 1) eqn:Hlen; [done|].
  assert (terms ≠ []) as Hne.
  { intros E. rewrite E in Hlen. done. }
  pose proof (distribute_terms_first_well_formed op_side op operand terms
                Hoperand Hopr Hterms Hfirst Hne) as Hdist.
  apply well_formed_parens in Hdist.
  destruct (String.eqb op_side "right").
  - destruct (py_index tokens (Z.of_nat (op_index + 1))) as [t|]; [|done].
    cbn [mbind result_bind]. intros [= <-].
    destruct (tok_in t OPEN_BRACKETS);
      apply (well_formed_splice _ _ _ _ Hwf Hdist).
  - destruct (py_index tokens (Z.of_nat op_index - 1)) as [t|]; [|done].
    cbn [mbind result_bind]. intros [= <-]. unfold py_slice_to.
    destruct (tok_in t CLOSE_BRACKETS);
      apply (well_formed_splice _ _ _ _ Hwf Hdist).
Qed.

(** *** Operands of a distribution *)

Lemma scan_forward_spec (tokens : list string) fuel :
  ∀ j d,
    length tokens ≤ fuel + j →
    let r := scan_forward fuel tokens j d in
    j ≤ r
    ∧ (length tokens ≤ r
       ∨ (r = j ∧ (d ≤ 0)%Z)
       ∨ (j < r ∧ ∃ c, tokens !! (r - 1) = Some c
                       ∧ tok_in c CLOSE_BRACKETS = true)).
Proof.
  induction fuel as [|fuel IH]; intros j d Hfuel; cbn [scan_forward].
  - split; [done|]. left. lia.
  - destruct (tokens !! j) as [t|] eqn:Ht.
    + destruct (0 <? d)%Z eqn:Hd.
      * apply Z.ltb_lt in Hd.
        set (d' := (if tok_in t OPEN_BRACKETS then d + 1
                    else if tok_in t CLOSE_BRACKETS then d - 1 else d)%Z).
        destruct (IH (j + 1) d' ltac:(lia)) as [Hle Hcases].
        split; [lia|]. destruct Hcases as [?|[[Hr Hd']|[? ?]]].
        -- by left.
        -- right. right. split; [lia|]. exists t. rewrite Hr.
           replace (j + 1 - 1) with j by lia. split; [done|].
           subst d'. destruct (tok_in t OPEN_BRACKETS); [lia|].
           destruct (tok_in t CLOSE_BRACKETS); [done|lia].
        -- right. right. split; [lia|done].
      * apply Z.ltb_ge in Hd. split; [done|]. right. left. done.
    + split; [done|]. left. by apply lookup_ge_None in Ht.
Qed.

Lemma scan_backward_spec (tokens : list string) fuel :
  ∀ j d,
    (-1 ≤ j)%Z → (j + 1 ≤ Z.of_nat fuel)%Z →
    let r := scan_backward fuel tokens j d in
    (-1 ≤ r ≤ j)%Z
    ∧ (r = (-1)%Z
       ∨ (r = j ∧ (d ≤ 0)%Z)
       ∨ ((r < j)%Z ∧ ∃ o, tokens !! Z.to_nat (r + 1) = Some o
                          ∧ tok_in o OPEN_BRACKETS = true)
       ∨ (r = j ∧ tokens !! Z.to_nat j = None)).
Proof.
  induction fuel as [|fuel IH]; intros j d Hj Hfuel; cbn [scan_backward].
  - split; [lia|]. left. lia.
  - destruct (0 <=? j)%Z eqn:Hj0; cbn [andb].
    2:{ apply Z.leb_gt in Hj0. split; [lia|]. left. lia. }
    apply Z.leb_le in Hj0.
    destruct (0 <? d)%Z eqn:Hd.
    2:{ apply Z.ltb_ge in Hd. split; [lia|]. right. left. done. }
    apply Z.ltb_lt in Hd.
    destruct (tokens !! Z.to_nat j) as [t|] eqn:Ht.
    2:{ split; [lia|]. right. right. right. done. }
    set (d' := (if tok_in t CLOSE_BRACKETS then d + 1
                else if tok_in t OPEN_BRACKETS then d - 1 else d)%Z).
    destruct (IH (j - 1)%Z d' ltac:(lia) ltac:(lia)) as [Hle Hcases].
    split; [lia|].
    destruct Hcases as [?|[[Hr Hd']|[[? ?]|[Hr Hnone]]]].
    + by left.
    + right. right. left. split; [lia|]. exists t. rewrite Hr.
      replace (j - 1 + 1)%Z with j by lia. split; [done|].
      subst d'. destruct (tok_in t CLOSE_BRACKETS); [lia|].
      destruct (tok_in t OPEN_BRACKETS); [done|lia].
    + right. right. left. split; [lia|done].
    + apply lookup_ge_None in Hnone. apply lookup_lt_Some in Ht. lia.
Qed.

Lemma not_needed_not_closing_starts (t : string) :
  needs_operand t = false → tok_in t CLOSE_BRACKETS = false →
  starts_operand t = true.
Proof.
  unfold needs_operand, starts_operand. intros [H1 _]%orb_false_iff H2.
  by rewrite H1, H2.
Qed.

Lemma start_not_opening_rests (t : string) :
  starts_operand t = true → tok_in t OPEN_BRACKETS = false →
  needs_operand t = false.
Proof.
  unfold needs_operand, starts_operand.
  intros [H1 _]%negb_true_iff%orb_false_iff H2. by rewrite H1, H2.
Qed.

Lemma well_formed_single (t : string) :
  starts_operand t = true → needs_operand t = false →
  well_formed [t] = true.
Proof.
  intros H1 H2. unfold well_formed. cbn [follows_ok]. by rewrite H1, H2.
Qed.

Lemma py_clamp_nat (len : nat) (n : nat) :
  py_clamp len (Z.of_nat n) = n `min` len.
Proof.
  unfold py_clamp. destruct (Z.of_nat n <? 0)%Z eqn:E.
  - apply Z.ltb_lt in E. lia.
  - by rewrite Z.max_r, Nat2Z.id by lia.
Qed.

Lemma distributable_right_well_formed (tokens : list string) (s e : nat)
    (d : distributable) :
  well_formed tokens = true →
  d ∈ distributable_right tokens s e →
  dist_bracket_start d = s ∧ dist_bracket_end d = e
  ∧ (∃ op, tokens !! dist_op_index d = Some op
           ∧ tok_in op operators = true)
  ∧ well_formed (dist_operand d) = true.
Proof.
  intros Hwf. unfold distributable_right.
  destruct (tokens !! (e + 1)) as [op|] eqn:Hop;
    [|by intros ?%elem_of_nil].
  destruct (tok_in op ["+"; "-"; "*"; "/"; "^"]) eqn:Hopr;
    [|by intros ?%elem_of_nil].
  destruct (tokens !! (e + 1 + 1)) as [t|] eqn:Ht;
    [|by intros ?%elem_of_nil].
  destruct (_ && _); [by intros ?%elem_of_nil|].
  intros ->%list_elem_of_singleton. cbn.
  split; [done|]. split; [done|]. split; [by exists op|].
  destruct (well_formed_after _ _ _ Hwf Hop (operator_needs_operand _ Hopr))
    as (t' & Ht' & Hstart).
  assert (t' = t) as -> by congruence.
  destruct (tok_in t OPEN_BRACKETS) eqn:Hopen.
  - pose proof (scan_forward_spec tokens (length tokens)
                  (e + 1 + 1 + 1) 1 ltac:(lia)) as [Hle Hcases].
    set (j := scan_forward (length tokens) tokens (e + 1 + 1 + 1) 1) in *.
    apply (well_formed_segment tokens (e + 1 + 1) j t); [done|lia|done|done|].
    destruct Hcases as [?|[[_ ?]|[_ (c & Hc & Hcl)]]]; [by left|lia|].
    right. exists c. split; [done|]. by apply closing_needs_nothing.
  - apply well_formed_single; [done|].
    by apply start_not_opening_rests.
Qed.

Lemma distributable_left_well_formed (tokens : list string) (s e : nat)
    (d : distributable) :
  well_formed tokens = true →
  d ∈ distributable_left tokens s e →
  dist_bracket_start d = s ∧ dist_bracket_end d = e
  ∧ (∃ op, tokens !! dist_op_index d = Some op
           ∧ tok_in op operators = true)
  ∧ well_formed (dist_operand d) = true.
Proof.
  intros Hwf. unfold distributable_left.
  destruct (0 <? s) eqn:Hs; [|by intros ?%elem_of_nil].
  apply Nat.ltb_lt in Hs.
  destruct (tokens !! (s - 1)) as [op|] eqn:Hop;
    [|by intros ?%elem_of_nil].
  destruct (tok_in op ["+"; "-"; "*"; "/"; "^"]) eqn:Hopr;
    [|by intros ?%elem_of_nil].
  destruct (0 <? s - 1) eqn:Hs1; [|by intros ?%elem_of_nil].
  apply Nat.ltb_lt in Hs1.
  destruct (tokens !! (s - 1 - 1)) as [t|] eqn:Ht;
    [|by intros ?%elem_of_nil].
  destruct (String.eqb op "/"); [by intros ?%elem_of_nil|].
  intros ->%list_elem_of_singleton. cbn.
  split; [done|]. split; [done|]. split; [by exists op|].
  assert (Hop' : tokens !! (s - 1 - 1 + 1) = Some op).
  { by replace (s - 1 - 1 + 1) with (s - 1) by lia. }
  pose proof (well_formed_before _ _ _ _ Hwf Ht Hop'
                (operator_not_start _ Hopr)) as Hrest.
  assert (Hlen : s - 1 - 1 < length tokens) by (by apply lookup_lt_Some in Ht).
  destruct (tok_in t CLOSE_BRACKETS) eqn:Hclose.
  - pose proof (scan_backward_spec tokens (length tokens)
                  (Z.of_nat (s - 1 - 1) - 1) 1 ltac:(lia) ltac:(lia))
      as [Hle Hcases].
    set (j := scan_backward (length tokens) tokens
                (Z.of_nat (s - 1 - 1) - 1) 1) in *.
    unfold py_slice.
    replace (j + 1)%Z with (Z.of_nat (Z.to_nat (j + 1))) by lia.
    replace (Z.of_nat (s - 1 - 1) + 1)%Z with (Z.of_nat (s - 1)) by lia.
    rewrite !py_clamp_nat.
    rewrite (Nat.min_l (s - 1)) by lia.
    rewrite (Nat.min_l (Z.to_nat (j + 1))) by lia.
    assert (∃ x, tokens !! Z.to_nat (j + 1) = Some x
                 ∧ starts_operand x = true) as (x & Hx & Hxs).
    { destruct Hcases as [Hm|[[_ ?]|[[_ (o & Ho & Hopen)]|[_ Hnone]]]].
      - rewrite Hm. change (Z.to_nat (-1 + 1)) with 0.
        destruct (lookup_lt_is_Some_2 tokens 0) as [x Hx]; [lia|].
        exists x. split; [done|]. by eapply well_formed_head.
      - lia.
      - exists o. split; [done|]. by apply opening_starts_operand.
      - apply lookup_ge_None in Hnone. lia. }
    apply (well_formed_segment tokens _ _ x); [done|lia|done|done|].
    right. exists t. split; [|done].
    by replace (s - 1 - 1) with (s - 1 - 1) by lia.
  - apply well_formed_single; [|done].
    by apply not_needed_not_closing_starts.
Qed.

(** Every entry of [find_distributable_brackets] on a well-formed sequence
    names a bracket pair, an operator and a well-formed operand. *)
Lemma find_distributable_brackets_well_formed (tokens : list string)
    (d : distributable) :
  well_formed tokens = true →
  d ∈ find_distributable_brackets tokens true →
  (dist_bracket_start d < dist_bracket_end d
   ∧ ∃ o c, tokens !! dist_bracket_start d = Some o
            ∧ tok_in o OPEN_BRACKETS = true
            ∧ tokens !! dist_bracket_end d = Some c
            ∧ tok_in c CLOSE_BRACKETS = true)
  ∧ (∃ op, tokens !! dist_op_index d = Some op
           ∧ tok_in op operators = true)
  ∧ well_formed (dist_operand d) = true.
Proof.
  intros Hwf. unfold find_distributable_brackets.
  intros Hin. apply list_elem_of_In, in_flat_map in Hin
    as ([s e] & Hg%list_elem_of_In & Hd%list_elem_of_In).
  cbn [negb] in Hg. apply find_bracket_groups_brackets in Hg.
  apply elem_of_app in Hd as [Hd|Hd].
  - destruct (distributable_right_well_formed _ _ _ _ Hwf Hd)
      as (-> & -> & ? & ?). done.
  - destruct (distributable_left_well_formed _ _ _ _ Hwf Hd)
      as (-> & -> & ? & ?). done.
Qed.

(** *** Actions and the graph builder on well-formed sequences *)

Lemma same_operator_loop_operator (rest : list string) :
  ∀ found op,
    same_operator_loop rest found = Some (Some op) →
    (∀ f, found = Some f → tok_in f operators = true) →
    tok_in op operators = true.
Proof.
  induction rest as [|t rest IH]; intros found op; cbn [same_operator_loop].
  - intros [= ->] Hf. by apply Hf.
  - destruct (tok_in t all_brackets); [done|].
    destruct (tok_in t operators) eqn:Ht.
    + destruct found as [f|].
      * destruct (negb (String.eqb t f)); [done|]. apply IH.
      * intros Hl _. apply (IH _ _ Hl). by intros f [= <-].
    + apply IH.
Qed.

Lemma floats_of_nil `{FloatModel} (l : list string) :
  floats_of l = Ok [] → l = [].
Proof.
  destruct l as [|t l]; [done|]. cbn [floats_of].
  destruct (float_of_str t); [|done]. cbn [mbind result_bind].
  by destruct (floats_of l).
Qed.

Section well_formed_build.
Context `{FloatModel}.
Hypothesis literals : formats_literals.

(** The state that the same-operator fast path records. *)
Lemma compute_same_operator_result_well_formed (tokens : list string)
    (op r : string) :
  well_formed tokens = true →
  is_same_operator_expression tokens = (true, Some op) →
  compute_same_operator_result tokens op = Ok r →
  well_formed [r] = true.
Proof.
  intros Hwf Hsame. unfold compute_same_operator_result.
  destruct (floats_of _) as [[|first numbers]|] eqn:Hf; [| |done];
    cbn [mbind result_bind].
  - exfalso. apply floats_of_nil in Hf.
    apply well_formed_inv in Hwf as (t & rest & -> & Ht & _).
    assert (tok_in op operators = true) as Hop.
    { unfold is_same_operator_expression in Hsame.
      destruct (same_operator_loop (t :: rest) None) as [[o|]|] eqn:Hl;
        [|done|done].
      injection Hsame as ->.
      by apply (same_operator_loop_operator _ _ _ Hl). }
    rewrite filter_cons in Hf. destruct (decide (t ≠ op)) as [|Heq]; [done|].
    apply dec_stable in Heq. subst t.
    by rewrite (operator_not_start _ Hop) in Ht.
  - destruct (fold_numbers op first numbers) as [x|]; [|done].
    cbn [mbind result_bind]. intros Hr.
    apply well_formed_literal. by eapply literals.
Qed.

(** On a well-formed sequence [_find_all_actions] does not raise, and
    every state it proposes is well-formed again. *)
Lemma find_all_actions_well_formed (tokens : list string) :
  well_formed tokens = true →
  ∃ actions,
    find_all_actions tokens = Ok actions
    ∧ ∀ a, a ∈ actions → well_formed (ga_result_tokens a) = true.
Proof.
  intros Hwf. unfold find_all_actions.
  destruct (find_evaluatable_operations_well_formed _ Hwf)
    as (ops & -> & Hops). cbn [mbind result_bind].
  eexists. split; [done|].
  set (P := λ st : list graph_action * gset string,
              ∀ a, a ∈ st.1 → well_formed (ga_result_tokens a) = true).
  assert (Hadd : ∀ st ty d r, P st → well_formed r = true →
                              P (add_action st ty d r)).
  { intros st ty d r Hst Hr a [?| ->]%add_action_elem; [by apply Hst|done]. }
  assert (H1 : P (fold_left (add_distribute_action tokens)
                    (find_distributable_brackets tokens true) ([], ∅))).
  { assert (∀ ds st,
              (∀ d, d ∈ ds → d ∈ find_distributable_brackets tokens true) →
              P st → P (fold_left (add_distribute_action tokens) ds st))
      as Hfold.
    { induction ds as [|d ds IH]; intros st Hds Hst; [done|].
      cbn [fold_left]. apply IH; [intros d' Hd'; apply Hds; by right|].
      unfold add_distribute_action.
      destruct (distribute_bracket _ _ _ _ _ _) as [[[|t r]|]|] eqn:Hd;
        try done.
      apply Hadd; [done|]. apply simplify_brackets_well_formed.
      destruct (find_distributable_brackets_well_formed tokens d Hwf)
        as ((Hlt & o & c & Ho & Hopen & Hc & Hclose) & (op & Hop & Hopr)
            & Hoperand); [apply Hds; by left|].
      exact (distribute_bracket_well_formed tokens _ _ o c _ _ op _ _ Hwf
               Ho Hopen Hc Hclose Hlt Hop Hopr Hoperand Hd). }
    apply Hfold; [done|]. intros a Ha. by apply elem_of_nil in Ha. }
  assert (H2 : P (fold_left (add_drop_action tokens)
                    (find_bracket_groups tokens false)
                    (fold_left (add_distribute_action tokens)
                       (find_distributable_brackets tokens true) ([], ∅)))).
  { assert (∀ gs st,
              (∀ g, g ∈ gs → g ∈ find_bracket_groups tokens false) →
              P st → P (fold_left (add_drop_action tokens) gs st))
      as Hfold.
    { induction gs as [|[s e] gs IH]; intros st Hgs Hst; [done|].
      cbn [fold_left]. apply IH; [intros g' Hg'; apply Hgs; by right|].
      unfold add_drop_action. apply Hadd; [done|].
      apply simplify_brackets_well_formed. cbn [fst snd].
      destruct (find_bracket_groups_brackets tokens s e)
        as (Hlt & o & c & Ho & Hopen & Hc & Hclose); [apply Hgs; by left|].
      exact (drop_brackets_well_formed tokens s e o c Hwf Ho Hopen Hc
               Hclose Hlt). }
    by apply Hfold. }
  assert (∀ os st, P st →
                   P (fold_left (add_evaluate_action tokens) os st))
    as Hfold.
  { induction os as [|[i op] os IH]; intros st Hst; [done|].
    cbn [fold_left]. apply IH. unfold add_evaluate_action. cbn [fst snd].
    destruct (perform_operation tokens i op) as [r|] eqn:Hp; [|done].
    cbn [mbind result_bind].
    destruct (py_index tokens (Z.of_nat i - 1)); [|done].
    cbn [mbind result_bind].
    destruct (py_index tokens (Z.of_nat i + 1)); [|done].
    cbn [mbind result_bind]. apply Hadd; [done|].
    by eapply perform_operation_well_formed. }
  by apply Hfold.
Qed.

Lemma Node_init_tokens (uuid : string) (tokens : list string)
    (parent : option string) (n : Node) :
  Node_init uuid tokens parent = Ok n → node_tokens n = tokens.
Proof.
  unfold Node_init.
  destruct (if length tokens =? 1 then _ else _) as [x|];
    cbn [mbind result_bind]; [|done].
  by intros [= <-].
Qed.

Lemma record_state_queue (uuid4 : nat → string) (g : ExpressionGraph2)
    (cur : string) (new_tokens : list string) (ty desc : string) :
  queue_well_formed g → well_formed new_tokens = true →
  queue_well_formed (record_state uuid4 g cur new_tokens ty desc).1.
Proof.
  intros Hq Hwf. unfold record_state.
  destruct (seen_expressions g !! join new_tokens); [done|].
  destruct (Node_init _ _ _) as [n|] eqn:Hn; [|done].
  unfold queue_well_formed. cbn [fst queue].
  apply Forall_app. split; [done|]. apply Forall_singleton.
  by rewrite (Node_init_tokens _ _ _ _ Hn).
Qed.

Lemma expand_actions_queue (uuid4 : nat → string) (cur : Node)
    (actions : list graph_action) :
  ∀ g, queue_well_formed g →
       (∀ a, a ∈ actions → well_formed (ga_result_tokens a) = true) →
       queue_well_formed (expand_actions uuid4 g cur actions).
Proof.
  unfold expand_actions.
  induction actions as [|a actions IH]; intros g Hq Hall; [done|].
  cbn [fold_left]. apply IH.
  - apply record_state_queue; [done|]. apply Hall. by left.
  - intros a' Ha'. apply Hall. by right.
Qed.

Lemma build_loop_never_raises (uuid4 : nat → string) (fuel : nat) :
  ∀ g e, queue_well_formed g → build_loop fuel uuid4 g ≠ Some (Raise e).
Proof.
  induction fuel as [|fuel IH]; intros g e Hq; [done|].
  cbn [build_loop]. destruct (queue g) as [|cur q'] eqn:Hqueue; [done|].
  destruct (limit_reached g); [done|].
  unfold queue_well_formed in Hq. rewrite Hqueue in Hq.
  apply Forall_cons in Hq as [Hcur Hq'].
  assert (Hg : queue_well_formed (with_queue g q')) by done.
  destruct (node_is_final cur); [by apply IH|].
  destruct (is_same_operator_expression (node_tokens cur))
    as [same operator] eqn:Hsame.
  assert (Hnormal : ∀ g', queue_well_formed g' →
    match find_all_actions (node_tokens cur) with
    | Ok actions =>
        build_loop fuel uuid4 (expand_actions uuid4 g' cur actions)
    | Raise x => Some (Raise x)
    end ≠ Some (Raise e)).
  { intros g' Hg'.
    destruct (find_all_actions_well_formed _ Hcur) as (actions & -> & Hall).
    apply IH. by apply expand_actions_queue. }
  destruct same; [|by apply Hnormal].
  destruct operator as [op|]; [|by apply Hnormal].
  case_bool_decide; [by apply Hnormal|].
  unfold fast_path.
  destruct (compute_same_operator_result (node_tokens cur) op) as [r|] eqn:Hr;
    [|by apply Hnormal].
  pose proof (record_state_queue uuid4 (with_queue g q') (node_id cur) [r]
                "evaluate" ("Compute all '" +:+ op +:+ "' operations") Hg
                (compute_same_operator_result_well_formed _ _ _ Hcur Hsame Hr))
    as Hrec.
  destruct (record_state _ _ _ _ _ _) as [g' ok]. cbn [fst] in Hrec.
  destruct ok; [by apply IH|by apply Hnormal].
Qed.

End well_formed_build.


(** *** Accepted input is well-formed *)

Lemma round_only_first (c : ascii) (s : string) :
  tok_in (str_of_char c) ["["; "]"; "{"; "}"] = false →
  round_only (String c s).
Proof.
  unfold round_only, tok_in, str_of_char. cbn [existsb String.eqb].
  destruct (Ascii.eqb c "["); [done|].
  destruct (Ascii.eqb c "]"); [done|].
  destruct (Ascii.eqb c "{"); [done|].
  destruct (Ascii.eqb c "}"); [done|]. by destruct s.
Qed.

Lemma span_head {A} (p : A → bool) (x : A) (l : list A) :
  p x = true → ∃ pre, (span p (x :: l)).1 = x :: pre.
Proof.
  intros Hp. cbn [span]. rewrite Hp. destruct (span p l) as [pre rest].
  by exists pre.
Qed.

Lemma number_char_not_bracket (c : ascii) :
  is_number_char c = true →
  tok_in (str_of_char c) ["["; "]"; "{"; "}"] = false.
Proof.
  unfold tok_in, str_of_char. cbn [existsb String.eqb]. intros Hc.
  destruct (Ascii.eqb_spec c "[") as [->|_]; [done|].
  destruct (Ascii.eqb_spec c "]") as [->|_]; [done|].
  destruct (Ascii.eqb_spec c "{") as [->|_]; [done|].
  destruct (Ascii.eqb_spec c "}") as [->|_]; [done|]. done.
Qed.

Lemma tokenize_loop_round_only fuel :
  ∀ rest i acc r,
    Forall round_only acc →
    tokenize_loop fuel rest i acc = Ok r → Forall round_only r.
Proof.
  induction fuel as [|fuel IH]; intros rest i acc r Hacc;
    cbn [tokenize_loop]; [by intros [= <-]|].
  destruct rest as [|c rest]; [by intros [= <-]|].
  assert (Hsnoc : ∀ t, round_only t → Forall round_only (acc ++ [t])).
  { intros t Ht. apply Forall_app. split; [done|]. by apply Forall_singleton. }
  destruct (tok_in (str_of_char c) ["("; ")"]) eqn:Hp.
  { apply IH, Hsnoc. apply tok_in_true in Hp.
    repeat (apply elem_of_cons in Hp as [->|Hp]; [by vm_compute|]).
    by apply elem_of_nil in Hp. }
  destruct (tok_in (str_of_char c) ["+"; "*"; "/"; "^"]) eqn:Ho.
  { apply IH, Hsnoc. apply tok_in_true in Ho.
    repeat (apply elem_of_cons in Ho as [->|Ho]; [by vm_compute|]).
    by apply elem_of_nil in Ho. }
  destruct (Ascii.eqb_spec c "-") as [->|Hminus].
  { destruct (_ || _).
    - destruct (span_number rest) as [num rest''].
      apply IH, Hsnoc. by apply round_only_first.
    - apply IH, Hsnoc. by vm_compute. }
  destruct (is_number_char c) eqn:Hnum; [|done].
  destruct (span_head is_number_char c rest Hnum) as [pre Hpre].
  unfold span_number. destruct (span is_number_char (c :: rest))
    as [num rest''].
  cbn [fst] in Hpre. subst num. apply IH, Hsnoc.
  apply round_only_first. by apply number_char_not_bracket.
Qed.

Lemma tokenize_round_only (expr : string) (tokens : list string) :
  tokenize expr = Ok tokens → Forall round_only tokens.
Proof. apply tokenize_loop_round_only. constructor. Qed.

Lemma py_index_nat_inv {A} (l : list A) (n : nat) (x : A) :
  py_index l (Z.of_nat n) = Ok x → l !! n = Some x.
Proof.
  unfold py_index.
  destruct (Z.of_nat n <? 0)%Z eqn:E; [apply Z.ltb_lt in E; lia|].
  rewrite E, Nat2Z.id. destruct (l !! n); [by intros [= ->]|done].
Qed.

Lemma follows_ok_intro (tokens : list string) :
  (∀ i x, tokens !! i = Some x → needs_operand x = true →
          ∃ y, tokens !! (i + 1) = Some y ∧ starts_operand y = true) →
  follows_ok tokens false = true.
Proof.
  induction tokens as [|t tokens IH]; intros Hnext; [done|].
  cbn [follows_ok]. apply andb_true_iff. split.
  - destruct (needs_operand t) eqn:Ht; [|done]. cbn [negb orb].
    destruct (Hnext 0 t eq_refl Ht) as (y & Hy & Hs).
    destruct tokens as [|y' tokens]; [done|]. by injection Hy as ->.
  - apply IH. intros i x Hi Hx. apply (Hnext (S i) x Hi Hx).
Qed.

(** What a successful run of the loop of [validate_tokens] has checked
    from position [i] on. *)
Lemma validate_loop_checked (tokens : list string) :
  ∀ rest i d d',
    rest = drop i tokens → (0 ≤ d)%Z →
    validate_loop tokens rest i d = Ok d' →
    (0 ≤ d')%Z
    ∧ (last rest = Some "(" → (1 ≤ d')%Z)
    ∧ ∀ k t, i ≤ k → tokens !! k = Some t →
        (t = ")" → 0 < k → tokens !! (k - 1) ≠ Some "(")
        ∧ (tok_in t operators = true →
           0 < k
           ∧ (∀ p, tokens !! (k - 1) = Some p → p ≠ "(")
           ∧ ∃ y, tokens !! (k + 1) = Some y
                  ∧ tok_in y operators = false ∧ y ≠ ")").
Proof.
  induction rest as [|token rest IH]; intros i d d' Hrest Hd;
    cbn [validate_loop].
  - intros [= <-]. split; [done|]. split; [done|].
    intros k t Hk Ht. apply lookup_lt_Some in Ht.
    assert (length (drop i tokens) = 0) as Hlen by (by rewrite <- Hrest).
    rewrite length_drop in Hlen. lia.
  - destruct (drop_cons_inv _ _ _ _ Hrest) as [Hi Hrest'].
    set (step1 := if String.eqb token "(" then Ok (d + 1)%Z
                  else if String.eqb token ")" then
                    if (d - 1 <? 0)%Z then Raise _ else Ok (d - 1)%Z
                  else Ok d).
    destruct step1 as [d1|] eqn:H1; [|done]. cbn [mbind result_bind].
    assert (Hd1 : (0 ≤ d1)%Z ∧ (token = "(" → (1 ≤ d1)%Z)
                  ∧ (d1 ≤ d + 1)%Z).
    { subst step1. destruct (String.eqb_spec token "(") as [->|Hne].
      - injection H1 as <-. lia.
      - destruct (String.eqb token ")").
        + destruct (d - 1 <? 0)%Z eqn:E; [done|]. injection H1 as <-.
          apply Z.ltb_ge in E. split; [lia|]. split; [done|lia].
        + injection H1 as <-. split; [lia|]. split; [done|lia]. }
    destruct Hd1 as (Hd1 & Hopen & _).
    set (step2 := if String.eqb token ")" && (0 <? i)
                     && match tokens !! (i - 1) with
                        | Some p => String.eqb p "("
                        | None => false
                        end
                  then Raise _ else Ok ()).
    destruct step2 as [[]|] eqn:H2; [|done]. cbn [mbind result_bind].
    set (step3 := if tok_in token operators then _ else Ok ()).
    destruct step3 as [[]|] eqn:H3; [|done]. cbn [mbind result_bind].
    intros Hloop.
    destruct (IH (i + 1) d1 d' Hrest' Hd1 Hloop) as (Hd' & Hlast & Hall).
    split; [done|]. split.
    { destruct rest as [|t' rest'].
      - cbn [last]. intros [= ->]. cbn [validate_loop] in Hloop.
        injection Hloop as <-. by apply Hopen.
      - intros Hl. apply Hlast. done. }
    intros k t Hk Ht. destruct (decide (k = i)) as [->|Hne].
    2:{ apply Hall; [lia|done]. }
    assert (t = token) as -> by congruence. split.
    + intros -> Hpos Hprev. subst step2.
      rewrite Hprev in H2. cbn [String.eqb Ascii.eqb] in H2.
      assert ((0 <? i) = true) as Hi0 by (by apply Nat.ltb_lt).
      rewrite Hi0 in H2. done.
    + intros Hop. subst step3. rewrite Hop in H3.
      destruct (i =? 0) eqn:Hi0; [done|]. apply Nat.eqb_neq in Hi0.
      destruct (i =? length tokens - 1); [done|].
      replace (Z.of_nat i - 1)%Z with (Z.of_nat (i - 1)) in H3 by lia.
      destruct (lookup_lt_is_Some_2 tokens (i - 1)) as [p Hp].
      { apply lookup_lt_Some in Hi. lia. }
      rewrite (py_index_nat _ _ _ Hp) in H3. cbn [mbind result_bind] in H3.
      destruct (tok_in p operators || String.eqb p "(") eqn:Hpp; [done|].
      apply orb_false_iff in Hpp as [_ Hpp].
      replace (Z.of_nat i + 1)%Z with (Z.of_nat (i + 1)) in H3 by lia.
      destruct (py_index tokens (Z.of_nat (i + 1))) as [y|] eqn:Hy; [|done].
      cbn [mbind result_bind] in H3.
      destruct (tok_in y operators || String.eqb y ")") eqn:Hyy; [done|].
      apply orb_false_iff in Hyy as [Hy1 Hy2].
      split; [lia|]. split.
      * intros p' Hp' ->. rewrite Hp in Hp'. injection Hp' as ->. done.
      * exists y. split.
        -- by apply py_index_nat_inv.
        -- split; [done|]. intros ->. done.
Qed.

Lemma round_only_closing (y : string) :
  round_only y → y ≠ ")" → tok_in y CLOSE_BRACKETS = false.
Proof.
  unfold round_only, tok_in, CLOSE_BRACKETS. cbn [existsb].
  intros Hr Hne. destruct (String.eqb_spec y ")") as [->|_]; [done|].
  destruct (String.eqb y "["); [done|].
  destruct (String.eqb y "]"); [done|].
  destruct (String.eqb y "{"); [done|].
  by destruct (String.eqb y "}").
Qed.

Lemma round_only_opening (x : string) :
  round_only x → tok_in x OPEN_BRACKETS = true → x = "(".
Proof.
  unfold round_only, tok_in, OPEN_BRACKETS. cbn [existsb].
  intros Hr Ho. destruct (String.eqb_spec x "(") as [->|_]; [done|].
  destruct (String.eqb x "["); [done|].
  destruct (String.eqb x "]"); [done|].
  by destruct (String.eqb x "{").
Qed.

Lemma validate_loop_closing_first (tokens rest : list string) (i : nat) :
  validate_loop tokens (")" :: rest) i 0 ≠ Ok 0%Z
  ∧ ∀ d', validate_loop tokens (")" :: rest) i 0 ≠ Ok d'.
Proof.
  split; [|intros d']; cbn [validate_loop]; done.
Qed.

Lemma validate_tokens_inv (tokens : list string) :
  validate_tokens tokens = Ok true →
  (∃ t l, tokens = t :: l) ∧ validate_loop tokens tokens 0 0 = Ok 0%Z.
Proof.
  unfold validate_tokens. destruct tokens as [|t l]; [done|].
  destruct (validate_loop (t :: l) (t :: l) 0 0) as [d'|]; [|done].
  cbn [mbind result_bind].
  destruct (d' =? 0)%Z eqn:Hd'; [|done]. apply Z.eqb_eq in Hd'. subst d'.
  intros _. split; [by exists t, l|done].
Qed.

(** A sequence of tokens that [validate_tokens] accepts and that holds no
    square or curly bracket is well-formed. *)
Lemma validate_tokens_well_formed (tokens : list string) :
  Forall round_only tokens → validate_tokens tokens = Ok true →
  well_formed tokens = true.
Proof.
  intros Hround [(t & l & Htok) Hloop]%validate_tokens_inv.
  destruct (validate_loop_checked tokens tokens 0 0 0 eq_refl ltac:(lia)
              Hloop) as (_ & Hlast & Hall).
  assert (Hr : ∀ k y, tokens !! k = Some y → round_only y).
  { intros k y Hy. rewrite Forall_lookup in Hround. by eapply Hround. }
  rewrite Htok at 1. apply well_formed_intro; rewrite <- ?Htok.
  - assert (Ht : tokens !! 0 = Some t) by (by rewrite Htok).
    destruct (Hall 0 t ltac:(lia) Ht) as [_ Hop].
    unfold starts_operand.
    destruct (tok_in t operators) eqn:Hopr; [destruct (Hop eq_refl); lia|].
    rewrite round_only_closing; [done|by eapply Hr|].
    intros ->. rewrite Htok in Hloop.
    by apply (validate_loop_closing_first (")" :: l) l 0) in Hloop.
  - apply follows_ok_intro. intros i x Hi Hx.
    destruct (Hall i x ltac:(lia) Hi) as [_ Hop].
    unfold needs_operand in Hx.
    destruct (tok_in x operators) eqn:Hopr.
    + destruct (Hop eq_refl) as (_ & _ & y & Hy & Hy1 & Hy2).
      exists y. split; [done|]. unfold starts_operand.
      rewrite Hy1, round_only_closing; [done|by eapply Hr|done].
    + cbn [orb] in Hx. apply round_only_opening in Hx; [|by eapply Hr].
      subst x. destruct (tokens !! (i + 1)) as [y|] eqn:Hy.
      * exists y. split; [done|].
        destruct (Hall (i + 1) y ltac:(lia) Hy) as [Hclose Hop'].
        replace (i + 1 - 1) with i in * by lia.
        unfold starts_operand.
        destruct (tok_in y operators) eqn:Hyo.
        { destruct (Hop' eq_refl) as (_ & Hprev & _).
          by destruct (Hprev "(" Hi). }
        rewrite round_only_closing; [done|by eapply Hr|].
        intros ->. by destruct (Hclose eq_refl ltac:(lia)).
      * exfalso. assert (last tokens = Some "(") as Hl.
        { rewrite last_lookup. apply lookup_ge_None in Hy.
          apply lookup_lt_Some in Hi as Hlt.
          replace (Init.Nat.pred (length tokens)) with i by lia. done. }
        specialize (Hlast Hl). lia.
Qed.

(** *** A build under a ceiling returns *)

Section bounded_build.
Context `{FloatModel} (uuid4 : nat → string).
Hypothesis uuid4_distinct : ∀ i j, uuid4 i = uuid4 j → i = j.

Lemma distinct_draws_all (d : nat) : distinct_draws uuid4 d.
Proof. intros i j _ _. apply uuid4_distinct. Qed.

Lemma grows_refl (g : ExpressionGraph2) :
  ids_consistent uuid4 g → grows uuid4 g g.
Proof. intros Hc. by split; [|split]. Qed.

Lemma grows_trans (g1 g2 g3 : ExpressionGraph2) :
  grows uuid4 g1 g2 → grows uuid4 g2 g3 → grows uuid4 g1 g3.
Proof.
  intros (Hm1 & _ & Hb1) (Hm2 & Hc & Hb2).
  split; [congruence|]. split; [done|lia].
Qed.

Lemma record_state_grows (g : ExpressionGraph2) (cur : string)
    (new_tokens : list string) (ty desc : string) :
  ids_consistent uuid4 g →
  grows uuid4 g (record_state uuid4 g cur new_tokens ty desc).1.
Proof.
  intros Hc.
  pose proof (record_state_consistent uuid4 g cur new_tokens ty desc
                (distinct_draws_all _) Hc) as Hc'.
  split; [|split; [done|]]; clear Hc'; unfold record_state.
  - destruct (seen_expressions g !! join new_tokens); [done|].
    by destruct (Node_init _ _ _).
  - destruct (seen_expressions g !! join new_tokens); [done|].
    destruct (Node_init _ _ _) as [n|] eqn:Hn; [|done].
    cbn [fst nodes queue].
    destruct (Node_init_fields _ _ _ _ Hn) as [Hid _].
    rewrite map_size_insert_None, length_app; [cbn [length]; lia|].
    rewrite Hid. destruct (nodes g !! uuid4 (draws g)) as [n'|] eqn:Hl;
      [|done].
    destruct Hc as [Hnodes _].
    destruct (Hnodes _ _ Hl) as (_ & _ & k & Hk & Heq).
    apply uuid4_distinct in Heq. lia.
Qed.

Lemma expand_actions_grows (cur : Node) (actions : list graph_action) :
  ∀ g, ids_consistent uuid4 g →
       grows uuid4 g (expand_actions uuid4 g cur actions).
Proof.
  unfold expand_actions.
  induction actions as [|a actions IH]; intros g Hc;
    [by apply grows_refl|].
  cbn [fold_left].
  pose proof (record_state_grows g (node_id cur) (ga_result_tokens a)
                (ga_type a) (ga_description a) Hc) as Hstep.
  eapply grows_trans; [exact Hstep|]. apply IH. by destruct Hstep as (_ & ? & _).
Qed.

Lemma fast_path_grows (g : ExpressionGraph2) (cur : Node) (op : string) :
  ids_consistent uuid4 g → grows uuid4 g (fast_path uuid4 g cur op).2.
Proof.
  intros Hc. unfold fast_path.
  destruct (compute_same_operator_result _ _) as [r|];
    [|by apply grows_refl].
  pose proof (record_state_grows g (node_id cur) [r] "evaluate"
                ("Compute all '" +:+ op +:+ "' operations") Hc) as Hstep.
  destruct (record_state _ _ _ _ _ _) as [g' ok]. by destruct ok.
Qed.

Lemma build_loop_returns (N : nat) (fuel : nat) :
  ∀ g, max_nodes g = Some (Z.of_nat N) → 0 < N →
       ids_consistent uuid4 g → 0 < fuel →
       N + length (queue g) ≤ size (nodes g) + fuel →
       build_loop fuel uuid4 g ≠ None.
Proof.
  induction fuel as [|fuel IH]; intros g Hmax HN Hc Hfuel Hbound; [lia|].
  cbn [build_loop]. destruct (queue g) as [|cur q'] eqn:Hq; [done|].
  destruct (limit_reached g) eqn:Hlimit; [done|].
  assert (Hsize : size (nodes g) < N).
  { unfold limit_reached in Hlimit. rewrite Hmax in Hlimit.
    destruct (Z.of_nat N =? 0)%Z eqn:E; [apply Z.eqb_eq in E; lia|].
    cbn [negb andb] in Hlimit. apply Z.leb_gt in Hlimit. lia. }
  cbn [length] in Hbound.
  assert (Hnext : ∀ g', grows uuid4 (with_queue g q') g' →
                        build_loop fuel uuid4 g' ≠ None).
  { intros g' (Hm & Hc' & Hb). cbn [with_queue nodes queue max_nodes] in *.
    apply IH; [congruence|done|done|lia|lia]. }
  assert (Hg1 : ids_consistent uuid4 (with_queue g q')) by done.
  destruct (node_is_final cur); [by apply Hnext, grows_refl|].
  destruct (is_same_operator_expression (node_tokens cur))
    as [same operator].
  assert (Hnormal : ∀ g', grows uuid4 (with_queue g q') g' →
    match find_all_actions (node_tokens cur) with
    | Ok actions =>
        build_loop fuel uuid4 (expand_actions uuid4 g' cur actions)
    | Raise x => Some (Raise x)
    end ≠ None).
  { intros g' Hg'. destruct (find_all_actions _) as [actions|]; [|done].
    apply Hnext. eapply grows_trans; [exact Hg'|].
    apply expand_actions_grows. by destruct Hg' as (_ & ? & _). }
  destruct same; [|by apply Hnormal, grows_refl].
  destruct operator as [op|]; [|by apply Hnormal, grows_refl].
  case_bool_decide; [by apply Hnormal, grows_refl|].
  pose proof (fast_path_grows (with_queue g q') cur op Hg1) as Hfast.
  pose proof (fast_path_draws uuid4 (with_queue g q') cur op) as [_ Hsame].
  destruct (fast_path uuid4 (with_queue g q') cur op) as [[g'|] g2].
  - cbn [fst snd] in *. rewrite (Hsame g' eq_refl). by apply Hnext.
  - by apply Hnormal.
Qed.

End bounded_build.

(** *** Division by zero and the build *)

Lemma str_of_int_inj (a b : Z) : str_of_int a = str_of_int b → a = b.
Proof.
  intros Heq. pose proof (zfloat_of_str_of_int a) as Ha.
  rewrite Heq, zfloat_of_str_of_int in Ha. by injection Ha.
Qed.

Lemma str_of_nat_inj (i j : nat) : str_of_nat i = str_of_nat j → i = j.
Proof. intros Heq%str_of_int_inj. lia. Qed.

Lemma IntFragment_formats_literals : formats_literals (H := IntFragment).
Proof.
  intros x s. unfold format_result. destruct x as [z|]; [|done].
  cbn [float_to_int float_eq_int IntFragment mbind result_bind].
  rewrite Z.eqb_refl. intros [= <-].
  destruct (tok_in (str_of_int z) (all_brackets ++ operators)) eqn:E; [|done].
  apply tok_in_true in E. pose proof (zfloat_of_str_of_int z) as Hz.
  repeat (apply elem_of_cons in E as [E|E];
          [rewrite E in Hz; by vm_compute in Hz|]).
  by apply elem_of_nil in E.
Qed.

Lemma Node_init_raises `{FloatModel} (uuid : string) (tokens : list string)
    (parent : option string) (e : exn) :
  tokens ≠ [] → Node_init uuid tokens parent = Raise e →
  ∃ t, tokens = [t] ∧ float_of_str t = Raise e.
Proof.
  intros Hne. unfold Node_init.
  destruct tokens as [|t [|t' l]]; [done| |done].
  cbn [length Nat.eqb]. change (py_index [t] 0) with (Ok t).
  cbn [mbind result_bind]. destruct (float_of_str t) as [x|e'] eqn:Hf; [done|].
  cbn [mbind result_bind]. intros [= ->]. by exists t.
Qed.

(** C5. For every token sequence, no evaluate action of
    [_find_all_actions] divides by zero: each evaluate action in its result
    comes from a candidate on which [perform_operation] succeeded, and if
    its operator is [/] the right operand is not zero.  The failure is
    local: the division raises inside [perform_operation], where
    [_find_all_actions] catches it, and every other candidate on which
    [perform_operation] succeeds is still represented in the result.  And
    graph construction completes on input that the tokenizer and
    [validate_tokens] accept (given that a formatted number is never a
    bracket or operator token): nothing raised while the graph is explored
    leaves [_build_graph] - the only exception a build can end with is the
    one [float] raises on an input of a single token, before the
    exploration starts - and, under a node ceiling [N >= 1] and with
    identifiers that do not repeat, the build returns within [N] rounds of
    the loop. *)
Theorem division_by_zero_never_available `{FloatModel}
    (tokens : list string) :
  (∀ actions a,
     find_all_actions tokens = Ok actions → a ∈ actions →
     ga_type a = "evaluate" → evaluate_of tokens a)
  ∧ (∀ i lt rt l x,
       py_index tokens (Z.of_nat i - 1) = Ok lt → float_of_str lt = Ok l →
       py_index tokens (Z.of_nat i + 1) = Ok rt → float_of_str rt = Ok x →
       feq0 x = true →
       perform_operation tokens i "/" = Raise (ValueError "Division by zero"))
  ∧ (∀ ops,
       find_evaluatable_operations tokens = Ok ops →
       ∃ actions,
         find_all_actions tokens = Ok actions
         ∧ ∀ i op res,
             (i, op) ∈ ops → perform_operation tokens i op = Ok res →
             ∃ a, a ∈ actions ∧ join (ga_result_tokens a) = join res)
  ∧ (formats_literals →
     ∀ expr,
       tokenize expr = Ok tokens → validate_tokens tokens = Ok true →
       (∀ uuid4 fuel ceiling e,
          build_graph fuel uuid4 expr ceiling = Some (Raise e) →
          ∃ t, tokens = [t] ∧ float_of_str t = Raise e)
       ∧ (∀ uuid4 (N fuel : nat),
            (∀ i j, uuid4 i = uuid4 j → i = j) → 0 < N → N ≤ fuel →
            build_graph fuel uuid4 expr (Some (Z.of_nat N)) ≠ None)).
Proof.
  destruct (find_all_actions_division tokens) as (H1 & H2 & H3).
  split; [done|]. split; [done|]. split; [done|].
  intros Hlit expr Htok Hval.
  pose proof (validate_tokens_well_formed _ (tokenize_round_only _ _ Htok)
                Hval) as Hwf.
  assert (Hne : tokens ≠ []) by (by destruct tokens).
  split.
  - intros uuid4 fuel ceiling e. unfold build_graph. rewrite Htok.
    cbn [mbind result_bind]. rewrite Hval. cbn [mbind result_bind].
    destruct (Node_init (uuid4 0) tokens None) as [root|e'] eqn:Hroot.
    + intros Hb. exfalso. revert Hb.
      apply build_loop_never_raises; [done|].
      unfold queue_well_formed. cbn [queue]. apply Forall_singleton.
      by rewrite (Node_init_tokens _ _ _ _ Hroot).
    + intros [= ->]. by eapply Node_init_raises.
  - intros uuid4 N fuel Hinj HN Hfuel. unfold build_graph. rewrite Htok.
    cbn [mbind result_bind]. rewrite Hval. cbn [mbind result_bind].
    destruct (Node_init (uuid4 0) tokens None) as [root|e'] eqn:Hroot;
      [|done].
    apply (build_loop_returns uuid4 Hinj N); [done|done| |lia|].
    + destruct (Node_init_fields _ _ _ _ Hroot) as [Hid Hexpr]. split.
      * intros id n Hl. cbn [nodes seen_expressions draws] in *.
        apply lookup_insert_Some in Hl.
        destruct Hl as [[<- <-]|[_ Hl]]; [|by rewrite lookup_empty in Hl].
        rewrite lookup_insert_eq. split; [done|]. split; [done|].
        exists 0. split; [lia|done].
      * intros e id Hl. cbn [nodes seen_expressions] in *.
        apply lookup_insert_Some in Hl.
        destruct Hl as [[<- <-]|[_ Hl]]; [|by rewrite lookup_empty in Hl].
        exists root. by rewrite lookup_insert_eq.
    + cbn [nodes queue length].
      rewrite map_size_insert_None, map_size_empty by apply lookup_empty.
      lia.
Qed.

Lemma division_by_zero_never_available_witness :
  (∀ e, build_graph 20 str_of_nat "4/0+1" (Some (Z.of_nat 20))
        ≠ Some (Raise e))
  ∧ build_graph 20 str_of_nat "4/0+1" (Some (Z.of_nat 20)) ≠ None.
Proof.
  destruct (division_by_zero_never_available (H := IntFragment)
              ["4"; "/"; "0"; "+"; "1"]) as (_ & _ & _ & Hbuild).
  destruct (Hbuild IntFragment_formats_literals "4/0+1" eq_refl eq_refl)
    as [Hraise Hreturns].
  split.
  - intros e He. destruct (Hraise _ _ _ _ He) as (t & Ht & _). done.
  - apply Hreturns; [apply str_of_nat_inj|lia|lia].
Defined.


(** ** Further properties of the tokenizer and the rewrites *)

(** [tokenize] emits round brackets only: no token of its result is a
    square or curly bracket. *)
Theorem tokenize_emits_round_brackets_only (expr : string)
    (tokens : list string) :
  tokenize expr = Ok tokens →
  ∀ t, t ∈ tokens → tok_in t ["["; "]"; "{"; "}"] = false.
Proof.
  intros Htok t Ht. pose proof (tokenize_round_only _ _ Htok) as Hall.
  rewrite Forall_forall in Hall. by apply Hall.
Qed.

Lemma tokenize_emits_round_brackets_only_witness :
  tokenize "(2 + 3) * -5" = Ok ["("; "2"; "+"; "3"; ")"; "*"; "-5"]
  ∧ tok_in "-5" ["["; "]"; "{"; "}"] = false.
Proof.
  split; [reflexivity|].
  apply (tokenize_emits_round_brackets_only "(2 + 3) * -5"
           ["("; "2"; "+"; "3"; ")"; "*"; "-5"] eq_refl).
  apply list_elem_of_In. vm_compute. auto 10.
Defined.

(** What the tokenizer and [validate_tokens] accept is well-formed: it
    starts with an operand or an opening bracket, and so does what follows
    each operator and each opening bracket; in particular it does not end
    with an operator. *)
Theorem accepted_input_is_well_formed (expr : string)
    (tokens : list string) :
  tokenize expr = Ok tokens → validate_tokens tokens = Ok true →
  well_formed tokens = true
  ∧ ∀ i x, tokens !! i = Some x → needs_operand x = true →
           ∃ y, tokens !! (i + 1) = Some y ∧ starts_operand y = true.
Proof.
  intros Htok Hval.
  pose proof (validate_tokens_well_formed _ (tokenize_round_only _ _ Htok)
                Hval) as Hwf.
  split; [done|]. intros i x. by apply well_formed_after.
Qed.

Lemma accepted_input_is_well_formed_witness :
  well_formed ["2"; "*"; "("; "3"; "+"; "4"; ")"] = true
  ∧ ∀ i x, ["2"; "*"; "("; "3"; "+"; "4"; ")"] !! i = Some x →
           needs_operand x = true →
           ∃ y, ["2"; "*"; "("; "3"; "+"; "4"; ")"] !! (i + 1) = Some y
                ∧ starts_operand y = true.
Proof.
  exact (accepted_input_is_well_formed "2*(3+4)"
           ["2"; "*"; "("; "3"; "+"; "4"; ")"] eq_refl eq_refl).
Defined.

(** [validate_tokens] rejects every sequence that starts with an operator,
    whatever follows, with the message of that check. *)
Theorem validate_tokens_rejects_leading_operator (op : string)
    (rest : list string) :
  op ∈ operators →
  validate_tokens (op :: rest)
  = Raise (ValueError ("Expression cannot start with operator: " +:+ op)).
Proof.
  unfold operators. intros Hop.
  repeat (apply elem_of_cons in Hop as [->|Hop]; [reflexivity|]).
  by apply elem_of_nil in Hop.
Qed.

Lemma validate_tokens_rejects_leading_operator_witness :
  validate_tokens ["*"; "2"; "+"; "3"]
  = Raise (ValueError "Expression cannot start with operator: *").
Proof.
  apply (validate_tokens_rejects_leading_operator "*" ["2"; "+"; "3"]).
  apply list_elem_of_In. vm_compute. auto.
Defined.

(** The pairs that [find_bracket_groups] returns in its nested mode
    delimit brackets: an opening bracket at the first position, a closing
    bracket at the second, which comes later. *)
Theorem bracket_groups_delimit_brackets (tokens : list string) (s e : nat) :
  (s, e) ∈ find_bracket_groups tokens false →
  s < e
  ∧ ∃ o c, tokens !! s = Some o ∧ o ∈ OPEN_BRACKETS
           ∧ tokens !! e = Some c ∧ c ∈ CLOSE_BRACKETS.
Proof.
  intros (Hlt & o & c & Ho & Hopen & Hc & Hclose)%find_bracket_groups_brackets.
  split; [done|]. exists o, c. by rewrite <- !tok_in_true.
Qed.

Lemma bracket_groups_delimit_brackets_witness :
  1 < 5
  ∧ ∃ o c, ["2"; "("; "3"; "+"; "4"; ")"] !! 1 = Some o ∧ o ∈ OPEN_BRACKETS
           ∧ ["2"; "("; "3"; "+"; "4"; ")"] !! 5 = Some c
           ∧ c ∈ CLOSE_BRACKETS.
Proof.
  apply (bracket_groups_delimit_brackets ["2"; "("; "3"; "+"; "4"; ")"] 1 5).
  apply list_elem_of_In. vm_compute. auto.
Defined.

Lemma drop_brackets_length (tokens : list string) (s e : nat) :
  s < e → e < length tokens →
  length (drop_brackets tokens s e) + 2 = length tokens.
Proof.
  intros Hlt He. unfold drop_brackets.
  rewrite !length_app, length_drop, !length_take, length_drop. lia.
Qed.

(** Dropping the brackets of a group of a well-formed sequence removes
    exactly two tokens and leaves a well-formed sequence, also after
    [simplify_brackets]. *)
Theorem drop_brackets_of_group (tokens : list string) (s e : nat) :
  well_formed tokens = true →
  (s, e) ∈ find_bracket_groups tokens false →
  length (drop_brackets tokens s e) + 2 = length tokens
  ∧ well_formed (drop_brackets tokens s e) = true
  ∧ well_formed (simplify_brackets (drop_brackets tokens s e)) = true.
Proof.
  intros Hwf (Hlt & o & c & Ho & Hopen & Hc & Hclose)%find_bracket_groups_brackets.
  pose proof (drop_brackets_well_formed _ _ _ _ _ Hwf Ho Hopen Hc Hclose Hlt)
    as Hdrop.
  split; [|split; [done|by apply simplify_brackets_well_formed]].
  apply drop_brackets_length; [done|]. by apply lookup_lt_Some in Hc.
Qed.

Lemma drop_brackets_of_group_witness :
  length (drop_brackets ["("; "2"; "+"; "3"; ")"; "*"; "5"] 0 4) + 2 = 7
  ∧ well_formed (drop_brackets ["("; "2"; "+"; "3"; ")"; "*"; "5"] 0 4)
    = true
  ∧ well_formed
      (simplify_brackets
         (drop_brackets ["("; "2"; "+"; "3"; ")"; "*"; "5"] 0 4)) = true.
Proof.
  apply (drop_brackets_of_group ["("; "2"; "+"; "3"; ")"; "*"; "5"] 0 4);
    [reflexivity|].
  apply list_elem_of_In. vm_compute. auto.
Defined.

Lemma simplify_scan_length fuel :
  ∀ tokens i changed,
    length (simplify_scan fuel tokens i changed).1 ≤ length tokens.
Proof.
  induction fuel as [|fuel IH]; intros tokens i changed; [done|].
  cbn [simplify_scan]. destruct (i + 2 <? length tokens); [|done].
  destruct (collapsible tokens i) eqn:Hc; [|apply IH].
  pose proof (collapse_at_length _ _ Hc).
  pose proof (IH (collapse_at tokens i) i true). lia.
Qed.

Lemma simplify_loop_length fuel :
  ∀ tokens, length (simplify_loop fuel tokens) ≤ length tokens.
Proof.
  induction fuel as [|fuel IH]; intros tokens; [done|].
  cbn [simplify_loop].
  pose proof (simplify_scan_length (length tokens) tokens 0 false) as Hs.
  destruct (simplify_scan (length tokens) tokens 0 false) as [t' c].
  cbn [fst] in Hs. destruct c; [|done]. pose proof (IH t'). lia.
Qed.

(** [simplify_brackets] never lengthens a sequence, leaves a sequence
    without collapsible pair as it is, and keeps a well-formed sequence
    well-formed. *)
Theorem simplify_brackets_shrinks (tokens : list string) :
  length (simplify_brackets tokens) ≤ length tokens
  ∧ (no_collapsible tokens → simplify_brackets tokens = tokens)
  ∧ (well_formed tokens = true →
     well_formed (simplify_brackets tokens) = true).
Proof.
  split; [apply simplify_loop_length|].
  split; [apply simplify_loop_fixed|apply simplify_brackets_well_formed].
Qed.

Lemma parse_step_nonempty (st : parse_state) (x : string) :
  ps_terms (parse_step false st x) ≠ []
  ∨ ps_current_term (parse_step false st x) ≠ [].
Proof.
  unfold parse_step.
  destruct (tok_in x OPEN_BRACKETS);
    [right; cbn [ps_current_term]; by destruct (ps_current_term st)|].
  destruct (tok_in x CLOSE_BRACKETS);
    [right; cbn [ps_current_term]; by destruct (ps_current_term st)|].
  destruct (_ && _).
  - left. cbn [ps_terms]. by destruct (ps_terms st).
  - right. cbn [ps_current_term]. by destruct (ps_current_term st).
Qed.

Lemma parse_fold_nonempty (rest : list string) :
  ∀ st, ps_terms st ≠ [] ∨ ps_current_term st ≠ [] →
        ps_terms (fold_left (parse_step false) rest st) ≠ []
        ∨ ps_current_term (fold_left (parse_step false) rest st) ≠ [].
Proof.
  induction rest as [|x rest IH]; intros st Hst; [done|].
  cbn [fold_left]. apply IH, parse_step_nonempty.
Qed.

Lemma parse_bracket_terms_nonempty (content : list string) :
  content ≠ [] → parse_bracket_terms content false ≠ [].
Proof.
  destruct content as [|x l]; [done|]. intros _.
  unfold parse_bracket_terms. cbn [fold_left].
  destruct (parse_fold_nonempty l _ (parse_step_nonempty
              {| ps_terms := []; ps_current_sign := "+";
                 ps_current_term := []; ps_depth := 0 |} x)) as [Ht|Hc].
  - destruct (ps_current_term _); [done|]. by destruct (ps_terms _).
  - destruct (ps_current_term _); [done|]. by destruct (ps_terms _).
Qed.

(** The terms into which [parse_bracket_terms] splits a well-formed
    bracket content are well-formed themselves; there is at least one, the
    first carries the sign [+] and every other one the operator that
    precedes it. *)
Theorem bracket_terms_of_well_formed_content (content : list string) :
  well_formed content = true →
  (∀ sign term, (sign, term) ∈ parse_bracket_terms content false →
                sign ∈ operators ∧ well_formed term = true)
  ∧ ∃ term terms, parse_bracket_terms content false = ("+", term) :: terms.
Proof.
  intros Hwf.
  destruct (parse_bracket_terms_well_formed _ Hwf) as [Hall Hfirst].
  split.
  - intros sign term Hin. rewrite Forall_forall in Hall.
    destruct (Hall _ Hin) as [Hs Ht]. by rewrite <- tok_in_true.
  - pose proof (parse_bracket_terms_nonempty content) as Hne.
    destruct (parse_bracket_terms content false) as [|[sign term] terms].
    + destruct Hne; [|done]. by destruct content.
    + cbn [fst] in Hfirst. subst sign. by exists term, terms.
Qed.

Lemma bracket_terms_of_well_formed_content_witness :
  parse_bracket_terms ["2"; "*"; "3"; "-"; "("; "4"; "+"; "1"; ")"] false
  = [("+", ["2"; "*"; "3"]); ("-", ["("; "4"; "+"; "1"; ")"])]
  ∧ ∀ sign term,
      (sign, term)
        ∈ parse_bracket_terms
            ["2"; "*"; "3"; "-"; "("; "4"; "+"; "1"; ")"] false →
      sign ∈ operators ∧ well_formed term = true.
Proof.
  split; [reflexivity|].
  exact (proj1 (bracket_terms_of_well_formed_content
                  ["2"; "*"; "3"; "-"; "("; "4"; "+"; "1"; ")"] eq_refl)).
Defined.

Section shape_of_results.
Context `{FloatModel}.

(** [perform_operation] with an operator outside the five raises
    [ValueError], once both operands have been converted. *)
Theorem perform_operation_unknown_operator (tokens : list string) (i : nat)
    (op lt rt : string) (l r : pyfloat) :
  op ∉ operators →
  py_index tokens (Z.of_nat i - 1) = Ok lt → float_of_str lt = Ok l →
  py_index tokens (Z.of_nat i + 1) = Ok rt → float_of_str rt = Ok r →
  perform_operation tokens i op
  = Raise (ValueError ("Unknown operator: " +:+ op)).
Proof.
  intros Hop Hlt Hl Hrt Hr. unfold perform_operation.
  rewrite Hlt. cbn [mbind result_bind]. rewrite Hl. cbn [mbind result_bind].
  rewrite Hrt. cbn [mbind result_bind]. rewrite Hr. cbn [mbind result_bind].
  unfold apply_operator.
  assert (∀ s, s ∈ operators → String.eqb op s = false) as Hne.
  { intros s Hs. apply String.eqb_neq. intros ->. done. }
  rewrite !Hne; [done|..]; apply list_elem_of_In; vm_compute; auto 10.
Qed.


End shape_of_results.

Lemma perform_operation_unknown_operator_witness :
  perform_operation (H := IntFragment) ["2"; "%"; "3"] 1 "%"
  = Raise (ValueError "Unknown operator: %").
Proof.
  apply (perform_operation_unknown_operator (H := IntFragment)
           ["2"; "%"; "3"] 1 "%" "2" "3" (Fin 2) (Fin 3));
    try reflexivity.
  intros Hin%list_elem_of_In. vm_compute in Hin. intuition discriminate.
Defined.


Lemma py_index_before {A} (l : list A) (i : nat) :
  i < length l → is_ok (py_index l (Z.of_nat i - 1)) = true.
Proof.
  intros Hi. unfold py_index.
  destruct (Z.of_nat i - 1 <? 0)%Z eqn:E.
  - apply Z.ltb_lt in E.
    destruct (Z.of_nat i - 1 + Z.of_nat (length l) <? 0)%Z eqn:E2;
      [apply Z.ltb_lt in E2; lia|].
    destruct (lookup_lt_is_Some_2 l
                (Z.to_nat (Z.of_nat i - 1 + Z.of_nat (length l))))
      as [x ->]; [lia|done].
  - rewrite E. apply Z.ltb_ge in E.
    destruct (lookup_lt_is_Some_2 l (Z.to_nat (Z.of_nat i - 1)))
      as [x ->]; [lia|done].
Qed.

Lemma py_index_beyond {A} (l : list A) (n : nat) :
  length l ≤ n → py_index l (Z.of_nat n) = Raise IndexError.
Proof.
  intros Hn. unfold py_index.
  destruct (Z.of_nat n <? 0)%Z eqn:E; [apply Z.ltb_lt in E; lia|].
  rewrite E, Nat2Z.id. by rewrite (proj2 (lookup_ge_None l n)).
Qed.

Lemma find_evaluatable_loop_trailing (tokens : list string) (op : string) :
  last tokens = Some op → tok_in op operators = true →
  ∀ rest i acc,
    rest = drop i tokens → rest ≠ [] →
    find_evaluatable_loop tokens rest i acc = Raise IndexError.
Proof.
  intros Hlast Hop.
  induction rest as [|token rest IH]; intros i acc Hrest Hne; [done|].
  destruct (drop_cons_inv _ _ _ _ Hrest) as [Hi Hrest'].
  cbn [find_evaluatable_loop].
  pose proof (lookup_lt_Some _ _ _ Hi) as Hlen.
  pose proof (py_index_before tokens i Hlen) as Hprev.
  destruct (py_index tokens (Z.of_nat i - 1)) as [lt|]; [|done].
  destruct rest as [|token' rest'].
  - assert (length tokens = i + 1) as Hlen'.
    { assert (length (drop (i + 1) tokens) = 0) as H0
        by (by rewrite <- Hrest').
      rewrite length_drop in H0. lia. }
    assert (token = op) as ->.
    { rewrite last_lookup, Hlen' in Hlast.
      replace (Init.Nat.pred (i + 1)) with i in Hlast by lia. congruence. }
    rewrite Hop. cbn [mbind result_bind].
    replace (Z.of_nat i + 1)%Z with (Z.of_nat (i + 1)) by lia.
    rewrite py_index_beyond by lia. done.
  - destruct (tok_in token operators); [|by apply IH].
    cbn [mbind result_bind].
    assert (tokens !! (i + 1) = Some token') as Hnext.
    { rewrite <- (Nat.add_0_r (i + 1)), <- lookup_drop, <- Hrest'. done. }
    replace (Z.of_nat i + 1)%Z with (Z.of_nat (i + 1)) by lia.
    rewrite (py_index_nat _ _ _ Hnext). cbn [mbind result_bind].
    destruct (_ && _); by apply IH.
Qed.

(** On a well-formed sequence [find_evaluatable_operations] returns, and
    each candidate is an operator that is not the first token; on a
    sequence whose last token is an operator it raises [IndexError], and
    so does [_find_all_actions], which calls it outside its [try]
    blocks. *)
Theorem evaluatable_operations_and_trailing_operator `{FloatModel}
    (tokens : list string) :
  (well_formed tokens = true →
   ∃ ops, find_evaluatable_operations tokens = Ok ops
          ∧ ∀ k op, (k, op) ∈ ops →
                    0 < k ∧ tokens !! k = Some op ∧ op ∈ operators)
  ∧ (∀ op, last tokens = Some op → op ∈ operators →
           find_evaluatable_operations tokens = Raise IndexError
           ∧ find_all_actions tokens = Raise IndexError).
Proof.
  split.
  - intros Hwf.
    destruct (find_evaluatable_operations_well_formed _ Hwf)
      as (ops & Hops & Hall).
    exists ops. split; [done|]. intros k op Hin.
    destruct (Hall _ _ Hin) as (? & ? & ?). by rewrite <- tok_in_true.
  - intros op Hlast Hop%tok_in_true.
    assert (find_evaluatable_operations tokens = Raise IndexError) as Hr.
    { apply (find_evaluatable_loop_trailing tokens op Hlast Hop);
        [done|]. by destruct tokens. }
    split; [done|]. unfold find_all_actions. by rewrite Hr.
Qed.

Section action_lists.
Context `{FloatModel}.




(** On a well-formed sequence [_find_all_actions] returns, and every state
    it proposes is well-formed again. *)
Theorem find_all_actions_closed_on_well_formed (tokens : list string) :
  formats_literals → well_formed tokens = true →
  ∃ actions,
    find_all_actions tokens = Ok actions
    ∧ ∀ a, a ∈ actions → well_formed (ga_result_tokens a) = true.
Proof. intros Hlit Hwf. by apply find_all_actions_well_formed. Qed.

End action_lists.

Lemma evaluatable_operations_and_trailing_operator_witness :
  find_evaluatable_operations ["2"; "+"] = Raise IndexError
  ∧ find_all_actions (H := IntFragment) ["2"; "+"] = Raise IndexError.
Proof.
  apply (proj2 (evaluatable_operations_and_trailing_operator
                  (H := IntFragment) ["2"; "+"]) "+"); [reflexivity|].
  apply list_elem_of_In. vm_compute. auto.
Defined.


Lemma find_all_actions_closed_on_well_formed_witness :
  ∃ actions,
    find_all_actions (H := IntFragment) ["("; "2"; "+"; "3"; ")"; "*"; "5"]
    = Ok actions
    ∧ ∀ a, a ∈ actions → well_formed (ga_result_tokens a) = true.
Proof.
  exact (find_all_actions_closed_on_well_formed (H := IntFragment)
           ["("; "2"; "+"; "3"; ")"; "*"; "5"]
           IntFragment_formats_literals eq_refl).
Defined.

(** ** Further properties of policies and learners *)

(** [get_policy] returns the registered policy of a registered name, and
    raises [ValueError] with the list of registered names on any other
    name. *)
Theorem get_policy_by_name :
  (∀ p, get_policy (policy_name p) = Ok p)
  ∧ (∀ name,
       (∀ p, policy_name p ≠ name) →
       get_policy name
       = Raise (ValueError
                  ("Unknown policy: " +:+ name +:+ ". Available: "
                     +:+ py_repr_list (map policy_name POLICY_REGISTRY)))).
Proof.
  split.
  - intros p. by destruct p.
  - intros name Hne. unfold get_policy.
    destruct (find _ POLICY_REGISTRY) as [p|] eqn:Hf; [|done].
    apply find_some in Hf as [_ Heq%String.eqb_eq]. by destruct (Hne p).
Qed.

(** [create_learner] returns a learner for each of the preset profiles,
    with one policy object per policy name of the profile, and raises
    [ValueError] with the list of profiles on any other name. *)
Theorem create_learner_by_profile (profile_name : string) :
  (profile_name ∈ map fst LEARNER_PROFILES →
   ∃ l, create_learner profile_name = Ok l
        ∧ name l = profile_name
        ∧ map policy_name (policies l) = policy_names l)
  ∧ (profile_name ∉ map fst LEARNER_PROFILES →
     create_learner profile_name
     = Raise (ValueError
                ("Unknown profile: " +:+ profile_name +:+ ". Available: "
                   +:+ py_repr_list (map fst LEARNER_PROFILES)))).
Proof.
  split.
  - intros Hin. cbn [map fst LEARNER_PROFILES] in Hin.
    repeat (apply elem_of_cons in Hin as [->|Hin];
            [eexists; split; [reflexivity|split; reflexivity]|]).
    by apply elem_of_nil in Hin.
  - intros Hnot. unfold create_learner.
    destruct (find _ LEARNER_PROFILES) as [[pn cfg]|] eqn:Hf; [|done].
    apply find_some in Hf as [Hin Heq%String.eqb_eq]. cbn [fst] in Heq.
    subst pn. destruct Hnot. apply list_elem_of_fmap.
    exists (profile_name, cfg). split; [done|]. by apply list_elem_of_In.
Qed.

Lemma create_learner_by_profile_witness :
  create_learner "teacher"
  = Raise (ValueError
             ("Unknown profile: teacher. Available: "
                +:+ py_repr_list (map fst LEARNER_PROFILES))).
Proof.
  apply (proj2 (create_learner_by_profile "teacher")).
  intros Hin%list_elem_of_In. vm_compute in Hin. intuition discriminate.
Defined.



Lemma novice_learner_created : create_learner "novice" = Ok novice_learner.
Proof. reflexivity. Qed.

(** The profile [novice], whose only policy is [allow_all], accepts every
    available action in every state. *)
Theorem novice_accepts_everything (l : Learner) (state : list string)
    (available : list Action) :
  create_learner "novice" = Ok l →
  valid_actions l state available = Ok available.
Proof.
  intros Hl. change (create_learner "novice") with (Ok novice_learner) in Hl.
  injection Hl as <-.
  unfold valid_actions. generalize available at 1 as all.
  induction available as [|a rest IH]; intros all; [done|].
  cbn [valid_actions_from]. unfold is_valid at 1.
  cbn [policies all_policies policy_evaluate mbind result_bind].
  by rewrite IH.
Qed.


Lemma novice_accepts_everything_witness :
  valid_actions novice_learner ["2"; "+"; "3"; "*"; "4"]
    [{| action_type := "evaluate"; operator := Some "*";
        operator_index := Some 3; description := "Compute 3 * 4" |}]
  = Ok [{| action_type := "evaluate"; operator := Some "*";
           operator_index := Some 3; description := "Compute 3 * 4" |}].
Proof.
  apply novice_accepts_everything. reflexivity.
Defined.
